(** * The expression/reference engine of the RPG system builder

    A shallow embedding of the token scanner, the dependency extractor,
    the cycle detector, the schema validator, the preview resolver and the
    replacement-key filter of [src/App.tsx], with the properties the
    specification states about them.

    Conventions.  JavaScript strings are modelled by [string]; every regular
    expression of the source only inspects ASCII characters, so scanning the
    UTF-8 bytes agrees with scanning UTF-16 code units.  JavaScript numbers
    that hold ids, bounds and indices are modelled by [Z] (exact on the safe
    integer range).  A [Set<number>] is a [gset Z]. *)

From Stdlib Require Import ZArith Lia List Ascii String Relations.
From Stdlib Require Import Numbers.DecimalString Numbers.DecimalPos.
From Stdlib Require Import Sorting.Permutation Sorting.Sorted.
From stdpp Require Import base relations gmap sets list strings.

Local Open Scope string_scope.
Local Open Scope Z_scope.

(** Let [simpl] compute string concatenation on constructors. *)
Local Arguments String.append !s1 s2 : simpl nomatch.

(* ================================================================== *)
(** * Strings and regular expressions *)
(* ================================================================== *)

Module Js.

(** [`${n}`] and [String(n)] on an integer below 2^53 in magnitude, where
    the source prints every decimal digit (from 2^53 on a number prints
    its shortest digits, and from 1e21 on in exponent notation). *)
Definition String_of_Z (n : Z) : string :=
  NilZero.string_of_int (Z.to_int n).

Definition String_of_nat (n : nat) : string := String_of_Z (Z.of_nat n).

(** Literal characters the patterns mention. *)
Definition lt_char : ascii := "<"%char.
Definition gt_char : ascii := ">"%char.
Definition newline : ascii := "010"%char.

(** The class [\d]. *)
Definition is_digit (c : ascii) : bool :=
  (48 <=? nat_of_ascii c)%nat && (nat_of_ascii c <=? 57)%nat.

Definition digit_val (c : ascii) : Z := Z.of_nat (nat_of_ascii c) - 48.

Fixpoint parse_digits (acc : Z) (s : string) : Z :=
  match s with
  | EmptyString => acc
  | String c s' => parse_digits (10 * acc + digit_val c) s'
  end.

(** [parseInt] on a run of decimal digits (the only argument the source
    ever gives it). *)
Definition parseInt (s : string) : Z := parse_digits 0 s.

(** Matching a literal at the head of the subject; the rest is returned. *)
Fixpoint lit (p s : string) : option string :=
  match p with
  | EmptyString => Some s
  | String a p' =>
      match s with
      | EmptyString => None
      | String b s' => if Ascii.eqb a b then lit p' s' else None
      end
  end.

(** The greedy run [\d*]: the digits taken and the rest. *)
Fixpoint digits_run (s : string) : string * string :=
  match s with
  | EmptyString => (EmptyString, EmptyString)
  | String c s' =>
      if is_digit c
      then let '(d, r) := digits_run s' in (String c d, r)
      else (EmptyString, s)
  end.

(** The greedy run [[^>]*]. *)
Fixpoint not_gt_run (s : string) : string * string :=
  match s with
  | EmptyString => (EmptyString, EmptyString)
  | String c s' =>
      if Ascii.eqb c gt_char
      then (EmptyString, s)
      else let '(d, r) := not_gt_run s' in (String c d, r)
  end.

(** [\d+]: no shorter run can be followed by a non-digit, so the greedy
    run is the only candidate. *)
Definition digits1 (s : string) : option (string * string) :=
  match digits_run s with
  | (EmptyString, _) => None
  | (d, r) => Some (d, r)
  end.

(** [[^>]+]. *)
Definition not_gt1 (s : string) : option (string * string) :=
  match not_gt_run s with
  | (EmptyString, _) => None
  | (d, r) => Some (d, r)
  end.

(** A pattern tried at the head of the subject: the captures and the text
    left after the match. *)
Definition pattern (A : Type) : Type := string -> option (A * string).

Section GlobalScan.
Context {A : Type}.
Variable p : pattern A.

(** Number of characters a match at the head of [s] consumes. *)
Definition consumed (s rest : string) : nat :=
  (String.length s - String.length rest)%nat.

(** The [while ((match = regex.exec(s)) !== null)] loop of a [/g]
    pattern: the captures of the successive matches, left to right.
    [skip] counts the characters still covered by the previous match
    ([lastIndex] lies that far ahead). *)
Fixpoint exec_from (skip : nat) (s : string) : list A :=
  match s with
  | EmptyString => []
  | String _ s' =>
      match skip with
      | S k => exec_from k s'
      | O =>
          match p s with
          | Some (a, rest) => a :: exec_from (consumed s rest - 1) s'
          | None => exec_from 0 s'
          end
      end
  end.

Definition exec_all (s : string) : list A := exec_from 0 s.

(** [s.replace(regex, callback)] with a [/g] pattern. *)
Fixpoint replace_from (f : A -> string) (skip : nat) (s : string) : string :=
  match s with
  | EmptyString => EmptyString
  | String c s' =>
      match skip with
      | S k => replace_from f k s'
      | O =>
          match p s with
          | Some (a, rest) => f a ++ replace_from f (consumed s rest - 1) s'
          | None => String c (replace_from f 0 s')
          end
      end
  end.

Definition replace (f : A -> string) (s : string) : string :=
  replace_from f 0 s.
End GlobalScan.

(** [/<stat:(\d+):value>/g] (also written [/<(stat):(\d+):(value)>/g]):
    the captured digits. *)
Definition re_stat_value : pattern string := fun s =>
  match lit "<stat:" s with
  | None => None
  | Some s1 =>
      match digits1 s1 with
      | None => None
      | Some (d, s2) =>
          match lit ":value>" s2 with
          | None => None
          | Some rest => Some (d, rest)
          end
      end
  end.

(** [(name|value|emoji)]. *)
Definition alt_property (s : string) : option (string * string) :=
  match lit "name" s with
  | Some r => Some ("name", r)
  | None =>
      match lit "value" s with
      | Some r => Some ("value", r)
      | None =>
          match lit "emoji" s with
          | Some r => Some ("emoji", r)
          | None => None
          end
      end
  end.

(** [(stat|section)]. *)
Definition alt_kind (s : string) : option (string * string) :=
  match lit "stat" s with
  | Some r => Some ("stat", r)
  | None =>
      match lit "section" s with
      | Some r => Some ("section", r)
      | None => None
      end
  end.

(** [/<(stat|section):(\d+):(name|value|emoji)>/g]: type, id, property. *)
Definition re_variable : pattern (string * string * string) := fun s =>
  match lit "<" s with
  | None => None
  | Some s0 =>
      match alt_kind s0 with
      | None => None
      | Some (ty, s1) =>
          match lit ":" s1 with
          | None => None
          | Some s2 =>
              match digits1 s2 with
              | None => None
              | Some (d, s3) =>
                  match lit ":" s3 with
                  | None => None
                  | Some s4 =>
                      match alt_property s4 with
                      | None => None
                      | Some (pr, s5) =>
                          match lit ">" s5 with
                          | None => None
                          | Some rest => Some ((ty, d, pr), rest)
                          end
                      end
                  end
              end
          end
      end
  end.

(** [/<math:([^>]+)>/g] and [/<dice:([^>]+)>/g]: the payload. *)
Definition re_payload (opener : string) : pattern string := fun s =>
  match lit opener s with
  | None => None
  | Some s1 =>
      match not_gt1 s1 with
      | None => None
      | Some (body, s2) =>
          match lit ">" s2 with
          | None => None
          | Some rest => Some (body, rest)
          end
      end
  end.

Definition re_math : pattern string := re_payload "<math:".
Definition re_dice : pattern string := re_payload "<dice:".

(** [/\n/g]. *)
Definition re_newline : pattern unit := fun s =>
  match s with
  | String c rest => if Ascii.eqb c newline then Some (tt, rest) else None
  | EmptyString => None
  end.

End Js.

(* ================================================================== *)
(** * Dependency extraction *)
(* ================================================================== *)

(** [dependencies.includes(statId)]. *)
Definition includes (l : list Z) (x : Z) : bool := existsb (Z.eqb x) l.

(** One turn of the loop body of [findStatDependencies]. *)
Definition push_new (dependencies : list Z) (digits : string) : list Z :=
  let statId := Js.parseInt digits in
  if includes dependencies statId then dependencies
  else dependencies ++ [statId].

Definition findStatDependencies (formula : string) : list Z :=
  fold_left push_new (Js.exec_all Js.re_stat_value formula) [].

(* ================================================================== *)
(** * Data model *)
(* ================================================================== *)

(** [Localization]: an object whose keys are ["default"] and locale names. *)
Abbreviation Localization := (gmap string string).

(** [name?.[key]]. *)
Definition loc_get (name : option Localization) (key : string) : option string :=
  match name with
  | Some m => m !! key
  | None => None
  end.

(** Truthiness of a possibly missing string. *)
Definition truthy (o : option string) : bool :=
  match o with
  | Some EmptyString => false
  | Some _ => true
  | None => false
  end.

(** [a || b] where [b] is a string. *)
Definition or_str (a : option string) (b : string) : string :=
  match a with
  | Some EmptyString => b
  | Some s => s
  | None => b
  end.

(** [a || b] where [b] may be missing as well. *)
Definition or_opt (a b : option string) : option string :=
  if truthy a then a else b.

Record StatsEnumOption := {
  opt_value : Z;
  opt_name : option Localization;
  opt_emoji : option string
}.

(** [options: StatsEnumOption[] | number]. *)
Inductive EnumOptions :=
| OptionList (l : list StatsEnumOption)
| OptionRef (n : Z).

(** The variant part of a stat (the [type] tag and the fields the engine
    reads). *)
Inductive StatType :=
| numeric (min max : option Z)
| enum (options : EnumOptions)
| boolean
| string_t
| calculated (formula : string).

Record Stats := {
  stat_id : Z;
  stat_name : option Localization;
  stat_emoji : option string;
  stat_type : StatType
}.

Record Section_ := {
  sec_id : Z;
  sec_name : option Localization;
  sec_emoji : option string;
  sec_preview_type : option string
}.

Record Config := {
  cfg_id : option Z;
  cfg_name : option Localization
}.

(** A field that should hold an array but, after a JSON import, may hold
    anything else. *)
Inductive Field (A : Type) :=
| NotArray
| IsArray (l : list A).
Arguments NotArray {A}.
Arguments IsArray {A} l.

Record RPGSystem := {
  config : option Config;
  stats : Field Stats;
  sections : Field Section_
}.

Record Condition := {
  value1 : string;
  operator : string;
  value2 : string
}.

Record Dice := {
  expression : string;
  condition : option Condition
}.

Definition is_string (s : Stats) : bool :=
  match stat_type s with string_t => true | _ => false end.

(** [allStats.find(s => s.id === i)]. *)
Definition find_stat (allStats : list Stats) (i : Z) : option Stats :=
  List.find (fun s => stat_id s =? i) allStats.

Definition find_section (l : list Section_) (i : Z) : option Section_ :=
  List.find (fun s => sec_id s =? i) l.

(* ================================================================== *)
(** * Cycle detection *)
(* ================================================================== *)

Section CycleDetector.
Variable currentStatId : Z.
Variable allStats : list Stats.

(** Result of a call: the boolean returned and the [visited] set as the
    call leaves it. *)
Definition outcome : Type := bool * gset Z.

(** The [for (const depId of dependencies)] loop, given the recursive
    call. *)
Fixpoint for_dependencies
    (rec : gset Z -> Z -> string -> option outcome)
    (visited : gset Z) (dependencies : list Z) : option outcome :=
  match dependencies with
  | [] => Some (false, visited)
  | depId :: rest =>
      if depId =? currentStatId then Some (true, visited)
      else
        match find_stat allStats depId with
        | Some depStat =>
            match stat_type depStat with
            | calculated f =>
                match rec visited depId f with
                | None => None
                | Some (true, v) => Some (true, v)
                | Some (false, v) => for_dependencies rec v rest
                end
            | _ => for_dependencies rec visited rest
            end
        | None => for_dependencies rec visited rest
        end
  end.

(** [checkRecursive]; [fuel] bounds the depth of the recursion and [None]
    means the bound was hit. *)
Fixpoint checkRecursive (fuel : nat) (visited : gset Z)
    (statId : Z) (currentFormula : string) : option outcome :=
  match fuel with
  | O => None
  | S fuel' =>
      if decide (statId ∈ visited) then Some (true, visited)
      else
        let visited1 := visited ∪ {[statId]} in
        match for_dependencies (checkRecursive fuel') visited1
                (findStatDependencies currentFormula) with
        | None => None
        | Some (true, v) => Some (true, v)
        | Some (false, v) => Some (false, v ∖ {[statId]})
        end
  end.

Definition hasCircularDependency_fuel (fuel : nat) (formula : string)
  : option bool :=
  match checkRecursive fuel ∅ currentStatId formula with
  | Some (b, _) => Some b
  | None => None
  end.
End CycleDetector.

(** Depth that is always enough: the root, one level per stat, and the
    call that finds its node on the path. *)
Definition depth_bound (allStats : list Stats) : nat := S (S (length allStats)).

Definition hasCircularDependency
    (currentStatId : Z) (formula : string) (allStats : list Stats) : bool :=
  match hasCircularDependency_fuel currentStatId allStats
          (depth_bound allStats) formula with
  | Some b => b
  | None => false
  end.

(* ================================================================== *)
(** * Schema validation *)
(* ================================================================== *)

(** The entries [validate] pushes; [message] gives the text of each. *)
Inductive ValidationError :=
| ConfigIdRequired
| ConfigNameRequired
| StatsNotArray
| SectionsNotArray
| StatDuplicateId (idx : nat) (id : Z)
| StatNameRequired (idx : nat)
| StatMinGtMax (idx : nat)
| StatTooManyOptions (idx : nat) (n : nat)
| OptionDuplicateValue (idx j : nat) (value : Z)
| OptionNameRequired (idx j : nat)
| FormulaRequired (idx : nat)
| FormulaCircular (idx : nat)
| FormulaMissingStat (idx : nat) (depId : Z)
| FormulaStringStat (idx : nat) (depId : Z)
| SectionDuplicateId (i : nat) (id : Z)
| SectionNameRequired (i : nat)
| SectionPreviewTypeRequired (i : nat).

Definition message (e : ValidationError) : string :=
  let n := Js.String_of_nat in
  let z := Js.String_of_Z in
  match e with
  | ConfigIdRequired => "config.id é obrigatório"
  | ConfigNameRequired => "config.name.default é obrigatório"
  | StatsNotArray => "stats deve ser um array"
  | SectionsNotArray => "sections deve ser um array"
  | StatDuplicateId idx id => "stats[" ++ n idx ++ "] id duplicado: " ++ z id
  | StatNameRequired idx => "stats[" ++ n idx ++ "].name.default é obrigatório"
  | StatMinGtMax idx => "stats[" ++ n idx ++ "] min > max"
  | StatTooManyOptions idx k =>
      "stats[" ++ n idx ++ "] excede o limite de 25 opções (" ++ n k ++ ")"
  | OptionDuplicateValue idx j v =>
      "stats[" ++ n idx ++ "].options[" ++ n j ++ "].value duplicado: " ++ z v
  | OptionNameRequired idx j =>
      "stats[" ++ n idx ++ "].options[" ++ n j ++ "].name.default é obrigatório"
  | FormulaRequired idx => "stats[" ++ n idx ++ "].formula é obrigatório"
  | FormulaCircular idx => "stats[" ++ n idx ++ "] tem dependência circular na fórmula"
  | FormulaMissingStat idx d =>
      "stats[" ++ n idx ++ "].formula referencia stat inexistente: " ++ z d
  | FormulaStringStat idx d =>
      "stats[" ++ n idx ++ "].formula referencia stat do tipo string: " ++ z d
  | SectionDuplicateId i id => "sections[" ++ n i ++ "] id duplicado: " ++ z id
  | SectionNameRequired i => "sections[" ++ n i ++ "].name.default é obrigatório"
  | SectionPreviewTypeRequired i => "sections[" ++ n i ++ "].preview.type é obrigatório"
  end.

(** How a call ends. *)
Inductive Completion (A : Type) :=
| Returns (a : A)
| Throws_TypeError.
Arguments Returns {A} a.
Arguments Throws_TypeError {A}.

(** [errs.push(e)] when [c] holds. *)
Definition push_if (c : bool) (e : ValidationError) (errs : list ValidationError)
  : list ValidationError :=
  if c then (errs ++ [e])%list else errs.

(** [arr.forEach((x, idx) => ...)] threading the state the callback
    mutates. *)
Fixpoint forEach {A St : Type} (body : St -> nat -> A -> St) (idx : nat)
    (arr : list A) (st : St) : St :=
  match arr with
  | [] => st
  | x :: rest => forEach body (S idx) rest (body st idx x)
  end.

Definition check_option (idx : nat) (st : gset Z * list ValidationError)
    (j : nat) (o : StatsEnumOption) : gset Z * list ValidationError :=
  let '(seen, errs) := st in
  let errs := push_if (bool_decide (opt_value o ∈ seen))
                (OptionDuplicateValue idx j (opt_value o)) errs in
  let seen := seen ∪ {[opt_value o]} in
  let errs := push_if (negb (truthy (loc_get (opt_name o) "default")))
                (OptionNameRequired idx j) errs in
  (seen, errs).

Definition check_dependency (allStats : list Stats) (idx : nat)
    (errs : list ValidationError) (_ : nat) (depId : Z) : list ValidationError :=
  match find_stat allStats depId with
  | None => (errs ++ [FormulaMissingStat idx depId])%list
  | Some depStat =>
      if is_string depStat then (errs ++ [FormulaStringStat idx depId])%list
      else errs
  end.

Definition check_variant (allStats : list Stats) (idx : nat) (s : Stats)
    (errs : list ValidationError) : list ValidationError :=
  match stat_type s with
  | numeric (Some lo) (Some hi) => push_if (hi <? lo) (StatMinGtMax idx) errs
  | numeric _ _ => errs
  | enum (OptionList l) =>
      let errs := push_if (25 <? length l)%nat (StatTooManyOptions idx (length l)) errs in
      snd (forEach (check_option idx) 0%nat l (∅, errs))
  | enum (OptionRef _) => errs
  | boolean => errs
  | string_t => errs
  | calculated formula =>
      let errs := push_if (String.eqb formula EmptyString) (FormulaRequired idx) errs in
      let errs :=
        push_if (negb (String.eqb formula EmptyString)
                 && hasCircularDependency (stat_id s) formula allStats)
          (FormulaCircular idx) errs in
      forEach (check_dependency allStats idx) 0%nat (findStatDependencies formula) errs
  end.

Definition check_stat (allStats : list Stats) (st : gset Z * list ValidationError)
    (idx : nat) (s : Stats) : gset Z * list ValidationError :=
  let '(ids, errs) := st in
  let errs := push_if (bool_decide (stat_id s ∈ ids))
                (StatDuplicateId idx (stat_id s)) errs in
  let ids := ids ∪ {[stat_id s]} in
  let errs := push_if (negb (truthy (loc_get (stat_name s) "default")))
                (StatNameRequired idx) errs in
  (ids, check_variant allStats idx s errs).

Definition check_section (st : gset Z * list ValidationError)
    (i : nat) (sec : Section_) : gset Z * list ValidationError :=
  let '(secIds, errs) := st in
  let errs := push_if (bool_decide (sec_id sec ∈ secIds))
                (SectionDuplicateId i (sec_id sec)) errs in
  let secIds := secIds ∪ {[sec_id sec]} in
  let errs := push_if (negb (truthy (loc_get (sec_name sec) "default")))
                (SectionNameRequired i) errs in
  let errs := push_if (negb (truthy (sec_preview_type sec)))
                (SectionPreviewTypeRequired i) errs in
  (secIds, errs).

(** The four checks on the top-level fields. *)
Definition check_toplevel (system : RPGSystem) : list ValidationError :=
  let errs := [] in
  let errs := push_if (match config system with
                       | Some c => match cfg_id c with Some _ => false | None => true end
                       | None => true
                       end) ConfigIdRequired errs in
  let errs := push_if (negb (truthy (match config system with
                                     | Some c => loc_get (cfg_name c) "default"
                                     | None => None
                                     end))) ConfigNameRequired errs in
  let errs := push_if (match stats system with NotArray => true | IsArray _ => false end)
                StatsNotArray errs in
  let errs := push_if (match sections system with NotArray => true | IsArray _ => false end)
                SectionsNotArray errs in
  errs.

(** [validate]: the entries in the order they are pushed.  Calling
    [forEach] on a field that is not an array throws. *)
Definition validate_errors (system : RPGSystem) : Completion (list ValidationError) :=
  let errs := check_toplevel system in
  match stats system with
  | NotArray => Throws_TypeError
  | IsArray allStats =>
      let errs := snd (forEach (check_stat allStats) 0%nat allStats (∅, errs)) in
      match sections system with
      | NotArray => Throws_TypeError
      | IsArray secs =>
          Returns (snd (forEach check_section 0%nat secs (∅, errs)))
      end
  end.

Definition validate (system : RPGSystem) : Completion (list string) :=
  match validate_errors system with
  | Returns errs => Returns (map message errs)
  | Throws_TypeError => Throws_TypeError
  end.

(* ================================================================== *)
(** * Preview resolver *)
(* ================================================================== *)

(** [n || d] on a possibly missing number. *)
Definition or_num (n : option Z) (d : Z) : Z :=
  match n with
  | Some 0 => d
  | Some v => v
  | None => d
  end.

(** What [new DiceRoll(expr)] does. *)
Inductive RollOutcome :=
| Rolled (output : string)
| RollError (message : string)
| RollThrown.

(** [x.options] as an array, on any stat. *)
Definition option_list (s : Stats) : option (list StatsEnumOption) :=
  match stat_type s with
  | enum (OptionList l) => Some l
  | _ => None
  end.

Section SmartPreview.
(** The collaborators: [evaluate] of mathjs followed by the
    stringification of its result ([None] when either throws), and the
    dice roller. *)
Variable evaluate : string -> option string.
Variable DiceRoll : string -> RollOutcome.

Variable sections_ : list Section_.
Variable stats_ : list Stats.
Variable locale : string.

Definition option_label (o : StatsEnumOption) : string :=
  or_str (or_opt (loc_get (opt_name o) locale) (loc_get (opt_name o) "default"))
    "Option 1".

Definition enum_value_label (options : EnumOptions) : string :=
  match options with
  | OptionList (firstOption :: _) => option_label firstOption
  | OptionList [] => "enum"
  | OptionRef n =>
      if 0 <? n then
        match find_stat stats_ n with
        | Some referencedStat =>
            match option_list referencedStat with
            | Some (firstOption :: _) => option_label firstOption
            | _ => "[ref: " ++ Js.String_of_Z n ++ "]"
            end
        | None => "[ref: " ++ Js.String_of_Z n ++ "]"
        end
      else "enum"
  end.

Definition resolveVariableValue (type id property : string) : string :=
  let numId := Js.parseInt id in
  if String.eqb type "stat" then
    match find_stat stats_ numId with
    | None => "[Stat " ++ id ++ " não encontrado]"
    | Some stat =>
        if String.eqb property "name" then
          or_str (or_opt (loc_get (stat_name stat) locale)
                         (loc_get (stat_name stat) "default"))
                 ("Stat " ++ id)
        else if String.eqb property "emoji" then
          or_str (stat_emoji stat) EmptyString
        else if String.eqb property "value" then
          match stat_type stat with
          | numeric lo _ => Js.String_of_Z (or_num lo 1)
          | string_t => "string"
          | boolean => "false"
          | enum options => enum_value_label options
          | calculated _ => "[calculado]"
          end
        else "[propriedade " ++ property ++ " desconhecida]"
    end
  else if String.eqb type "section" then
    match find_section sections_ numId with
    | None => "[Seção " ++ id ++ " não encontrada]"
    | Some section =>
        if String.eqb property "name" then
          or_str (or_opt (loc_get (sec_name section) locale)
                         (loc_get (sec_name section) "default"))
                 ("Seção " ++ id)
        else if String.eqb property "emoji" then
          or_str (sec_emoji section) EmptyString
        else "[propriedade " ++ property ++ " desconhecida]"
    end
  else "[tipo " ++ type ++ " desconhecido]".

(** The numeric value of the first option of an enum, following one
    reference; [fallback] otherwise. *)
Definition enum_numeric (options : EnumOptions) (fallback : string) : string :=
  match options with
  | OptionList (o :: _) => Js.String_of_Z (opt_value o)
  | OptionList [] => fallback
  | OptionRef n =>
      if 0 <? n then
        match find_stat stats_ n with
        | Some referencedStat =>
            match option_list referencedStat with
            | Some (o :: _) => Js.String_of_Z (opt_value o)
            | _ => fallback
            end
        | None => fallback
        end
      else fallback
  end.

(** The callback of the substitution inside [evaluateMathExpression]. *)
Definition math_sample (id : string) : string :=
  match find_stat stats_ (Js.parseInt id) with
  | None => "0"
  | Some stat =>
      match stat_type stat with
      | numeric lo _ => Js.String_of_Z (or_num lo 1)
      | boolean => "0"
      | enum options => enum_numeric options "1"
      | calculated _ => "0"
      | string_t => "0"
      end
  end.

(** The callback of the substitution inside [evaluateDiceExpression]. *)
Definition dice_sample (id : string) : string :=
  match find_stat stats_ (Js.parseInt id) with
  | None => "3"
  | Some stat =>
      match stat_type stat with
      | numeric lo _ => Js.String_of_Z (or_num lo 3)
      | boolean => "1"
      | enum options => enum_numeric options "2"
      | calculated _ => "3"
      | string_t => "3"
      end
  end.

Definition math_processed (expression : string) : string :=
  Js.replace Js.re_stat_value math_sample expression.

Definition evaluateMathExpression (expression : string) : string :=
  match evaluate (math_processed expression) with
  | Some result => result
  | None => "[Erro: " ++ expression ++ "]"
  end.

Definition dice_processed (expression : string) : string :=
  Js.replace Js.re_stat_value dice_sample expression.

Definition evaluateDiceExpression (expression : string) : string :=
  match DiceRoll (dice_processed expression) with
  | Rolled output => "🎲 " ++ output
  | RollError msg => "[Erro dados: " ++ msg ++ "]"
  | RollThrown => "[Erro dados: " ++ expression ++ "]"
  end.

(** The processed text ([processedValue]): the four passes over the
    value.  What the component renders from it is [SmartPreview_body],
    defined with the editors below. *)
Definition resolve_variables (value : string) : string :=
  Js.replace Js.re_variable
    (fun '(type, id, property) => resolveVariableValue type id property) value.

Definition resolve_math (value : string) : string :=
  Js.replace Js.re_math evaluateMathExpression value.

Definition resolve_dice (value : string) : string :=
  Js.replace Js.re_dice evaluateDiceExpression value.

Definition markdown_breaks (value : string) : string :=
  Js.replace Js.re_newline (fun _ => String " " (String " " (String Js.newline EmptyString))) value.

Definition processedValue (value : string) : string :=
  markdown_breaks (resolve_dice (resolve_math (resolve_variables value))).
End SmartPreview.

(* ================================================================== *)
(** * Replacement editor *)
(* ================================================================== *)

(** [usedStatIds.add(statId)] on a [Set], kept in insertion order. *)
Definition set_add (usedStatIds : list Z) (digits : string) : list Z :=
  push_new usedStatIds digits.

(** The [while] loop over the matches of [/<stat:(\d+):value>/g] in one
    text. *)
Definition add_used (usedStatIds : list Z) (text : string) : list Z :=
  fold_left set_add (Js.exec_all Js.re_stat_value text) usedStatIds.

Definition used_in_dice (usedStatIds : list Z) (dice : Dice) : list Z :=
  let usedStatIds := add_used usedStatIds (expression dice) in
  match condition dice with
  | Some c => add_used (add_used usedStatIds (value1 c)) (value2 c)
  | None => usedStatIds
  end.

Definition getStatsUsedInDices (dices : list Dice) : list Z :=
  fold_left used_in_dice dices [].

(** The test both filters share: the stat is not of type string. *)
Definition replaceable_type (s : Stats) : bool :=
  match stat_type s with
  | numeric _ _ => true
  | boolean => true
  | enum _ => true
  | calculated _ => true
  | string_t => false
  end.

Definition validKeyStats (stats_ : list Stats) (dices : list Dice) : list Stats :=
  let usedStatIds := getStatsUsedInDices dices in
  List.filter (fun stat => includes usedStatIds (stat_id stat) && replaceable_type stat)
    stats_.

Definition validOptionStats (stats_ : list Stats) : list Stats :=
  List.filter replaceable_type stats_.

(* ================================================================== *)
(** * Formula editor of a calculated stat *)
(* ================================================================== *)

Inductive Toast :=
| toast_error (text : string)
| toast_success (text : string).

(** [{ ...value, formula }]. *)
Definition with_formula (value : Stats) (formula : string) : Stats :=
  {| stat_id := stat_id value;
     stat_name := stat_name value;
     stat_emoji := stat_emoji value;
     stat_type := calculated formula |}.

(** What a handler does: the value it passes to [onChange], if it calls
    it, and the toast it shows, if any. *)
Record Effect := {
  changed : option Stats;
  toasted : option Toast
}.

Definition patch_formula (value : Stats) (formula : string) : option Stats :=
  Some (with_formula value formula).

(** [confirmFormula], the handler of the modal editor. *)
Definition confirmFormula (value : Stats) (allStats : list Stats)
    (formula : string) : Effect :=
  if hasCircularDependency (stat_id value) formula allStats then
    {| changed := None;
       toasted := Some (toast_error "Esta fórmula criaria uma dependência circular!") |}
  else
    {| changed := patch_formula value formula;
       toasted := Some (toast_success "Fórmula atualizada!") |}.

(** The [onChange] handler of the formula text input. *)
Definition formula_input_onChange (value : Stats) (text : string) : Effect :=
  {| changed := patch_formula value text; toasted := None |}.

(** [updateStat(index, v)]: [copy.stats[index] = v]. *)
Definition updateStat (allStats : list Stats) (index : nat) (v : Stats) : list Stats :=
  <[index := v]> allStats.

(** The schema after a handler ran on the stat at [index]. *)
Definition commit (allStats : list Stats) (index : nat) (e : Effect) : list Stats :=
  match changed e with
  | Some v => updateStat allStats index v
  | None => allStats
  end.

(* ================================================================== *)
(** * Specification-side notions *)
(* ================================================================== *)

(** Each element once, at the place of its first occurrence. *)
Fixpoint first_occurrences (l : list Z) : list Z :=
  match l with
  | [] => []
  | x :: t => x :: List.filter (fun y => negb (y =? x)) (first_occurrences t)
  end.

Fixpoint all_digits (s : string) : bool :=
  match s with
  | EmptyString => true
  | String c s' => Js.is_digit c && all_digits s'
  end.

Fixpoint has_char (c : ascii) (s : string) : bool :=
  match s with
  | EmptyString => false
  | String b s' => Ascii.eqb b c || has_char c s'
  end.

(** The text of a [<stat:ID:value>] token. *)
Definition stat_value_token (digits : string) : string :=
  "<stat:" ++ digits ++ ":value>".
Arguments stat_value_token : simpl never.

(** [formula] contains a [<stat:ID:value>] token whose id reads [i]. *)
Definition mentions (formula : string) (i : Z) : Prop :=
  exists pre digits post,
    formula = pre ++ stat_value_token digits ++ post
    /\ digits <> EmptyString /\ all_digits digits = true
    /\ Js.parseInt digits = i.

Fixpoint drop_str (n : nat) (s : string) : string :=
  match n, s with
  | O, _ => s
  | S k, EmptyString => EmptyString
  | S k, String _ s' => drop_str k s'
  end.

(** ** The reference graph *)

Section ReferenceGraph.
Variable target : Z.
Variable formula : string.
Variable allStats : list Stats.

(** The formula stored for an id: that of the first stat carrying the
    id, when it is a calculated stat. *)
Definition stored_formula (n : Z) : option string :=
  match find_stat allStats n with
  | Some s => match stat_type s with calculated f => Some f | _ => None end
  | None => None
  end.

(** The graph as the specification words it: the references of the
    stored formulas, and in addition the references of the proposed
    formula out of [target]. *)
Definition refers_ext (a b : Z) : Prop :=
  (exists f, stored_formula a = Some f /\ In b (findStatDependencies f))
  \/ (a = target /\ In b (findStatDependencies formula)).

(** The formula the traversal reads at a node: the proposed one at
    [target], the stored one elsewhere. *)
Definition formula_at (n : Z) : option string :=
  if n =? target then Some formula else stored_formula n.

(** The graph with the proposed formula substituted at [target]. *)
Definition refers (a b : Z) : Prop :=
  exists f, formula_at a = Some f /\ In b (findStatDependencies f).

(** Some cycle can be reached from [target]. *)
Definition reaches_cycle : Prop :=
  exists v, rtc refers target v /\ tc refers v v.

(** A walk from [n] that runs into [target], into a node of [P], or into
    a node it already left. *)
Inductive closes (P : gset Z) : Z -> Prop :=
| closes_here n d :
    refers n d -> d = target \/ d ∈ P \/ d = n -> closes P n
| closes_later n d :
    refers n d -> closes (P ∪ {[n]}) d -> closes P n.

(** The ids a traversal can put on the path. *)
Definition universe : gset Z :=
  {[target]} ∪ list_to_set (map stat_id allStats).

(** The first stat carrying the id [d] is calculated with formula [f]. *)
Definition calculated_at (d : Z) (f : string) : Prop :=
  stored_formula d = Some f.

(** Every member of the path set other than the target is a calculated
    stat. *)
Definition on_path_set (P : gset Z) : Prop :=
  forall p, p ∈ P -> p = target \/ exists f, calculated_at p f.
End ReferenceGraph.

(** ** Reading the validator's report *)

(** The entry reports a duplicate stat id [k]. *)
Definition is_duplicate_of (k : Z) (e : ValidationError) : bool :=
  match e with
  | StatDuplicateId _ id => id =? k
  | _ => false
  end.

Definition duplicate_errors (k : Z) (errs : list ValidationError)
  : list ValidationError :=
  List.filter (is_duplicate_of k) errs.

(** The positions in [stats] an entry names. *)
Definition stat_indices (e : ValidationError) : list nat :=
  match e with
  | StatDuplicateId idx _ | StatNameRequired idx | StatMinGtMax idx
  | StatTooManyOptions idx _ | OptionDuplicateValue idx _ _
  | OptionNameRequired idx _ | FormulaRequired idx | FormulaCircular idx
  | FormulaMissingStat idx _ | FormulaStringStat idx _ => [idx]
  | _ => []
  end.

(** The duplicate entries a pass over [l] adds for id [k], when [seen]
    tells whether [k] was met before position [idx]. *)
Fixpoint expected_duplicates (k : Z) (seen : bool) (idx : nat) (l : list Stats)
  : list ValidationError :=
  match l with
  | [] => []
  | s :: rest =>
      if stat_id s =? k then
        ((if seen then [StatDuplicateId idx k] else [])
         ++ expected_duplicates k true (S idx) rest)%list
      else expected_duplicates k seen (S idx) rest
  end.

(** ** Stats a dice list uses *)

(** The expression of the dice, or one side of its condition, contains a
    [<stat:ID:value>] token for [i]. *)
Definition dice_mentions (dice : Dice) (i : Z) : Prop :=
  mentions (expression dice) i
  \/ exists c, condition dice = Some c
               /\ (mentions (value1 c) i \/ mentions (value2 c) i).

Definition used_in_dices (dices : list Dice) (i : Z) : Prop :=
  exists dice, In dice dices /\ dice_mentions dice i.

(** The type is one of numeric, boolean, enum, calculated. *)
Definition non_string_type (s : Stats) : Prop :=
  match stat_type s with
  | string_t => False
  | _ => True
  end.

(** ** Tokens of the preview text *)

(** The text of a [<stat:ID:property>] or [<section:ID:property>]
    token. *)
Definition variable_token (kind digits property : string) : string :=
  "<" ++ kind ++ ":" ++ digits ++ ":" ++ property ++ ">".

Definition token_kind (kind : string) : Prop :=
  kind = "stat" \/ kind = "section".

Definition token_property (property : string) : Prop :=
  property = "name" \/ property = "value" \/ property = "emoji".

(** A well-formed id: a non-empty run of digits. *)
Definition token_id (digits : string) : Prop :=
  digits <> EmptyString /\ all_digits digits = true.

(** A match of the pattern consumes a non-empty prefix that starts with
    [<]. *)
Definition consumes_token {A : Type} (p : Js.pattern A) : Prop :=
  forall s a rest, p s = Some (a, rest) ->
    exists m, s = String Js.lt_char m ++ rest.

(** A match of the pattern holds [<] as its first character only. *)
Definition tight_token {A : Type} (p : Js.pattern A) : Prop :=
  forall s a rest, p s = Some (a, rest) ->
    exists m, s = String Js.lt_char m ++ rest /\ has_char Js.lt_char m = false.

(* ================================================================== *)
(** * Editing the schema *)
(* ================================================================== *)

(** ** Arithmetic on numbers *)

(** The distance between neighbouring doubles around the integer [n]:
    1 below 2^53 in magnitude, then doubling with every binade. *)
Definition double_ulp (n : Z) : Z :=
  2 ^ Z.max 0 (Z.log2 (Z.abs n) - 52).

(** The double an integer result becomes: the nearest multiple of
    [double_ulp], a tie going to the even significand. *)
Definition round_double (n : Z) : Z :=
  let u := double_ulp n in
  let q := n / u in
  let r := n mod u in
  if 2 * r <? u then q * u
  else if u <? 2 * r then (q + 1) * u
  else if Z.even q then q * u else (q + 1) * u.

(** The ids and values for which printing and adding 1 are exact. *)
Definition safe_id (n : Z) : Prop := 0 <= n < 2 ^ 53.

(** [Math.max(m, x.id)] inside the reduction: [None] stands for [NaN],
    which an entry without an id produces and every later step keeps. *)
Definition max_id (m : option Z) (id : option Z) : option Z :=
  match m, id with
  | Some m, Some i => Some (Z.max m i)
  | _, _ => None
  end.

(** [nextId]: [(list.reduce((m, x) => Math.max(m, x.id), 0) || 0) + 1],
    the sum being a double; [id_of] is [None] on an entry without an
    id. *)
Definition nextId {A : Type} (id_of : A -> option Z) (list : list A) : Z :=
  match fold_left (fun m x => max_id m (id_of x)) list (Some 0) with
  | Some m => round_double (m + 1)
  | None => round_double (0 + 1)
  end.

(** The id of a stat and of a section, as [nextId] reads it. *)
Definition id_of_stat (s : Stats) : option Z := Some (stat_id s).
Definition id_of_section (s : Section_) : option Z := Some (sec_id s).

(** The argument of [addStat]. *)
Inductive StatKind :=
| kind_numeric
| kind_enum
| kind_boolean
| kind_string
| kind_calculated.

(** The stat [addStat] builds (the length bounds of a string stat are not
    part of [Stats]). *)
Definition new_stat (kind : StatKind) (id : Z) : Stats :=
  {| stat_id := id;
     stat_name := Some {[ "default" := "Novo Stat" ]};
     stat_emoji := None;
     stat_type :=
       match kind with
       | kind_numeric => numeric (Some 0) (Some 10)
       | kind_enum => enum (OptionList [])
       | kind_boolean => boolean
       | kind_string => string_t
       | kind_calculated => calculated EmptyString
       end |}.

(** [addStat]: [stats: [...system.stats, stat]]. *)
Definition addStat (stats_ : list Stats) (kind : StatKind) : list Stats :=
  (stats_ ++ [new_stat kind (nextId id_of_stat stats_)])%list.

(** [addSection]. *)
Definition addSection (sections_ : list Section_) : list Section_ :=
  (sections_ ++ [ {| sec_id := nextId id_of_section sections_;
                     sec_name := Some {[ "default" := "Nova Seção" ]};
                     sec_emoji := None;
                     sec_preview_type := Some "string" |} ])%list.

(** [removeStat]: [copy.stats.splice(index, 1)]. *)
Definition removeStat (stats_ : list Stats) (index : nat) : list Stats :=
  (take index stats_ ++ drop (S index) stats_)%list.

(** The name of a copy:
    [{...name, default: `${name?.default || 'Stat'} (Cópia)`}]. *)
Definition copy_name (name : option Localization) : option Localization :=
  let label := or_str (loc_get name "default") "Stat" ++ " (Cópia)" in
  match name with
  | Some m => Some (<[ "default" := label ]> m)
  | None => Some {[ "default" := label ]}
  end.

(** [duplicateStat]: the copy goes right after the original.  Reading the
    name of a stat that is not there throws. *)
Definition duplicateStat (stats_ : list Stats) (index : nat)
  : Completion (list Stats) :=
  match stats_ !! index with
  | None => Throws_TypeError
  | Some originalStat =>
      let duplicatedStat :=
        {| stat_id := nextId id_of_stat stats_;
           stat_name := copy_name (stat_name originalStat);
           stat_emoji := stat_emoji originalStat;
           stat_type := stat_type originalStat |} in
      Returns (take (S index) stats_ ++ duplicatedStat :: drop (S index) stats_)%list
  end.

(** The direction argument of [moveStat]: [-1] or [1]. *)
Inductive Direction :=
| up
| down.

(** [moveStat] (and [moveSection]): nothing happens when the neighbour is
    outside the array; otherwise the two entries are exchanged.  [None]
    stands for the array with a hole the source builds when [index]
    itself is outside the array. *)
Definition moveStat {A : Type} (l : list A) (index : nat) (dir : Direction)
  : option (list A) :=
  match dir, index with
  | up, O => Some l
  | _, _ =>
      let j := match dir with up => Nat.pred index | down => S index end in
      if (length l <=? j)%nat then Some l
      else
        match l !! index, l !! j with
        | Some a, Some b => Some (<[ j := a ]> (<[ index := b ]> l))
        | _, _ => None
        end
  end.

(** ** The dice editor's moves *)

(** [moveUp] of the dice editor: the entry and its predecessor are
    exchanged by a destructuring assignment.  [None] stands for the array
    with an undefined entry the source builds when [index] is outside the
    array. *)
Definition moveUp {A : Type} (dices : list A) (index : nat) : option (list A) :=
  if (0 <? index)%nat then
    match dices !! index, dices !! Nat.pred index with
    | Some a, Some b => Some (<[ index := b ]> (<[ Nat.pred index := a ]> dices))
    | _, _ => None
    end
  else Some dices.

(** [moveDown]: guarded by [index < dices.length - 1]. *)
Definition moveDown {A : Type} (dices : list A) (index : nat) : option (list A) :=
  if (S index <? length dices)%nat then
    match dices !! index, dices !! S index with
    | Some a, Some b => Some (<[ S index := a ]> (<[ index := b ]> dices))
    | _, _ => None
    end
  else Some dices.

(** ** What the preview renders *)

(** Progress through the UTF-8 bytes of one white space character. *)
Inductive WsState :=
| ws_start
| ws_C2
| ws_E1
| ws_E1_9A
| ws_E2
| ws_E2_80
| ws_E2_81
| ws_E3
| ws_E3_80
| ws_EF
| ws_EF_BB.

(** One more byte of white space as [String.prototype.trim] understands
    it: TAB, LF, VT, FF, CR, SP, U+00A0, U+1680, U+2000 to U+200A, U+2028,
    U+2029, U+202F, U+205F, U+3000 and U+FEFF. *)
Definition ws_step (st : WsState) (c : ascii) : option WsState :=
  let n := nat_of_ascii c in
  match st with
  | ws_start =>
      if ((9 <=? n) && (n <=? 13) || (n =? 32))%nat then Some ws_start
      else if (n =? 194)%nat then Some ws_C2
      else if (n =? 225)%nat then Some ws_E1
      else if (n =? 226)%nat then Some ws_E2
      else if (n =? 227)%nat then Some ws_E3
      else if (n =? 239)%nat then Some ws_EF
      else None
  | ws_C2 => if (n =? 160)%nat then Some ws_start else None
  | ws_E1 => if (n =? 154)%nat then Some ws_E1_9A else None
  | ws_E1_9A => if (n =? 128)%nat then Some ws_start else None
  | ws_E2 =>
      if (n =? 128)%nat then Some ws_E2_80
      else if (n =? 129)%nat then Some ws_E2_81
      else None
  | ws_E2_80 =>
      if ((128 <=? n) && (n <=? 138) || (n =? 168) || (n =? 169) || (n =? 175))%nat
      then Some ws_start else None
  | ws_E2_81 => if (n =? 159)%nat then Some ws_start else None
  | ws_E3 => if (n =? 128)%nat then Some ws_E3_80 else None
  | ws_E3_80 => if (n =? 128)%nat then Some ws_start else None
  | ws_EF => if (n =? 187)%nat then Some ws_EF_BB else None
  | ws_EF_BB => if (n =? 191)%nat then Some ws_start else None
  end.

Fixpoint blank_from (st : WsState) (s : string) : bool :=
  match s with
  | EmptyString => match st with ws_start => true | _ => false end
  | String c s' =>
      match ws_step st c with
      | Some st' => blank_from st' s'
      | None => false
      end
  end.

(** [!s.trim()]: the text holds nothing but white space. *)
Definition is_blank (s : string) : bool := blank_from ws_start s.

(** What [SmartPreview] puts on the page. *)
Inductive Rendering :=
| Placeholder
| Markdown (text : string).

(** The body [SmartPreview] returns: the processed text goes to the
    markdown renderer unless [processedValue?.trim()] is empty, in which
    case the placeholder is shown. *)
Definition SmartPreview (evaluate : string -> option string)
    (DiceRoll : string -> RollOutcome) (sections_ : list Section_)
    (stats_ : list Stats) (locale value : string) : Rendering :=
  let processed := processedValue evaluate DiceRoll sections_ stats_ locale value in
  if is_blank processed then Placeholder else Markdown processed.

(** ** Deleting a pill of the markdown editor *)



(** ** The formula editor's list of usable stats *)

(** [`${value.formula}`]. *)
Definition formula_text (value : Stats) : string :=
  match stat_type value with
  | calculated f => f
  | _ => "undefined"
  end.

(** [`${value.formula} + <stat:${stat.id}:value>`]. *)
Definition testFormula (value stat : Stats) : string :=
  formula_text value ++ " + <stat:" ++ Js.String_of_Z (stat_id stat) ++ ":value>".

Definition getAvailableStats (value : Stats) (allStats : list Stats) : list Stats :=
  List.filter
    (fun stat =>
       if stat_id stat =? stat_id value then false
       else if is_string stat then false
       else
         match stat_type stat with
         | calculated _ =>
             negb (hasCircularDependency (stat_id value) (testFormula value stat)
                     allStats)
         | _ => true
         end)
    allStats.

(** ** The expression editor *)

(** The bytes of the UTF-8 character a lead byte opens and the UTF-16
    code units the character takes in a string of the source; [None] on a
    byte that opens no character. *)
Definition utf8_lead (c : ascii) : option (nat * nat) :=
  let n := nat_of_ascii c in
  if (n <? 128)%nat then Some (1, 1)%nat
  else if (n <? 192)%nat then None
  else if (n <? 224)%nat then Some (2, 1)%nat
  else if (n <? 240)%nat then Some (3, 1)%nat
  else if (n <? 248)%nat then Some (4, 2)%nat
  else None.

(** The cut of a text at an offset counted in UTF-16 code units, as
    [s.slice(0, n)] and [s.slice(n)] count it: the text before and the
    text after.  [pending] bytes still belong to the character being
    taken.  An offset past the end takes the whole text.  [None] when the
    offset falls between the two code units of one character (the source
    then leaves two lone surrogates, which no UTF-8 text holds) or when
    the bytes are not UTF-8. *)
Fixpoint cut_at (units pending : nat) (s : string) : option (string * string) :=
  match s with
  | EmptyString =>
      match pending with
      | O => Some (EmptyString, EmptyString)
      | S _ => None
      end
  | String c s' =>
      match pending with
      | S k =>
          match cut_at units k s' with
          | Some (before, after) => Some (String c before, after)
          | None => None
          end
      | O =>
          match units with
          | O => Some (EmptyString, s)
          | S _ =>
              match utf8_lead c with
              | Some (bytes, taken) =>
                  if (taken <=? units)%nat then
                    match cut_at (units - taken) (Nat.pred bytes) s' with
                    | Some (before, after) => Some (String c before, after)
                    | None => None
                    end
                  else None
              | None => None
              end
          end
      end
  end.



(** ** The replacement editor's handlers *)

Record Replacement := {
  rep_key : Z;
  rep_options : list Z
}.

(** [add]: [None] when the handler returns without calling [onChange]. *)
Definition replacement_add (replacements : list Replacement)
    (stats_ : list Stats) (dices : list Dice) : option (list Replacement) :=
  match validKeyStats stats_ dices with
  | [] => None
  | first :: _ =>
      Some (replacements
            ++ [ {| rep_key := stat_id first; rep_options := [stat_id first] |} ])%list
  end.

(** [set(i, patch)] with a patch of the options. *)
Definition replacement_set_options (replacements : list Replacement)
    (i : nat) (newOptions : list Z) : list Replacement :=
  imap (fun idx r =>
          if (idx =? i)%nat
          then {| rep_key := rep_key r; rep_options := newOptions |}
          else r)
    replacements.

(** [toggleOption]: reading the options of a replacement that is not
    there throws. *)
Definition toggleOption (replacements : list Replacement)
    (replacementIndex : nat) (statId : Z) : Completion (list Replacement) :=
  match replacements !! replacementIndex with
  | None => Throws_TypeError
  | Some replacement =>
      let currentOptions := rep_options replacement in
      if includes currentOptions statId then
        Returns (replacement_set_options replacements replacementIndex
                   (List.filter (fun id => negb (id =? statId)) currentOptions))
      else
        Returns (replacement_set_options replacements replacementIndex
                   (currentOptions ++ [statId])%list)
  end.

(** ** The enum editor *)

(** [opts]: the inline options, or none when the stat refers to another
    enum. *)
Definition inline_options (options : EnumOptions) : list StatsEnumOption :=
  match options with
  | OptionList l => l
  | OptionRef _ => []
  end.

(** [addOption]: [None] when the limit of 25 is reached and the handler
    only shows a toast.  The new value is the double
    [(opts.at(-1)?.value ?? 0) + 1]. *)
Definition addOption (options : EnumOptions) : option EnumOptions :=
  let opts := inline_options options in
  if (25 <=? length opts)%nat then None
  else
    let lastValue := match last opts with Some o => opt_value o | None => 0 end in
    Some (OptionList
            (opts ++ [ {| opt_value := round_double (lastValue + 1);
                          opt_name := Some {[ "default" := EmptyString ]};
                          opt_emoji := None |} ])%list).

(** [opts.findIndex((o, i) => i !== index && o.value === v) !== -1]. *)
Definition has_other_with_value (opts : list StatsEnumOption) (index : nat)
    (v : Z) : bool :=
  existsb (fun '(i, o) => negb (i =? index)%nat && (opt_value o =? v))
    (imap (fun i o => (i, o)) opts).

(** [duplicateValues]: the values the editor marks as duplicated, in the
    order the reduction meets them. *)
Definition duplicateValues (opts : list StatsEnumOption) : list Z :=
  fold_left
    (fun acc '(index, option) =>
       if has_other_with_value opts index (opt_value option)
       then (if includes acc (opt_value option) then acc
             else (acc ++ [opt_value option])%list)
       else acc)
    (imap (fun i o => (i, o)) opts) [].

(** ** Locales of a localized text *)

Definition includes_str (l : list string) (x : string) : bool :=
  existsb (String.eqb x) l.

(** [new Set(items)] followed by [Array.from]: insertion order, each item
    once. *)
Definition set_from (items : list string) : list string :=
  fold_left (fun acc x => if includes_str acc x then acc else (acc ++ [x])%list)
    items [].

(** [allLocalesFrom]; [keys] is [Object.keys(value || {})]. *)
Definition allLocalesFrom (keys : list string) (base : list string) : list string :=
  set_from ("default" :: base
            ++ List.filter (fun k => negb (String.eqb k "default")) keys)%list.

(* ================================================================== *)
(** * The report, entry by entry *)
(* ================================================================== *)

(** A loop that keeps the set of keys met so far: at each element it
    reports the key when it was met before, then the element's own
    entries. *)
Fixpoint seen_entries {A : Type} (key : A -> Z)
    (dup : nat -> A -> ValidationError)
    (own : nat -> A -> list ValidationError)
    (seen : gset Z) (idx : nat) (l : list A) : list ValidationError :=
  match l with
  | [] => []
  | x :: rest =>
      ((if bool_decide (key x ∈ seen) then [dup idx x] else [])
       ++ own idx x
       ++ seen_entries key dup own (seen ∪ {[key x]}) (S idx) rest)%list
  end.

(** The entries of one stat apart from the duplicate-id entry. *)
Definition stat_own_entries (allStats : list Stats) (idx : nat) (s : Stats)
  : list ValidationError :=
  check_variant allStats idx s
    (push_if (negb (truthy (loc_get (stat_name s) "default")))
       (StatNameRequired idx) []).

(** The entries of one option apart from the duplicate-value entry. *)
Definition option_own_entries (idx j : nat) (o : StatsEnumOption)
  : list ValidationError :=
  push_if (negb (truthy (loc_get (opt_name o) "default")))
    (OptionNameRequired idx j) [].

(** The entries of one section apart from the duplicate-id entry. *)
Definition section_own_entries (i : nat) (sec : Section_)
  : list ValidationError :=
  push_if (negb (truthy (sec_preview_type sec))) (SectionPreviewTypeRequired i)
    (push_if (negb (truthy (loc_get (sec_name sec) "default")))
       (SectionNameRequired i) []).

(** The whole report, in the order of the checks. *)
Definition report (system : RPGSystem) (allStats : list Stats)
    (secs : list Section_) : list ValidationError :=
  (check_toplevel system
   ++ seen_entries stat_id (fun idx s => StatDuplicateId idx (stat_id s))
        (stat_own_entries allStats) ∅ 0 allStats
   ++ seen_entries sec_id (fun i sec => SectionDuplicateId i (sec_id sec))
        section_own_entries ∅ 0 secs)%list.

(** ** A well-formed schema, as the validator sees it *)

Definition has_default_name (name : option Localization) : Prop :=
  truthy (loc_get name "default") = true.

Definition option_ok (o : StatsEnumOption) : Prop :=
  has_default_name (opt_name o).

Definition variant_ok (allStats : list Stats) (s : Stats) : Prop :=
  match stat_type s with
  | numeric (Some lo) (Some hi) => lo <= hi
  | numeric _ _ => True
  | enum (OptionList l) =>
      (length l <= 25)%nat /\ List.NoDup (map opt_value l) /\ Forall option_ok l
  | enum (OptionRef _) => True
  | boolean => True
  | string_t => True
  | calculated f =>
      f <> EmptyString
      /\ ~ reaches_cycle (stat_id s) f allStats
      /\ forall d, mentions f d ->
           exists dep, find_stat allStats d = Some dep /\ stat_type dep <> string_t
  end.

Definition stat_ok (allStats : list Stats) (s : Stats) : Prop :=
  has_default_name (stat_name s) /\ variant_ok allStats s.

Definition section_ok (sec : Section_) : Prop :=
  has_default_name (sec_name sec) /\ truthy (sec_preview_type sec) = true.

Definition config_ok (c : option Config) : Prop :=
  exists cfg i, c = Some cfg /\ cfg_id cfg = Some i
                /\ has_default_name (cfg_name cfg).

Definition well_formed (system : RPGSystem) : Prop :=
  exists allStats secs,
    stats system = IsArray allStats /\ sections system = IsArray secs
    /\ config_ok (config system)
    /\ List.NoDup (map stat_id allStats) /\ Forall (stat_ok allStats) allStats
    /\ List.NoDup (map sec_id secs) /\ Forall section_ok secs.

(** ** When an entry is reported *)

(** The entries a stat at position [i] earns by its own content. *)
Inductive stat_entry (allStats : list Stats) (i : nat) (s : Stats)
  : ValidationError -> Prop :=
| entry_name :
    ~ has_default_name (stat_name s) ->
    stat_entry allStats i s (StatNameRequired i)
| entry_range lo hi :
    stat_type s = numeric (Some lo) (Some hi) -> hi < lo ->
    stat_entry allStats i s (StatMinGtMax i)
| entry_limit l :
    stat_type s = enum (OptionList l) -> (25 < length l)%nat ->
    stat_entry allStats i s (StatTooManyOptions i (length l))
| entry_option_value l j o :
    stat_type s = enum (OptionList l) -> l !! j = Some o ->
    In (opt_value o) (map opt_value (take j l)) ->
    stat_entry allStats i s (OptionDuplicateValue i j (opt_value o))
| entry_option_name l j o :
    stat_type s = enum (OptionList l) -> l !! j = Some o -> ~ option_ok o ->
    stat_entry allStats i s (OptionNameRequired i j)
| entry_formula_required :
    stat_type s = calculated EmptyString ->
    stat_entry allStats i s (FormulaRequired i)
| entry_circular f :
    stat_type s = calculated f -> f <> EmptyString ->
    reaches_cycle (stat_id s) f allStats ->
    stat_entry allStats i s (FormulaCircular i)
| entry_missing f d :
    stat_type s = calculated f -> mentions f d -> find_stat allStats d = None ->
    stat_entry allStats i s (FormulaMissingStat i d)
| entry_string f d dep :
    stat_type s = calculated f -> mentions f d ->
    find_stat allStats d = Some dep -> stat_type dep = string_t ->
    stat_entry allStats i s (FormulaStringStat i d).

(** The entries of the report of a schema whose two fields are arrays. *)
Inductive reported (cfg : option Config) (allStats : list Stats)
    (secs : list Section_) : ValidationError -> Prop :=
| reported_config_id :
    (forall c, cfg = Some c -> cfg_id c = None) ->
    reported cfg allStats secs ConfigIdRequired
| reported_config_name :
    (forall c, cfg = Some c -> ~ has_default_name (cfg_name c)) ->
    reported cfg allStats secs ConfigNameRequired
| reported_stat_id i s :
    allStats !! i = Some s -> In (stat_id s) (map stat_id (take i allStats)) ->
    reported cfg allStats secs (StatDuplicateId i (stat_id s))
| reported_stat i s e :
    allStats !! i = Some s -> stat_entry allStats i s e ->
    reported cfg allStats secs e
| reported_section_id i sec :
    secs !! i = Some sec -> In (sec_id sec) (map sec_id (take i secs)) ->
    reported cfg allStats secs (SectionDuplicateId i (sec_id sec))
| reported_section_name i sec :
    secs !! i = Some sec -> ~ has_default_name (sec_name sec) ->
    reported cfg allStats secs (SectionNameRequired i)
| reported_section_preview i sec :
    secs !! i = Some sec -> truthy (sec_preview_type sec) = false ->
    reported cfg allStats secs (SectionPreviewTypeRequired i).

(** ** Dependencies through stored formulas *)

(** The stat [a] is calculated and its stored formula mentions [b]. *)
Definition depends_on (allStats : list Stats) (a b : Z) : Prop :=
  exists f, stored_formula allStats a = Some f /\ mentions f b.

(* ================================================================== *)
(** * Sample schemas *)
(* ================================================================== *)

Definition calc (i : Z) (f : string) : Stats :=
  {| stat_id := i; stat_name := None; stat_emoji := None;
     stat_type := calculated f |}.

(** A schema in which stat 1 leads into the loop between stats 2 and 3 and
    nothing refers to stat 1. *)
Definition loop_below : list Stats :=
  [calc 1 "<stat:2:value>"; calc 2 "<stat:3:value>"; calc 3 "<stat:2:value>"].

Definition plain (i : Z) (n : string) : Stats :=
  {| stat_id := i; stat_name := Some {[ "default" := n ]}; stat_emoji := None;
     stat_type := boolean |}.

Definition sound_config : option Config :=
  Some {| cfg_id := Some 1; cfg_name := Some {[ "default" := "Meu Sistema" ]} |}.

(** Two stats sharing the id 4, at positions 0 and 1. *)
Definition two_fours : RPGSystem :=
  {| config := sound_config;
     stats := IsArray [plain 4 "Força"; plain 4 "Destreza"];
     sections := IsArray [] |}.

Definition numeric_stat (i : Z) (lo hi : option Z) : Stats :=
  {| stat_id := i; stat_name := Some {[ "default" := "Força" ]};
     stat_emoji := None; stat_type := numeric lo hi |}.

Definition text_stat (i : Z) : Stats :=
  {| stat_id := i; stat_name := Some {[ "default" := "Nome" ]};
     stat_emoji := None; stat_type := string_t |}.

Definition attack_dices : list Dice :=
  [ {| expression := "1d20 + <stat:1:value>";
       condition := Some {| value1 := "<stat:2:value>"; operator := ">=";
                            value2 := "<stat:3:value>" |} |};
    {| expression := "1d20"; condition := None |} ].

(* ================================================================== *)
(** * Facts about strings and scanning *)
(* ================================================================== *)

Lemma app_assoc_str (a b c : string) : (a ++ b) ++ c = a ++ (b ++ c).
Proof. induction a as [|x a IH]; simpl; [reflexivity | now rewrite IH]. Qed.

Lemma app_nil_r_str (a : string) : a ++ EmptyString = a.
Proof. induction a as [|x a IH]; simpl; [reflexivity | now rewrite IH]. Qed.

Lemma length_app_str (a b : string) :
  String.length (a ++ b) = (String.length a + String.length b)%nat.
Proof. induction a as [|x a IH]; simpl; [reflexivity | now rewrite IH]. Qed.

Lemma drop_str_app (a b : string) : drop_str (String.length a) (a ++ b) = b.
Proof. induction a as [|x a IH]; simpl; [now destruct b | exact IH]. Qed.

Lemma has_char_app c (a b : string) :
  has_char c (a ++ b) = has_char c a || has_char c b.
Proof.
  induction a as [|x a IH]; simpl; [reflexivity |].
  rewrite IH. now rewrite orb_assoc.
Qed.

(** Two ways of cutting one string: one of the first halves is a prefix of
    the other. *)
Lemma app_eq_app_str (a b c d : string) :
  a ++ b = c ++ d ->
  (exists k, a = c ++ k /\ d = k ++ b) \/ (exists k, c = a ++ k /\ b = k ++ d).
Proof.
  revert c. induction a as [|x a IH]; intros c H; simpl in H.
  - right. exists c. split; [reflexivity | exact H].
  - destruct c as [|y c]; simpl in H.
    + left. exists (String x a). split; [reflexivity | now rewrite <- H].
    + injection H as -> H. destruct (IH _ H) as [[k [-> ->]] | [k [-> ->]]].
      * left. exists k. split; reflexivity.
      * right. exists k. split; reflexivity.
Qed.

Lemma lit_spec (p s r : string) : Js.lit p s = Some r <-> s = p ++ r.
Proof.
  revert s. induction p as [|a p IH]; intros s; simpl.
  - split; [now intros [= ->] | now intros ->].
  - destruct s as [|b s].
    + split; intros H; discriminate H.
    + destruct (Ascii.eqb_spec a b) as [-> | Hne].
      * rewrite IH. split; [now intros -> | now intros [= ->]].
      * split; [intros H; discriminate H | intros [= E _]; now elim Hne].
Qed.

Lemma lit_app (p r : string) : Js.lit p (p ++ r) = Some r.
Proof. now apply lit_spec. Qed.

Lemma is_digit_not_lt c : Js.is_digit c = true -> Ascii.eqb c Js.lt_char = false.
Proof.
  intros H. destruct (Ascii.eqb_spec c Js.lt_char) as [-> | ]; [| reflexivity].
  discriminate H.
Qed.

Lemma all_digits_no_lt d : all_digits d = true -> has_char Js.lt_char d = false.
Proof.
  induction d as [|c d IH]; simpl; [reflexivity |].
  intros [Hc Hd]%andb_true_iff. now rewrite (is_digit_not_lt c Hc), IH.
Qed.

(** The greedy digit run splits the subject into digits and a rest that
    does not start with a digit. *)
Lemma digits_run_spec s d r :
  Js.digits_run s = (d, r) ->
  s = d ++ r /\ all_digits d = true
  /\ match r with String c _ => Js.is_digit c = false | EmptyString => True end.
Proof.
  revert d r. induction s as [|c s IH]; intros d r; simpl.
  - intros [= <- <-]. auto.
  - destruct (Js.is_digit c) eqn:Hc.
    + destruct (Js.digits_run s) as [d' r'] eqn:E. intros [= <- <-].
      destruct (IH _ _ eq_refl) as (-> & Hd & Hr). simpl. rewrite Hc, Hd. auto.
    + intros [= <- <-]. simpl. auto.
Qed.

Lemma digits_run_app d r :
  all_digits d = true ->
  match r with String c _ => Js.is_digit c = false | EmptyString => True end ->
  Js.digits_run (d ++ r) = (d, r).
Proof.
  intros Hd Hr. induction d as [|c d IH]; simpl.
  - destruct r as [|c r]; simpl; [reflexivity | now rewrite Hr].
  - simpl in Hd. apply andb_true_iff in Hd as [Hc Hd]. now rewrite Hc, (IH Hd).
Qed.

(** The pattern [<stat:(\d+):value>] matches at the head exactly when the
    subject starts with a token. *)
Lemma re_stat_value_spec s d rest :
  Js.re_stat_value s = Some (d, rest) <->
  d <> EmptyString /\ all_digits d = true /\ s = stat_value_token d ++ rest.
Proof.
  unfold Js.re_stat_value, stat_value_token. split.
  - destruct (Js.lit "<stat:" s) as [s1|] eqn:E1; [| discriminate].
    apply lit_spec in E1. unfold Js.digits1.
    destruct (Js.digits_run s1) as [d1 r1] eqn:E2.
    apply digits_run_spec in E2 as (-> & Hd & _).
    destruct d1 as [|c d1]; [discriminate |].
    destruct (Js.lit ":value>" r1) as [r2|] eqn:E3; [| discriminate].
    apply lit_spec in E3. intros [= <- <-]. subst.
    split; [discriminate |]. split; [exact Hd |].
    now rewrite !app_assoc_str.
  - intros (Hne & Hd & ->). rewrite !app_assoc_str, lit_app.
    unfold Js.digits1. rewrite digits_run_app; [| exact Hd | reflexivity].
    destruct d as [|c d]; [now elim Hne |]. now rewrite lit_app.
Qed.

Section ScanFacts.
Context {A : Type}.
Variable p : Js.pattern A.

Lemma exec_from_drop n s : Js.exec_from p n s = Js.exec_all p (drop_str n s).
Proof.
  revert n. induction s as [|c s IH]; intros [|n]; simpl; try reflexivity.
  apply IH.
Qed.

Lemma replace_from_drop f n s :
  Js.replace_from p f n s = Js.replace p f (drop_str n s).
Proof.
  revert n. induction s as [|c s IH]; intros [|n]; simpl; try reflexivity.
  apply IH.
Qed.

Lemma consumed_app m rest :
  Js.consumed (m ++ rest) rest = String.length m.
Proof. unfold Js.consumed. rewrite length_app_str. lia. Qed.

Hypothesis Hp : consumes_token p.

(** The scan, one match at a time. *)
Lemma exec_all_match s a rest :
  p s = Some (a, rest) -> Js.exec_all p s = a :: Js.exec_all p rest.
Proof.
  intros H. destruct (Hp _ _ _ H) as [m ->].
  unfold Js.exec_all at 1. simpl. simpl in H. rewrite H.
  f_equal. rewrite exec_from_drop.
  change (String Js.lt_char (m ++ rest)) with (String Js.lt_char m ++ rest).
  rewrite consumed_app. simpl. rewrite Nat.sub_0_r. now rewrite drop_str_app.
Qed.

Lemma exec_all_skip c s :
  p (String c s) = None -> Js.exec_all p (String c s) = Js.exec_all p s.
Proof. intros H. unfold Js.exec_all. simpl. now rewrite H. Qed.

Lemma replace_match f s a rest :
  p s = Some (a, rest) -> Js.replace p f s = f a ++ Js.replace p f rest.
Proof.
  intros H. destruct (Hp _ _ _ H) as [m ->].
  unfold Js.replace at 1. simpl. simpl in H. rewrite H.
  f_equal. rewrite replace_from_drop.
  change (String Js.lt_char (m ++ rest)) with (String Js.lt_char m ++ rest).
  rewrite consumed_app. simpl. rewrite Nat.sub_0_r. now rewrite drop_str_app.
Qed.

Lemma replace_skip f c s :
  p (String c s) = None ->
  Js.replace p f (String c s) = String c (Js.replace p f s).
Proof. intros H. unfold Js.replace. simpl. now rewrite H. Qed.

Lemma no_match_without_lt c s :
  Ascii.eqb c Js.lt_char = false -> p (String c s) = None.
Proof.
  intros Hc. destruct (p (String c s)) as [[a rest]|] eqn:E; [| reflexivity].
  destruct (Hp _ _ _ E) as [m Hm]. simpl in Hm. injection Hm as -> _.
  now rewrite Ascii.eqb_refl in Hc.
Qed.

(** Text without [<] is copied unchanged. *)
Lemma replace_plain_prefix f pre s :
  has_char Js.lt_char pre = false ->
  Js.replace p f (pre ++ s) = pre ++ Js.replace p f s.
Proof.
  induction pre as [|c pre IH]; simpl; [reflexivity |].
  intros [Hc Hpre]%orb_false_iff.
  rewrite replace_skip by now apply no_match_without_lt.
  now rewrite IH.
Qed.

Lemma exec_plain_prefix pre s :
  has_char Js.lt_char pre = false ->
  Js.exec_all p (pre ++ s) = Js.exec_all p s.
Proof.
  induction pre as [|c pre IH]; simpl; [reflexivity |].
  intros [Hc Hpre]%orb_false_iff.
  rewrite exec_all_skip by now apply no_match_without_lt.
  now apply IH.
Qed.
End ScanFacts.

Lemma re_stat_value_consumes : consumes_token Js.re_stat_value.
Proof.
  intros s d rest H. apply re_stat_value_spec in H as (_ & _ & ->).
  exists ("stat:" ++ d ++ ":value>"). reflexivity.
Qed.

Lemma token_tail_no_lt d c k :
  all_digits d = true ->
  stat_value_token d = String c k -> has_char Js.lt_char k = false.
Proof.
  intros Hd H. unfold stat_value_token in H. simpl in H. injection H as _ <-.
  simpl. rewrite has_char_app, (all_digits_no_lt d Hd). reflexivity.
Qed.

Lemma token_length_pos d : (0 < String.length (stat_value_token d))%nat.
Proof. unfold stat_value_token. simpl. lia. Qed.

(** Every match of the scan is a token of the subject. *)
Lemma exec_stat_value_sound n : forall s d,
  (String.length s <= n)%nat ->
  In d (Js.exec_all Js.re_stat_value s) ->
  exists pre post, s = pre ++ stat_value_token d ++ post
                   /\ d <> EmptyString /\ all_digits d = true.
Proof.
  induction n as [|n IH]; intros s d Hlen Hin.
  - destruct s; [contradiction Hin | simpl in Hlen; lia].
  - destruct s as [|c s]; [contradiction Hin |].
    destruct (Js.re_stat_value (String c s)) as [[d' rest]|] eqn:E.
    + rewrite (exec_all_match _ re_stat_value_consumes _ _ _ E) in Hin.
      pose proof E as E'. apply re_stat_value_spec in E' as (Hne & Hd & Hs).
      destruct Hin as [<- | Hin].
      * exists EmptyString, rest. auto.
      * assert (Hr : (String.length rest <= n)%nat).
        { apply (f_equal String.length) in Hs. rewrite length_app_str in Hs.
          pose proof (token_length_pos d'). simpl in Hlen, Hs. lia. }
        destruct (IH _ _ Hr Hin) as (pre & post & -> & Hne' & Hd').
        exists (stat_value_token d' ++ pre), post.
        rewrite Hs. rewrite app_assoc_str. auto.
    + rewrite (exec_all_skip _ _ _ E) in Hin. simpl in Hlen.
      destruct (IH s d ltac:(lia) Hin) as (pre & post & -> & Hne & Hd).
      exists (String c pre), post. auto.
Qed.

(** Every token of the subject is matched by the scan: a token contains no
    [<] after its first character, so no earlier match can cover its
    start. *)
Lemma exec_stat_value_complete n : forall s pre d post,
  (String.length s <= n)%nat ->
  s = pre ++ stat_value_token d ++ post ->
  d <> EmptyString -> all_digits d = true ->
  In d (Js.exec_all Js.re_stat_value s).
Proof.
  induction n as [|n IH]; intros s pre d post Hlen Hs Hne Hd.
  - apply (f_equal String.length) in Hs. rewrite !length_app_str in Hs.
    pose proof (token_length_pos d). lia.
  - destruct pre as [|c pre].
    + change (s = stat_value_token d ++ post) in Hs. subst s.
      assert (E : Js.re_stat_value (stat_value_token d ++ post) = Some (d, post))
        by now apply re_stat_value_spec.
      rewrite (exec_all_match _ re_stat_value_consumes _ _ _ E). now left.
    + change (s = String c (pre ++ stat_value_token d ++ post)) in Hs. subst s.
      change (S (String.length (pre ++ stat_value_token d ++ post)) <= S n)%nat
        in Hlen.
      destruct (Js.re_stat_value (String c (pre ++ stat_value_token d ++ post)))
        as [[d' rest]|] eqn:E.
      * rewrite (exec_all_match _ re_stat_value_consumes _ _ _ E). right.
        apply re_stat_value_spec in E as (Hne' & Hd' & Hs).
        assert (Hr : (String.length rest <= n)%nat).
        { apply (f_equal String.length) in Hs. rewrite length_app_str in Hs.
          pose proof (token_length_pos d').
          set (L := String.length (pre ++ stat_value_token d ++ post)) in *.
          change (S L = String.length (stat_value_token d') + String.length rest)%nat
            in Hs.
          lia. }
        change (String c (pre ++ stat_value_token d ++ post))
          with (String c pre ++ (stat_value_token d ++ post)) in Hs.
        apply app_eq_app_str in Hs as [[k [Hk ->]] | [k [Hk Hs]]].
        -- apply (IH _ k d post Hr eq_refl Hne Hd).
        -- destruct k as [|x k].
           ++ simpl in Hs. apply (IH _ EmptyString d post Hr); auto.
           ++ exfalso. unfold stat_value_token at 1 in Hs. simpl in Hs.
              injection Hs as <- _.
              pose proof (token_tail_no_lt d' _ _ Hd' Hk) as Hk'.
              rewrite has_char_app in Hk'. simpl in Hk'.
              rewrite orb_true_r in Hk'. discriminate Hk'.
      * rewrite (exec_all_skip _ _ _ E).
        apply (IH (pre ++ stat_value_token d ++ post) pre d post);
          [lia | reflexivity | exact Hne | exact Hd].
Qed.

(** The matches of [/<stat:(\d+):value>/g] are exactly the tokens. *)
Lemma exec_stat_value_tokens s d :
  In d (Js.exec_all Js.re_stat_value s) <->
  exists pre post, s = pre ++ stat_value_token d ++ post
                   /\ d <> EmptyString /\ all_digits d = true.
Proof.
  split.
  - apply (exec_stat_value_sound (String.length s)). lia.
  - intros (pre & post & Hs & Hne & Hd).
    now apply (exec_stat_value_complete (String.length s) s pre d post).
Qed.

(** ** The loop of [findStatDependencies] *)

Lemma includes_In l x : includes l x = true <-> In x l.
Proof.
  unfold includes. rewrite existsb_exists. split.
  - intros (y & Hy & E). apply Z.eqb_eq in E. now subst.
  - intros H. exists x. split; [exact H | apply Z.eqb_refl].
Qed.

Lemma filter_filter_comm {A} (f g : A -> bool) l :
  List.filter f (List.filter g l) = List.filter (fun x => f x && g x) l.
Proof.
  induction l as [|x l IH]; simpl; [reflexivity |].
  destruct (g x); simpl; destruct (f x); simpl; now rewrite ?IH.
Qed.

Lemma filter_ext_In' {A} (f g : A -> bool) l :
  (forall x, In x l -> f x = g x) -> List.filter f l = List.filter g l.
Proof.
  induction l as [|x l IH]; simpl; intros H; [reflexivity |].
  rewrite (H x (or_introl eq_refl)), IH; auto.
Qed.

Lemma fold_push_new ds : forall acc,
  fold_left push_new ds acc =
  (acc ++ List.filter (fun y => negb (includes acc y))
            (first_occurrences (map Js.parseInt ds)))%list.
Proof.
  induction ds as [|d ds IH]; intros acc; simpl.
  - now rewrite app_nil_r.
  - rewrite IH. unfold push_new.
    destruct (includes acc (Js.parseInt d)) eqn:E; simpl.
    + f_equal. rewrite filter_filter_comm. apply filter_ext_In'.
      intros y _. destruct (includes acc y) eqn:Ey; simpl; [reflexivity |].
      destruct (Z.eqb_spec y (Js.parseInt d)) as [-> |]; [congruence | reflexivity].
    + rewrite <- app_assoc. simpl. do 2 f_equal.
      rewrite filter_filter_comm. apply filter_ext_In'.
      intros y _. unfold includes. rewrite existsb_app. simpl.
      rewrite orb_false_r, negb_orb. fold (includes acc y).
      now rewrite andb_comm.
Qed.

Lemma first_occurrences_In l x : In x (first_occurrences l) <-> In x l.
Proof.
  induction l as [|y l IH]; simpl; [reflexivity |].
  rewrite filter_In, IH, negb_true_iff, Z.eqb_neq. split.
  - intros [-> | [H _]]; auto.
  - intros [-> | H]; [now left |].
    destruct (Z.eq_dec x y) as [-> |]; auto.
Qed.

Lemma NoDup_filter' {A} (f : A -> bool) l : List.NoDup l -> List.NoDup (List.filter f l).
Proof.
  induction 1 as [|x l Hx Hl IH]; simpl; [constructor |].
  destruct (f x); [constructor |]; auto.
  rewrite filter_In. tauto.
Qed.

Lemma first_occurrences_NoDup l : List.NoDup (first_occurrences l).
Proof.
  induction l as [|y l IH]; simpl; constructor.
  - rewrite filter_In, Z.eqb_refl. simpl. intros [_ H]. discriminate H.
  - now apply NoDup_filter'.
Qed.

Lemma filter_all {A} (l : list A) : List.filter (fun _ => true) l = l.
Proof. induction l as [|x l IH]; simpl; [reflexivity | now rewrite IH]. Qed.

Lemma findStatDependencies_eq formula :
  findStatDependencies formula =
  first_occurrences (map Js.parseInt (Js.exec_all Js.re_stat_value formula)).
Proof.
  unfold findStatDependencies. rewrite fold_push_new. simpl.
  apply filter_all.
Qed.

(** C7: [findStatDependencies] returns the ids of the [<stat:ID:value>]
    tokens of the formula, each once, in the order of their first
    occurrence; an id is returned exactly when the formula contains such a
    token for it, so no other token kind or property contributes. *)
Theorem findStatDependencies_first_occurrences formula :
  findStatDependencies formula =
    first_occurrences (map Js.parseInt (Js.exec_all Js.re_stat_value formula))
  /\ List.NoDup (findStatDependencies formula)
  /\ forall i, In i (findStatDependencies formula) <-> mentions formula i.
Proof.
  rewrite findStatDependencies_eq. split; [reflexivity |].
  split; [apply first_occurrences_NoDup |].
  intros i. rewrite first_occurrences_In, in_map_iff. unfold mentions. split.
  - intros (d & <- & Hd). apply exec_stat_value_tokens in Hd
      as (pre & post & -> & Hne & Hdig).
    exists pre, d, post. auto.
  - intros (pre & d & post & -> & Hne & Hdig & <-).
    exists d. split; [reflexivity |]. apply exec_stat_value_tokens.
    exists pre, post. auto.
Qed.

Example findStatDependencies_other_tokens :
  findStatDependencies
    "<stat:7:name> <stat:8:emoji> <section:9:name> <math:1+2> <dice:2d6> <stat:3:value> <stat:1:value> <stat:3:value>"
  = [3; 1].
Proof. reflexivity. Qed.

(* ================================================================== *)
(** * Facts about the cycle detector *)
(* ================================================================== *)

Lemma size_list_to_set_le (l : list Z) :
  (size (list_to_set l : gset Z) <= length l)%nat.
Proof.
  induction l as [|x l IH].
  - rewrite list_to_set_nil, size_empty. reflexivity.
  - rewrite list_to_set_cons, size_union_alt, size_singleton. simpl.
    assert (size (list_to_set l ∖ {[x]} : gset Z) <= size (list_to_set l : gset Z))%nat
      by (apply subseteq_size, subseteq_difference_l; reflexivity).
    lia.
Qed.

Section CycleFacts.
Variable target : Z.
Variable formula : string.
Variable allStats : list Stats.

Local Abbreviation check := (checkRecursive target allStats).
Local Abbreviation loop := (for_dependencies target allStats).
Local Abbreviation edge := (refers target formula allStats).
Local Abbreviation fat := (formula_at target formula allStats).
Local Abbreviation U := (universe target allStats).
Local Abbreviation calc_at := (calculated_at allStats).
Local Abbreviation path_set := (on_path_set target allStats).

Lemma calc_at_formula_at d f : d <> target -> calc_at d f -> fat d = Some f.
Proof.
  intros Hd H. unfold formula_at. now destruct (Z.eqb_spec d target).
Qed.

Lemma formula_at_calc d f : d <> target -> fat d = Some f -> calc_at d f.
Proof.
  unfold formula_at. now destruct (Z.eqb_spec d target).
Qed.

Lemma calc_at_universe d f : calc_at d f -> d ∈ U.
Proof.
  unfold calculated_at, stored_formula, find_stat.
  destruct (List.find _ allStats) as [s|] eqn:E; [| discriminate].
  intros _. apply find_some in E as [Hin Heq]. apply Z.eqb_eq in Heq. subst d.
  unfold universe. apply elem_of_union_r, elem_of_list_to_set.
  apply list_elem_of_In, in_map, Hin.
Qed.

(** The loop over the dependencies, read off its result.  [rec] leaves
    the set as it found it whenever it answers [false]. *)
Section Loop.
Variable rec : gset Z -> Z -> string -> option outcome.
Hypothesis rec_restores :
  forall P d f P', rec P d f = Some (false, P') -> P' = P.

Lemma loop_false P deps P' :
  loop rec P deps = Some (false, P') ->
  P' = P /\ forall d, In d deps ->
    d <> target /\ forall f, calc_at d f -> rec P d f = Some (false, P).
Proof.
  revert P'. induction deps as [|d deps IH]; intros P' H; simpl in H.
  - injection H as <-. split; [reflexivity | intros ? []].
  - destruct (Z.eqb_spec d target) as [-> | Hd]; [discriminate |].
    unfold calculated_at, stored_formula.
    destruct (find_stat allStats d) as [s|] eqn:Es.
    + destruct (stat_type s) as [| | | |f] eqn:Et;
        try (destruct (IH _ H) as [-> Hall]; split; [reflexivity |];
             intros d' [<- | Hin];
             [ split; [exact Hd |]; unfold calculated_at, stored_formula;
               rewrite Es, Et; discriminate
             | now apply Hall ]).
      destruct (rec P d f) as [[[|] v]|] eqn:Er; try discriminate.
      pose proof (rec_restores _ _ _ _ Er) as ->.
      destruct (IH _ H) as [-> Hall]. split; [reflexivity |].
      intros d' [<- | Hin]; [| now apply Hall].
      split; [exact Hd |]. unfold calculated_at, stored_formula.
      rewrite Es, Et. now intros ? [= <-].
    + destruct (IH _ H) as [-> Hall]. split; [reflexivity |].
      intros d' [<- | Hin]; [| now apply Hall].
      split; [exact Hd |]. unfold calculated_at, stored_formula.
      rewrite Es. discriminate.
Qed.

Lemma loop_true P deps P' :
  loop rec P deps = Some (true, P') ->
  exists d, In d deps /\
    (d = target \/ exists f P'', calc_at d f /\ rec P d f = Some (true, P'')).
Proof.
  revert P'. induction deps as [|d deps IH]; intros P' H; simpl in H.
  - discriminate.
  - destruct (Z.eqb_spec d target) as [-> | Hd].
    { exists target. split; [now left | now left]. }
    assert (Hrest : loop rec P deps = Some (true, P') ->
                    exists d0, In d0 (d :: deps) /\
                      (d0 = target \/ exists f P'', calc_at d0 f
                         /\ rec P d0 f = Some (true, P''))).
    { intros H'. destruct (IH _ H') as (d0 & Hin & Hd0).
      exists d0. split; [now right | exact Hd0]. }
    destruct (find_stat allStats d) as [s|] eqn:Es; [| now apply Hrest].
    destruct (stat_type s) as [| | | |f] eqn:Et; try now apply Hrest.
    destruct (rec P d f) as [[[|] v]|] eqn:Er; try discriminate.
    + exists d. split; [now left |]. right. exists f, v. split; [| exact Er].
      unfold calculated_at, stored_formula. now rewrite Es, Et.
    + pose proof (rec_restores _ _ _ _ Er) as ->. now apply Hrest.
Qed.

(** The loop answers as soon as every recursive call does. *)
Lemma loop_answers P deps :
  (forall d f, In d deps -> d <> target -> calc_at d f ->
               exists r, rec P d f = Some r) ->
  exists r, loop rec P deps = Some r.
Proof.
  induction deps as [|d deps IH]; intros Hrec; simpl.
  - eauto.
  - destruct (Z.eqb_spec d target) as [-> | Hd]; [eauto |].
    assert (Hrest : exists r, loop rec P deps = Some r).
    { apply IH. intros d' f Hin. apply Hrec. now right. }
    destruct (find_stat allStats d) as [s|] eqn:Es; [| exact Hrest].
    destruct (stat_type s) as [| | | |f] eqn:Et; try exact Hrest.
    destruct (Hrec d f (or_introl eq_refl) Hd) as [[b v] Er].
    { unfold calculated_at, stored_formula. now rewrite Es, Et. }
    rewrite Er. destruct b; [eauto |].
    pose proof (rec_restores _ _ _ _ Er) as ->. exact Hrest.
Qed.
End Loop.

(** A call that answers [false] has removed what it added: the set is
    the on-path set again. *)
Lemma check_restores fuel : forall P n f P',
  check fuel P n f = Some (false, P') -> P' = P.
Proof.
  induction fuel as [|fuel IH]; intros P n f P' H; simpl in H; [discriminate |].
  destruct (decide (n ∈ P)) as [Hin | Hnin]; [discriminate |].
  destruct (loop (check fuel) (P ∪ {[n]}) (findStatDependencies f))
    as [[[|] v]|] eqn:El; try discriminate.
  injection H as <-. apply (loop_false _ IH) in El as [-> _].
  apply set_eq. intros x.
  rewrite elem_of_difference, elem_of_union, elem_of_singleton.
  split; [tauto | intros Hx; split; [tauto | now intros ->]].
Qed.

(** A node already on the path is never expanded again. *)
Lemma check_on_path fuel P n f :
  n ∈ P -> check (S fuel) P n f = Some (true, P).
Proof. intros H. simpl. now destruct (decide (n ∈ P)). Qed.

Lemma path_set_add P n f : path_set P -> fat n = Some f -> path_set (P ∪ {[n]}).
Proof.
  intros HP Hn p [Hp | ->%elem_of_singleton]%elem_of_union; [now apply HP |].
  destruct (Z.eq_dec n target) as [-> | Hne]; [now left |].
  right. exists f. now apply formula_at_calc.
Qed.

Lemma check_true_closes fuel : forall P n f P',
  fat n = Some f ->
  check fuel P n f = Some (true, P') -> n ∈ P \/ closes target formula allStats P n.
Proof.
  induction fuel as [|fuel IH]; intros P n f P' Hn H; simpl in H; [discriminate |].
  destruct (decide (n ∈ P)) as [Hin | Hnin]; [now left |]. right.
  destruct (loop (check fuel) (P ∪ {[n]}) (findStatDependencies f))
    as [[[|] v]|] eqn:El; try discriminate.
  apply (loop_true _ (check_restores fuel)) in El as (d & Hd & Hcase).
  assert (He : edge n d) by (exists f; auto).
  destruct Hcase as [-> | (f' & P'' & Hc & Hr)].
  - apply closes_here with target; auto.
  - destruct (Z.eq_dec d target) as [-> | Hne].
    { apply closes_here with target; auto. }
    apply IH in Hr as [Hin | Hcl]; [| | now apply calc_at_formula_at].
    + apply closes_here with d; [exact He |].
      apply elem_of_union in Hin as [Hin | ->%elem_of_singleton]; auto.
    + now apply closes_later with d.
Qed.

Lemma check_false_open fuel : forall P n f P',
  fat n = Some f -> path_set P ->
  check fuel P n f = Some (false, P') ->
  (n ∉ P) /\ ~ closes target formula allStats P n.
Proof.
  induction fuel as [|fuel IH]; intros P n f P' Hn HP H; simpl in H; [discriminate |].
  destruct (decide (n ∈ P)) as [Hin | Hnin]; [discriminate |].
  split; [exact Hnin |].
  destruct (loop (check fuel) (P ∪ {[n]}) (findStatDependencies f))
    as [[[|] v]|] eqn:El; try discriminate.
  apply (loop_false _ (check_restores fuel)) in El as [_ Hall].
  pose proof (path_set_add _ _ _ HP Hn) as HP1.
  assert (Hon : forall d, In d (findStatDependencies f) -> d ∈ P ∪ {[n]} -> False).
  { intros d Hd Hmem. destruct (Hall d Hd) as [Hne Hrec].
    destruct (HP1 d Hmem) as [-> | [f' Hc]]; [now elim Hne |].
    specialize (Hrec f' Hc). destruct fuel as [|fuel]; [discriminate |].
    rewrite check_on_path in Hrec by exact Hmem. discriminate. }
  intros Hcl.
  inversion Hcl as [n0 d He Hend Heq | n0 d He Hnext Heq]; subst n0;
    destruct He as [f0 [Hf0 Hd]].
  - rewrite Hn in Hf0. injection Hf0 as <-.
    destruct (Hall d Hd) as [Hne _].
    destruct Hend as [-> | [Hin | ->]]; [now elim Hne | |]; apply (Hon _ Hd).
    + now apply elem_of_union_l.
    + apply elem_of_union_r. now apply elem_of_singleton.
  - rewrite Hn in Hf0. injection Hf0 as <-.
    destruct (Hall d Hd) as [Hne Hrec].
    assert (Hfd : exists f', fat d = Some f').
    { inversion Hnext as [? ? [f' [Hf' _]] _ | ? ? [f' [Hf' _]] _]; eauto. }
    destruct Hfd as [f' Hf'].
    specialize (Hrec f' (formula_at_calc _ _ Hne Hf')).
    apply IH in Hrec as [_ Hopen]; auto.
Qed.

(** ** Enough fuel *)

Lemma universe_size : (size U <= S (length allStats))%nat.
Proof.
  unfold universe. rewrite size_union_alt, size_singleton.
  pose proof (size_list_to_set_le (map stat_id allStats)) as Hl.
  rewrite length_map in Hl.
  assert (size (list_to_set (map stat_id allStats) ∖ {[target]} : gset Z)
          <= size (list_to_set (map stat_id allStats) : gset Z))%nat
    by (apply subseteq_size, subseteq_difference_l; reflexivity).
  lia.
Qed.

Lemma check_answers fuel : forall P n f,
  P ⊆ U -> n ∈ U -> (size (U ∖ P) < fuel)%nat ->
  exists r, check fuel P n f = Some r.
Proof.
  induction fuel as [|fuel IH]; intros P n f HP Hn Hsz; [lia |].
  simpl. destruct (decide (n ∈ P)) as [Hin | Hnin]; [eauto |].
  assert (Hlt : (size (U ∖ (P ∪ {[n]})) < size (U ∖ P))%nat).
  { apply subset_size. split.
    - intros x [Hx Hx']%elem_of_difference. apply elem_of_difference.
      split; [exact Hx | intros Hp; apply Hx'; now apply elem_of_union_l].
    - intros Hsub. assert (Hd : n ∈ U ∖ P) by now apply elem_of_difference.
      apply Hsub, elem_of_difference in Hd as [_ Hd]. apply Hd.
      apply elem_of_union_r. now apply elem_of_singleton. }
  destruct (loop_answers (check fuel) (check_restores fuel) (P ∪ {[n]})
              (findStatDependencies f)) as [[[|] v] ->]; eauto.
  intros d f' _ _ Hc. apply IH; [| | lia].
  - intros x [Hx | ->%elem_of_singleton]%elem_of_union; [now apply HP | exact Hn].
  - now apply calc_at_universe with f'.
Qed.

Lemma target_in_universe : target ∈ U.
Proof. unfold universe. set_solver. Qed.

Lemma root_answers k :
  exists r, check (depth_bound allStats + k) ∅ target formula = Some r.
Proof.
  apply check_answers; [set_solver | apply target_in_universe |].
  pose proof universe_size. unfold depth_bound.
  assert (size (U ∖ ∅) <= size U)%nat
    by (apply subseteq_size, subseteq_difference_l; reflexivity).
  lia.
Qed.

Lemma fat_target : fat target = Some formula.
Proof. unfold formula_at. now rewrite Z.eqb_refl. Qed.

Lemma path_set_empty : path_set ∅.
Proof. intros p Hp. set_solver. Qed.

(** The traversal answers [true] exactly when a closing walk leaves the
    root. *)
Lemma root_result k :
  exists b P',
    check (depth_bound allStats + k) ∅ target formula = Some (b, P')
    /\ (b = true <-> closes target formula allStats ∅ target).
Proof.
  destruct (root_answers k) as [[b P'] Hr]. exists b, P'. split; [exact Hr |].
  destruct b.
  - split; [intros _ | reflexivity].
    apply check_true_closes in Hr as [Hin | Hcl];
      [set_solver | exact Hcl | apply fat_target].
  - split; [discriminate |]. intros Hcl.
    apply check_false_open in Hr as [_ Hopen];
      [now elim Hopen | apply fat_target | apply path_set_empty].
Qed.

(** ** Closing walks and cycles *)

Lemma closes_reaches P n :
  closes target formula allStats P n ->
  exists d, tc edge n d /\ (d = target \/ d ∈ P \/ tc edge d d).
Proof.
  induction 1 as [P n d He Hend | P n d He Hcl IH].
  - exists d. split; [now apply tc_once |].
    destruct Hend as [-> | [Hin | ->]]; auto.
    right. right. now apply tc_once.
  - destruct IH as (e & Hde & Hend).
    assert (Hne : tc edge n e) by (eapply tc_l; eauto).
    destruct Hend as [-> | [[Hin | ->%elem_of_singleton]%elem_of_union | Hcyc]].
    + exists target. auto.
    + exists e. auto.
    + exists n. auto.
    + exists e. auto.
Qed.

Lemma path_closes a b :
  tc edge a b -> forall P, b = target \/ b ∈ P \/ b = a ->
  closes target formula allStats P a.
Proof.
  induction 1 as [a b He | a c b He Hcb IH]; intros P Hend.
  - now apply closes_here with b.
  - apply closes_later with c; [exact He |]. apply IH.
    destruct Hend as [-> | [Hin | ->]]; [now left | |]; right; left; set_solver.
Qed.

Lemma cycle_closes a v :
  rtc edge a v -> tc edge v v -> forall P, closes target formula allStats P a.
Proof.
  induction 1 as [a | a c v He Hcv IH]; intros Hcyc P.
  - apply path_closes with a; auto.
  - apply closes_later with c; [exact He |]. now apply IH.
Qed.

Lemma closes_iff_reaches_cycle :
  closes target formula allStats ∅ target <->
  reaches_cycle target formula allStats.
Proof.
  split.
  - intros H. apply closes_reaches in H as (d & Hd & Hend).
    destruct Hend as [-> | [Hin | Hcyc]].
    + exists target. split; [apply rtc_refl | exact Hd].
    + set_solver.
    + exists d. split; [now apply tc_rtc | exact Hcyc].
  - intros (v & Hv & Hcyc). now apply cycle_closes with v.
Qed.
End CycleFacts.

(* ================================================================== *)
(** * The cycle detector: results *)
(* ================================================================== *)

Lemma loop_below_refers a b :
  refers_ext 1 "<stat:2:value>" loop_below a b -> b = 2 \/ b = 3.
Proof.
  intros [(f & Hf & Hb) | [_ Hb]].
  - unfold stored_formula, find_stat, loop_below in Hf. simpl in Hf.
    repeat match type of Hf with
           | context [if ?c then _ else _] => destruct c; simpl in Hf
           end;
      try discriminate; injection Hf as <-; vm_compute in Hb; lia.
  - vm_compute in Hb. lia.
Qed.

(** The detector also answers [true] when the cycle it meets does not pass
    through the target: no path leads back to stat 1 here. *)
Lemma hasCircularDependency_loop_below :
  hasCircularDependency 1 "<stat:2:value>" loop_below = true
  /\ ~ tc (refers_ext 1 "<stat:2:value>" loop_below) 1 1.
Proof.
  split; [vm_compute; reflexivity |].
  assert (H : forall a b, tc (refers_ext 1 "<stat:2:value>" loop_below) a b ->
                          b = 2 \/ b = 3).
  { induction 1 as [a b He | a c b He _ IH]; [| exact IH].
    now apply loop_below_refers with a. }
  intros Hc. apply H in Hc. lia.
Qed.

(** C1 (amended): the detector answers [true] exactly when, in the graph of
    formula references with the proposed formula read at the target, some
    cycle can be reached from the target: a path back to the target or a
    path into a cycle among other calculated stats. *)
Theorem hasCircularDependency_iff_reaches_cycle id formula allStats :
  hasCircularDependency id formula allStats = true
  <-> reaches_cycle id formula allStats.
Proof.
  rewrite <- closes_iff_reaches_cycle.
  destruct (root_result id formula allStats 0) as (b & P' & Hr & Hb).
  unfold hasCircularDependency, hasCircularDependency_fuel.
  rewrite Nat.add_0_r in Hr. rewrite Hr. exact Hb.
Qed.

(** C9: the traversal terminates on every input: with the depth bound, or
    any larger one, it returns a boolean, always the same one, and a node
    that is already on the path is answered without being expanded. *)
Theorem hasCircularDependency_terminates id formula allStats :
  (forall k,
     hasCircularDependency_fuel id allStats (depth_bound allStats + k) formula
     = Some (hasCircularDependency id formula allStats))
  /\ (forall fuel P n f,
        n ∈ P -> checkRecursive id allStats (S fuel) P n f = Some (true, P)).
Proof.
  split; [| intros fuel P n f; apply check_on_path].
  intros k.
  destruct (root_result id formula allStats 0) as (b0 & P0 & Hr0 & Hb0).
  destruct (root_result id formula allStats k) as (b & P' & Hr & Hb).
  unfold hasCircularDependency, hasCircularDependency_fuel.
  rewrite Nat.add_0_r in Hr0. rewrite Hr0, Hr. f_equal.
  destruct b, b0; try reflexivity.
  - symmetry. apply Hb0, Hb. reflexivity.
  - apply Hb, Hb0. reflexivity.
Qed.

Lemma hasCircularDependency_terminates_witness :
  hasCircularDependency_fuel 1 loop_below (depth_bound loop_below + 3)
    "<stat:2:value>" = Some true
  /\ checkRecursive 1 loop_below 1 {[2]} 2 "<stat:3:value>" = Some (true, {[2]}).
Proof.
  destruct (hasCircularDependency_terminates 1 "<stat:2:value>" loop_below)
    as [Hfuel Hpath].
  split.
  - rewrite (Hfuel 3%nat). vm_compute. reflexivity.
  - apply Hpath. apply elem_of_singleton. reflexivity.
Defined.

(** The examples of the specification. *)
Example self_reference :
  hasCircularDependency 5 "<stat:5:value> + 1" [calc 5 "<stat:5:value> + 1"] = true.
Proof. vm_compute. reflexivity. Qed.

Example indirect_cycle :
  hasCircularDependency 1 "<stat:2:value>"
    [calc 1 "<stat:2:value>"; calc 2 "<stat:1:value>"] = true
  /\ hasCircularDependency 2 "<stat:1:value>"
       [calc 1 "<stat:2:value>"; calc 2 "<stat:1:value>"] = true.
Proof. split; vm_compute; reflexivity. Qed.

Example diamond_no_cycle :
  hasCircularDependency 1 "<stat:2:value> + <stat:3:value>"
    [calc 1 "<stat:2:value> + <stat:3:value>"; calc 2 "<stat:4:value>";
     calc 3 "<stat:2:value> + <stat:4:value>"; calc 4 "1"] = false.
Proof. vm_compute. reflexivity. Qed.

(* ================================================================== *)
(** * The validator: results *)
(* ================================================================== *)

Lemma forEach_preserves {A St : Type} (I : St -> Prop) (body : St -> nat -> A -> St) :
  (forall st idx x, I st -> I (body st idx x)) ->
  forall l idx st, I st -> I (forEach body idx l st).
Proof.
  intros Hbody l. induction l as [|x l IH]; intros idx st Hst; simpl; auto.
Qed.

Section DuplicateReport.
Variable k : Z.

Lemma duplicate_errors_app a b :
  duplicate_errors k (a ++ b) = (duplicate_errors k a ++ duplicate_errors k b)%list.
Proof. apply List.filter_app. Qed.

Lemma duplicate_errors_push c e errs :
  is_duplicate_of k e = false ->
  duplicate_errors k (push_if c e errs) = duplicate_errors k errs.
Proof.
  intros He. unfold push_if. destruct c; [| reflexivity].
  rewrite duplicate_errors_app. simpl. rewrite He. apply app_nil_r.
Qed.

Lemma duplicate_errors_options idx l : forall j seen errs,
  duplicate_errors k (snd (forEach (check_option idx) j l (seen, errs)))
  = duplicate_errors k errs.
Proof.
  induction l as [|o l IH]; intros j seen errs; simpl; [reflexivity |].
  rewrite IH. now rewrite !duplicate_errors_push.
Qed.

Lemma duplicate_errors_dependencies allStats idx l : forall j errs,
  duplicate_errors k (forEach (check_dependency allStats idx) j l errs)
  = duplicate_errors k errs.
Proof.
  induction l as [|d l IH]; intros j errs; simpl; [reflexivity |].
  rewrite IH. unfold check_dependency.
  destruct (find_stat allStats d) as [s|].
  - destruct (is_string s); [| reflexivity].
    rewrite duplicate_errors_app. simpl. apply app_nil_r.
  - rewrite duplicate_errors_app. simpl. apply app_nil_r.
Qed.

Lemma duplicate_errors_variant allStats idx s errs :
  duplicate_errors k (check_variant allStats idx s errs) = duplicate_errors k errs.
Proof.
  unfold check_variant.
  destruct (stat_type s) as [[lo|] [hi|] | [l | r] | | | f]; try reflexivity.
  - now apply duplicate_errors_push.
  - rewrite duplicate_errors_options. now apply duplicate_errors_push.
  - rewrite duplicate_errors_dependencies. now rewrite !duplicate_errors_push.
Qed.

Lemma duplicate_errors_sections l : forall i seen errs,
  duplicate_errors k (snd (forEach check_section i l (seen, errs)))
  = duplicate_errors k errs.
Proof.
  induction l as [|x l IH]; intros i seen errs; simpl; [reflexivity |].
  rewrite IH. now rewrite !duplicate_errors_push.
Qed.

Lemma duplicate_errors_toplevel system :
  duplicate_errors k (check_toplevel system) = [].
Proof. unfold check_toplevel. now rewrite !duplicate_errors_push. Qed.

(** The pass over the stats adds one entry for every stat whose id was
    met before, and names that stat's position. *)
Lemma duplicate_errors_stats allStats l : forall idx ids errs,
  duplicate_errors k (snd (forEach (check_stat allStats) idx l (ids, errs)))
  = (duplicate_errors k errs
     ++ expected_duplicates k (bool_decide (k ∈ ids)) idx l)%list.
Proof.
  induction l as [|s l IH]; intros idx ids errs; simpl.
  - now rewrite app_nil_r.
  - rewrite IH, duplicate_errors_variant.
    rewrite duplicate_errors_push by reflexivity.
    unfold push_if. destruct (Z.eqb_spec (stat_id s) k) as [-> | Hne].
    + assert (Hk : bool_decide (k ∈ ids ∪ {[k]}) = true)
        by (apply bool_decide_eq_true; set_solver).
      rewrite Hk. destruct (bool_decide (k ∈ ids)); simpl.
      * rewrite duplicate_errors_app. simpl. rewrite Z.eqb_refl.
        now rewrite <- app_assoc.
      * reflexivity.
    + assert (Hk : bool_decide (k ∈ ids ∪ {[stat_id s]}) = bool_decide (k ∈ ids))
        by (apply bool_decide_ext; rewrite elem_of_union, elem_of_singleton;
            split; [intros [H | H]; [exact H | congruence] | now left]).
      rewrite Hk. f_equal.
      destruct (bool_decide (stat_id s ∈ ids)); [| reflexivity].
      rewrite duplicate_errors_app. simpl.
      destruct (Z.eqb_spec (stat_id s) k); [contradiction |]. apply app_nil_r.
Qed.

Lemma expected_none l : forall seen idx,
  (forall m s, l !! m = Some s -> stat_id s <> k) ->
  expected_duplicates k seen idx l = [].
Proof.
  induction l as [|s l IH]; intros seen idx Hl; simpl; [reflexivity |].
  destruct (Z.eqb_spec (stat_id s) k) as [E | _].
  - now elim (Hl 0%nat s eq_refl).
  - apply IH. intros m s' Hm. apply (Hl (S m) s' Hm).
Qed.

Lemma expected_after_first l : forall idx j b,
  l !! j = Some b -> stat_id b = k ->
  (forall m s, l !! m = Some s -> stat_id s = k -> m = j) ->
  expected_duplicates k true idx l = [StatDuplicateId (idx + j) k].
Proof.
  induction l as [|s l IH]; intros idx j b Hj Hb Hl; [discriminate |].
  simpl. destruct j as [|j]; simpl in Hj.
  - injection Hj as ->. rewrite Hb, Z.eqb_refl, Nat.add_0_r. simpl. f_equal.
    apply expected_none. intros m s' Hm Hs'.
    specialize (Hl (S m) s' Hm Hs'). discriminate.
  - destruct (Z.eqb_spec (stat_id s) k) as [E | _].
    + specialize (Hl 0%nat s eq_refl E). discriminate.
    + rewrite (IH (S idx) j b Hj Hb).
      * do 2 f_equal. lia.
      * intros m s' Hm Hs'. specialize (Hl (S m) s' Hm Hs'). lia.
Qed.

Lemma expected_two l : forall idx i j a b,
  (i < j)%nat -> l !! i = Some a -> l !! j = Some b ->
  stat_id a = k -> stat_id b = k ->
  (forall m s, l !! m = Some s -> stat_id s = k -> m = i \/ m = j) ->
  expected_duplicates k false idx l = [StatDuplicateId (idx + j) k].
Proof.
  induction l as [|s l IH]; intros idx i j a b Hij Hi Hj Ha Hb Hl; [discriminate |].
  simpl. destruct j as [|j]; [lia |]. simpl in Hj.
  destruct i as [|i]; simpl in Hi.
  - injection Hi as ->. rewrite Ha, Z.eqb_refl. simpl.
    rewrite (expected_after_first l (S idx) j b Hj Hb).
    + do 2 f_equal. lia.
    + intros m s' Hm Hs'. specialize (Hl (S m) s' Hm Hs'). lia.
  - destruct (Z.eqb_spec (stat_id s) k) as [E | _].
    + specialize (Hl 0%nat s eq_refl E). lia.
    + rewrite (IH (S idx) i j a b); try assumption; try lia.
      * do 2 f_equal. lia.
      * intros m s' Hm Hs'. specialize (Hl (S m) s' Hm Hs'). lia.
Qed.
End DuplicateReport.

(** The single entry for the shared id names position 1 and not
    position 0. *)
Lemma duplicate_id_names_later_position_only :
  validate two_fours = Returns ["stats[1] id duplicado: 4"]
  /\ validate_errors two_fours = Returns [StatDuplicateId 1 4]
  /\ ~ (exists e, validate_errors two_fours = Returns [e]
                  /\ In 0%nat (stat_indices e) /\ In 1%nat (stat_indices e)).
Proof.
  assert (E : validate_errors two_fours = Returns [StatDuplicateId 1 4])
    by (vm_compute; reflexivity).
  split; [vm_compute; reflexivity |]. split; [exact E |].
  intros (e & He & H0 & _). rewrite E in He. injection He as <-.
  simpl in H0. destruct H0 as [H0 | []]. discriminate H0.
Qed.

(** C5 (amended): when exactly two stats share an id, the report holds
    exactly one duplicate-id entry for that id, and the entry names the
    position of the later of the two stats together with the id. *)
Theorem validate_two_stats_sharing_id
    (k : Z) (l : list Stats) (i j : nat) (a b : Stats)
    (cfg : option Config) (secs : list Section_) :
  (i < j)%nat -> l !! i = Some a -> l !! j = Some b ->
  stat_id a = k -> stat_id b = k ->
  (forall m s, l !! m = Some s -> stat_id s = k -> m = i \/ m = j) ->
  exists errs,
    validate_errors {| config := cfg; stats := IsArray l; sections := IsArray secs |}
      = Returns errs
    /\ duplicate_errors k errs = [StatDuplicateId j k]
    /\ message (StatDuplicateId j k)
       = "stats[" ++ Js.String_of_nat j ++ "] id duplicado: " ++ Js.String_of_Z k.
Proof.
  intros Hij Hi Hj Ha Hb Hl. eexists. split; [reflexivity |].
  split; [| reflexivity].
  rewrite duplicate_errors_sections, duplicate_errors_stats.
  rewrite duplicate_errors_toplevel. simpl.
  rewrite bool_decide_eq_false_2 by apply not_elem_of_empty.
  now apply (expected_two k l 0 i j a b).
Qed.

Lemma validate_two_stats_sharing_id_witness :
  exists errs,
    validate_errors two_fours = Returns errs
    /\ duplicate_errors 4 errs = [StatDuplicateId 1 4]
    /\ message (StatDuplicateId 1 4)
       = "stats[" ++ Js.String_of_nat 1 ++ "] id duplicado: " ++ Js.String_of_Z 4.
Proof.
  apply (validate_two_stats_sharing_id 4
           [plain 4 "Força"; plain 4 "Destreza"] 0 1
           (plain 4 "Força") (plain 4 "Destreza") sound_config []).
  - lia.
  - reflexivity.
  - reflexivity.
  - reflexivity.
  - reflexivity.
  - intros [|[|m]] s Hm _; [now left | now right | discriminate Hm].
Defined.

(** When both fields are arrays the validator returns its report. *)
Lemma validate_returns_on_arrays cfg l secs :
  exists errs,
    validate {| config := cfg; stats := IsArray l; sections := IsArray secs |}
    = Returns errs.
Proof. unfold validate, validate_errors. simpl. eauto. Qed.

(** Entries are only ever appended: what one check reported stays in the
    report whatever the later checks find. *)
Lemma push_if_keeps c e errs : exists extra, push_if c e errs = (errs ++ extra)%list.
Proof.
  unfold push_if. destruct c; [eauto |]. exists []. now rewrite app_nil_r.
Qed.

(** C2: the validator is not total.  A schema whose [stats] field is not an
    array makes it throw, after the entry that reports the field has been
    pushed and before any report is returned; so does a [sections] field
    that is not an array. *)
Theorem validate_throws_without_arrays :
  (forall cfg secs,
     validate {| config := cfg; stats := NotArray; sections := secs |}
     = Throws_TypeError
     /\ In StatsNotArray
          (check_toplevel {| config := cfg; stats := NotArray; sections := secs |}))
  /\ (forall cfg l,
        validate {| config := cfg; stats := IsArray l; sections := NotArray |}
        = Throws_TypeError).
Proof.
  split.
  - intros cfg secs. split; [reflexivity |].
    unfold check_toplevel. simpl.
    destruct secs; unfold push_if at 1; simpl.
    + apply in_or_app. left.
      apply in_or_app. right. now left.
    + apply in_or_app. right. now left.
  - intros cfg l. reflexivity.
Qed.

(* ================================================================== *)
(** * The formula editor: results *)
(* ================================================================== *)

(** The modal editor refuses a formula that closes a cycle: the schema is
    left as it was. *)
Lemma confirmFormula_refuses_cycle value allStats index formula :
  hasCircularDependency (stat_id value) formula allStats = true ->
  commit allStats index (confirmFormula value allStats formula) = allStats.
Proof. intros H. unfold confirmFormula. now rewrite H. Qed.

(** C3: the text input of the formula commits every edit.  For stat 5 with
    formula ["1"], the edit to ["<stat:5:value> + 1"] closes a cycle; the
    modal editor refuses it, the text input stores it. *)
Theorem formula_input_commits_cycle :
  let value := calc 5 "1" in
  let allStats := [value] in
  let proposed := "<stat:5:value> + 1" in
  hasCircularDependency (stat_id value) proposed allStats = true
  /\ commit allStats 0 (confirmFormula value allStats proposed) = allStats
  /\ commit allStats 0 (formula_input_onChange value proposed) = [calc 5 proposed]
  /\ validate_errors {| config := sound_config;
                        stats := IsArray [calc 5 proposed];
                        sections := IsArray [] |}
     = Returns [StatNameRequired 0; FormulaCircular 0].
Proof. repeat split; vm_compute; reflexivity. Qed.

(* ================================================================== *)
(** * The preview resolver: results *)
(* ================================================================== *)

Section ResolverResults.
Variable evaluate : string -> option string.
Variable DiceRoll : string -> RollOutcome.
Variable sections_ : list Section_.
Variable locale : string.

Local Abbreviation preview stats_ :=
  (processedValue evaluate DiceRoll sections_ stats_ locale).
Local Abbreviation later_passes stats_ text :=
  (markdown_breaks (resolve_dice DiceRoll stats_ text)).

(** A declared minimum other than zero is the sample of a numeric
    stat. *)
Lemma numeric_sample_nonzero stats_ id stat lo hi :
  find_stat stats_ (Js.parseInt id) = Some stat ->
  stat_type stat = numeric (Some lo) hi -> lo <> 0 ->
  resolveVariableValue sections_ stats_ locale "stat" id "value"
  = Js.String_of_Z lo.
Proof.
  intros Hf Ht Hlo. unfold resolveVariableValue. simpl. rewrite Hf, Ht.
  now destruct lo.
Qed.

(** The example of the specification: with [min = 3] the evaluator is
    asked for ["3 + 2"]. *)
Lemma math_with_minimum_three :
  preview [numeric_stat 1 (Some 3) (Some 10)] "<math:<stat:1:value> + 2>"
  = later_passes [numeric_stat 1 (Some 3) (Some 10)]
      (match evaluate "3 + 2" with
       | Some result => result
       | None => "[Erro: 3 + 2]"
       end).
Proof.
  unfold processedValue. do 2 f_equal.
  rewrite <- (app_nil_r_str (match evaluate "3 + 2" with
                             | Some r => r | None => _ end)).
  vm_compute. reflexivity.
Qed.

(** C4: a declared minimum of zero is not the sample.  For the numeric
    stat the editor creates ([min = 0], [max = 10]) the token
    [<stat:1:value>] resolves to ["1"], and the evaluator is asked for
    ["1 + 2"] where the minimum gives ["0 + 2"]. *)
Theorem numeric_minimum_zero_resolves_to_one :
  let stats_ := [numeric_stat 1 (Some 0) (Some 10)] in
  resolveVariableValue sections_ stats_ locale "stat" "1" "value" = "1"
  /\ Js.String_of_Z 0 = "0"
  /\ preview stats_ "<math:<stat:1:value> + 2>"
     = later_passes stats_
         (match evaluate "1 + 2" with
          | Some result => result
          | None => "[Erro: 1 + 2]"
          end).
Proof.
  split; [reflexivity |]. split; [reflexivity |].
  unfold processedValue. do 2 f_equal.
  rewrite <- (app_nil_r_str (match evaluate "1 + 2" with
                             | Some r => r | None => _ end)).
  vm_compute. reflexivity.
Qed.

(** Called on a payload that still holds the token, the two helpers do
    substitute the fixed literals for an unknown id. *)
Lemma helpers_substitute_literals :
  math_processed [] "<stat:99:value> + 2" = "0 + 2"
  /\ dice_processed [] "<stat:99:value>d6" = "3d6".
Proof. split; reflexivity. Qed.

(** C10: inside a payload the unknown id does produce the bracketed
    diagnostic.  The pass over the variables runs first and rewrites the
    token, so the evaluator and the roller are handed the diagnostic
    text, not ["0"] or ["3"]. *)
Theorem payload_unknown_stat_reaches_collaborators :
  preview [] "<math:<stat:99:value> + 2>"
  = later_passes []
      (match evaluate "[Stat 99 não encontrado] + 2" with
       | Some result => result
       | None => "[Erro: [Stat 99 não encontrado] + 2]"
       end)
  /\ preview [] "<dice:<stat:99:value>d6>"
     = markdown_breaks
         (match DiceRoll "[Stat 99 não encontrado]d6" with
          | Rolled output => "🎲 " ++ output
          | RollError msg => "[Erro dados: " ++ msg ++ "]"
          | RollThrown => "[Erro dados: [Stat 99 não encontrado]d6]"
          end).
Proof.
  split.
  - unfold processedValue. do 2 f_equal.
    rewrite <- (app_nil_r_str (match evaluate _ with
                               | Some r => r | None => _ end)).
    vm_compute. reflexivity.
  - unfold processedValue. f_equal.
    rewrite <- (app_nil_r_str (match DiceRoll _ with
                               | Rolled o => _ | RollError m => _
                               | RollThrown => _ end)).
    vm_compute. reflexivity.
Qed.
End ResolverResults.

(* ================================================================== *)
(** * Facts about the patterns of the preview *)
(* ================================================================== *)

Lemma digits1_spec s d r :
  Js.digits1 s = Some (d, r) ->
  s = d ++ r /\ d <> EmptyString /\ all_digits d = true.
Proof.
  unfold Js.digits1. destruct (Js.digits_run s) as [d' r'] eqn:E.
  apply digits_run_spec in E as (-> & Hd & _).
  destruct d' as [|c d']; [discriminate |]. intros [= <- <-].
  split; [reflexivity |]. split; [discriminate | exact Hd].
Qed.


Lemma not_gt_run_spec s d r :
  Js.not_gt_run s = (d, r) -> s = d ++ r /\ has_char Js.gt_char d = false.
Proof.
  revert d r. induction s as [|c s IH]; intros d r; simpl.
  - intros [= <- <-]. auto.
  - destruct (Ascii.eqb c Js.gt_char) eqn:Hc.
    + intros [= <- <-]. auto.
    + destruct (Js.not_gt_run s) as [d' r'] eqn:E. intros [= <- <-].
      destruct (IH _ _ eq_refl) as (-> & Hd). simpl. rewrite Hc, Hd. auto.
Qed.

Lemma alt_kind_spec s k r :
  Js.alt_kind s = Some (k, r) -> s = k ++ r /\ token_kind k.
Proof.
  unfold Js.alt_kind, token_kind.
  destruct (Js.lit "stat" s) as [r1|] eqn:E1.
  { intros [= <- <-]. split; [now apply lit_spec | now left]. }
  destruct (Js.lit "section" s) as [r2|] eqn:E2; [| discriminate].
  intros [= <- <-]. split; [now apply lit_spec | now right].
Qed.

Lemma alt_property_spec s k r :
  Js.alt_property s = Some (k, r) -> s = k ++ r /\ token_property k.
Proof.
  unfold Js.alt_property, token_property.
  destruct (Js.lit "name" s) as [r1|] eqn:E1.
  { intros [= <- <-]. split; [now apply lit_spec | now left]. }
  destruct (Js.lit "value" s) as [r2|] eqn:E2.
  { intros [= <- <-]. split; [now apply lit_spec | right; now left]. }
  destruct (Js.lit "emoji" s) as [r3|] eqn:E3; [| discriminate].
  intros [= <- <-]. split; [now apply lit_spec | right; now right].
Qed.

(** What the variable pattern matches is a well-formed token. *)
Lemma re_variable_spec s ty d pr rest :
  Js.re_variable s = Some ((ty, d, pr), rest) ->
  s = variable_token ty d pr ++ rest
  /\ token_kind ty /\ token_id d /\ token_property pr.
Proof.
  unfold Js.re_variable.
  destruct (Js.lit "<" s) as [s0|] eqn:E0; [| discriminate].
  apply lit_spec in E0. subst s.
  destruct (Js.alt_kind s0) as [[ty' s1]|] eqn:E1; [| discriminate].
  apply alt_kind_spec in E1 as [-> Hk].
  destruct (Js.lit ":" s1) as [s2|] eqn:E2; [| discriminate].
  apply lit_spec in E2. subst s1.
  destruct (Js.digits1 s2) as [[d' s3]|] eqn:E3; [| discriminate].
  apply digits1_spec in E3 as (-> & Hne & Hd).
  destruct (Js.lit ":" s3) as [s4|] eqn:E4; [| discriminate].
  apply lit_spec in E4. subst s3.
  destruct (Js.alt_property s4) as [[pr' s5]|] eqn:E5; [| discriminate].
  apply alt_property_spec in E5 as [-> Hp].
  destruct (Js.lit ">" s5) as [s6|] eqn:E6; [| discriminate].
  apply lit_spec in E6. subst s5. intros [= <- <- <- <-].
  split; [| repeat split; assumption].
  unfold variable_token. simpl. repeat (rewrite app_assoc_str; simpl). reflexivity.
Qed.

Lemma variable_token_tail ty d pr :
  token_kind ty -> token_id d -> token_property pr ->
  exists m, variable_token ty d pr = String Js.lt_char m
            /\ has_char Js.lt_char m = false.
Proof.
  intros Hk [_ Hd] Hp. exists (ty ++ ":" ++ d ++ ":" ++ pr ++ ">").
  split; [reflexivity |].
  rewrite !has_char_app, (all_digits_no_lt d Hd).
  destruct Hk as [-> | ->]; destruct Hp as [-> | [-> | ->]]; reflexivity.
Qed.

Lemma re_variable_tight : tight_token Js.re_variable.
Proof.
  intros s [[ty d] pr] rest H.
  apply re_variable_spec in H as (-> & Hk & Hd & Hp).
  destruct (variable_token_tail ty d pr Hk Hd Hp) as (m & -> & Hm).
  exists m. auto.
Qed.

Lemma tight_consumes {A} (p : Js.pattern A) : tight_token p -> consumes_token p.
Proof. intros H s a rest E. destruct (H s a rest E) as (m & -> & _). eauto. Qed.

Lemma re_variable_consumes : consumes_token Js.re_variable.
Proof. apply tight_consumes, re_variable_tight. Qed.

Lemma re_payload_spec opener s body rest :
  Js.re_payload opener s = Some (body, rest) ->
  s = opener ++ body ++ ">" ++ rest /\ has_char Js.gt_char body = false.
Proof.
  unfold Js.re_payload.
  destruct (Js.lit opener s) as [s1|] eqn:E1; [| discriminate].
  apply lit_spec in E1. subst s. unfold Js.not_gt1.
  destruct (Js.not_gt_run s1) as [d r] eqn:E2.
  apply not_gt_run_spec in E2 as (-> & Hd).
  destruct d as [|c d]; [discriminate |].
  destruct (Js.lit ">" r) as [r2|] eqn:E3; [| discriminate].
  apply lit_spec in E3. subst r. intros [= <- <-]. auto.
Qed.

Lemma re_math_consumes : consumes_token Js.re_math.
Proof.
  intros s body rest H. apply re_payload_spec in H as [-> _].
  exists ("math:" ++ body ++ ">"). simpl.
  repeat (rewrite app_assoc_str; simpl). reflexivity.
Qed.

Lemma re_dice_consumes : consumes_token Js.re_dice.
Proof.
  intros s body rest H. apply re_payload_spec in H as [-> _].
  exists ("dice:" ++ body ++ ">"). simpl.
  repeat (rewrite app_assoc_str; simpl). reflexivity.
Qed.

(** A payload holds no [>], hence no complete [<stat:ID:value>] token: the
    substitution inside the two helpers finds nothing to replace in the
    payloads the preview hands them. *)
Lemma replace_stat_value_without_gt f s :
  has_char Js.gt_char s = false -> Js.replace Js.re_stat_value f s = s.
Proof.
  induction s as [|c s IH]; [reflexivity |].
  intros H. pose proof H as H'. simpl in H'. apply orb_false_iff in H' as [_ Hs].
  rewrite replace_skip; [now rewrite IH |].
  destruct (Js.re_stat_value (String c s)) as [[d rest]|] eqn:E; [| reflexivity].
  apply re_stat_value_spec in E as (_ & _ & E). rewrite E in H.
  unfold stat_value_token in H. rewrite !has_char_app in H. simpl in H.
  rewrite !orb_true_r in H. discriminate H.
Qed.

Lemma payload_reaches_evaluator_unchanged stats_ s body rest :
  Js.re_math s = Some (body, rest) -> math_processed stats_ body = body.
Proof.
  intros H. apply re_payload_spec in H as [_ H].
  now apply replace_stat_value_without_gt.
Qed.

Lemma payload_reaches_roller_unchanged stats_ s body rest :
  Js.re_dice s = Some (body, rest) -> dice_processed stats_ body = body.
Proof.
  intros H. apply re_payload_spec in H as [_ H].
  now apply replace_stat_value_without_gt.
Qed.




(** ** The pass that doubles the line breaks *)

Lemma consumed_one c s : Js.consumed (String c s) s = 1%nat.
Proof.
  unfold Js.consumed. change (String.length (String c s)) with (S (String.length s)).
  lia.
Qed.

Lemma markdown_breaks_cons c s :
  markdown_breaks (String c s)
  = (if Ascii.eqb c Js.newline
     then String " " (String " " (String Js.newline EmptyString))
     else String c EmptyString) ++ markdown_breaks s.
Proof.
  unfold markdown_breaks, Js.replace.
  change (Js.replace_from Js.re_newline ?f 0 (String c s))
    with (match Js.re_newline (String c s) with
          | Some (a, rest) =>
              f a ++ Js.replace_from Js.re_newline f
                       (Js.consumed (String c s) rest - 1) s
          | None => String c (Js.replace_from Js.re_newline f 0 s)
          end).
  unfold Js.re_newline. destruct (Ascii.eqb c Js.newline); [| reflexivity].
  rewrite consumed_one. reflexivity.
Qed.

Lemma markdown_breaks_app a b :
  markdown_breaks (a ++ b) = markdown_breaks a ++ markdown_breaks b.
Proof.
  induction a as [|c a IH]; [reflexivity |].
  change (String c a ++ b) with (String c (a ++ b)).
  rewrite !markdown_breaks_cons, IH. now rewrite app_assoc_str.
Qed.

Lemma markdown_breaks_plain s :
  has_char Js.newline s = false -> markdown_breaks s = s.
Proof.
  induction s as [|c s IH]; [reflexivity |]. simpl.
  intros [Hc Hs]%orb_false_iff. rewrite markdown_breaks_cons, Hc, (IH Hs).
  reflexivity.
Qed.

Section TokenAnywhere.
Context {A : Type}.
Variable p : Js.pattern A.
Hypothesis Hp : tight_token p.
Variable f : A -> string.

End TokenAnywhere.

Section InlineDiagnostics.
Variable evaluate : string -> option string.
Variable DiceRoll : string -> RollOutcome.
Variable sections_ : list Section_.
Variable stats_ : list Stats.
Variable locale : string.

Local Abbreviation resolve := (resolveVariableValue sections_ stats_ locale).
Local Abbreviation preview :=
  (processedValue evaluate DiceRoll sections_ stats_ locale).







End InlineDiagnostics.




Example unknown_stat_in_text :
  processedValue (fun _ => None) (fun _ => RollThrown) [] [] "default"
    "Vida: <stat:99:value> pontos"
  = "Vida: [Stat 99 não encontrado] pontos".
Proof. vm_compute. reflexivity. Qed.

(* ================================================================== *)
(** * The replacement editor: results *)
(* ================================================================== *)

Lemma fold_push_new_In ds acc i :
  In i (fold_left push_new ds acc) <-> In i acc \/ In i (map Js.parseInt ds).
Proof.
  rewrite fold_push_new, in_app_iff, filter_In, first_occurrences_In.
  rewrite negb_true_iff. split.
  - intros [H | [H _]]; auto.
  - intros [H | H]; [now left |].
    destruct (includes acc i) eqn:E; [left; now apply includes_In | now right].
Qed.

Lemma add_used_In acc text i :
  In i (add_used acc text) <-> In i acc \/ mentions text i.
Proof.
  unfold add_used, set_add. rewrite fold_push_new_In, in_map_iff.
  apply or_iff_compat_l. unfold mentions. split.
  - intros (d & <- & Hd). apply exec_stat_value_tokens in Hd
      as (pre & post & -> & Hne & Hdig).
    exists pre, d, post. auto.
  - intros (pre & d & post & -> & Hne & Hdig & <-).
    exists d. split; [reflexivity |]. apply exec_stat_value_tokens.
    exists pre, post. auto.
Qed.

Lemma used_in_dice_In acc dice i :
  In i (used_in_dice acc dice) <-> In i acc \/ dice_mentions dice i.
Proof.
  unfold used_in_dice, dice_mentions. destruct (condition dice) as [c|].
  - rewrite !add_used_In. split.
    + intros [[[H | H] | H] | H]; auto; right; right; exists c; auto.
    + intros [H | [H | (c' & [= <-] & [H | H])]]; auto.
  - rewrite add_used_In. split.
    + intros [H | H]; auto.
    + intros [H | [H | (c' & Hc & _)]]; auto. discriminate Hc.
Qed.

Lemma fold_used_in_dice_In dices : forall acc i,
  In i (fold_left used_in_dice dices acc) <-> In i acc \/ used_in_dices dices i.
Proof.
  induction dices as [|dice dices IH]; intros acc i; simpl.
  - split; [auto | intros [H | (d & [] & _)]; exact H].
  - rewrite IH, used_in_dice_In. unfold used_in_dices. split.
    + intros [[H | H] | (d & Hd & Hm)]; auto.
      * right. exists dice. split; [now left | exact H].
      * right. exists d. split; [now right | exact Hm].
    + intros [H | (d & [<- | Hd] & Hm)]; auto.
      right. exists d. auto.
Qed.

Lemma getStatsUsedInDices_In dices i :
  In i (getStatsUsedInDices dices) <-> used_in_dices dices i.
Proof.
  unfold getStatsUsedInDices. rewrite fold_used_in_dice_In. simpl. tauto.
Qed.

Lemma replaceable_type_spec s : replaceable_type s = true <-> non_string_type s.
Proof.
  unfold replaceable_type, non_string_type.
  destruct (stat_type s); split; auto; discriminate.
Qed.

(** C8: the stats offered as a replacement key are exactly the stats of
    the schema whose id is referenced by a [<stat:ID:value>] token in a
    dice expression or in a side of its condition and whose type is
    numeric, boolean, enum or calculated; the stats offered as options are
    the stats of those four types; a stat of type string is in neither
    list. *)
Theorem replacement_keys_are_used_non_string_stats
    (stats_ : list Stats) (dices : list Dice) (s : Stats) :
  (In s (validKeyStats stats_ dices)
   <-> In s stats_ /\ used_in_dices dices (stat_id s) /\ non_string_type s)
  /\ (In s (validOptionStats stats_) <-> In s stats_ /\ non_string_type s)
  /\ (stat_type s = string_t ->
      ~ In s (validKeyStats stats_ dices) /\ ~ In s (validOptionStats stats_)).
Proof.
  assert (Hkey : In s (validKeyStats stats_ dices)
                 <-> In s stats_ /\ used_in_dices dices (stat_id s)
                     /\ non_string_type s).
  { unfold validKeyStats. rewrite filter_In, andb_true_iff, includes_In.
    now rewrite getStatsUsedInDices_In, replaceable_type_spec. }
  assert (Hopt : In s (validOptionStats stats_) <-> In s stats_ /\ non_string_type s).
  { unfold validOptionStats. now rewrite filter_In, replaceable_type_spec. }
  split; [exact Hkey |]. split; [exact Hopt |].
  intros Hs. rewrite Hkey, Hopt. unfold non_string_type. rewrite Hs. tauto.
Qed.

Lemma replacement_keys_are_used_non_string_stats_witness :
  ~ In (text_stat 3)
      (validKeyStats [numeric_stat 1 (Some 0) (Some 10); plain 2 "Treinado"; text_stat 3]
         attack_dices)
  /\ ~ In (text_stat 3)
        (validOptionStats [numeric_stat 1 (Some 0) (Some 10); plain 2 "Treinado"; text_stat 3]).
Proof.
  apply (replacement_keys_are_used_non_string_stats
           [numeric_stat 1 (Some 0) (Some 10); plain 2 "Treinado"; text_stat 3]
           attack_dices (text_stat 3)).
  reflexivity.
Defined.

Example replacement_keys_example :
  validKeyStats [numeric_stat 1 (Some 0) (Some 10); plain 2 "Treinado";
                 text_stat 3; plain 4 "Furtivo"] attack_dices
  = [numeric_stat 1 (Some 0) (Some 10); plain 2 "Treinado"].
Proof. vm_compute. reflexivity. Qed.

(* ================================================================== *)
(** * Printing and reading ids *)
(* ================================================================== *)

Lemma parse_uint_acc d : forall acc : positive,
  Js.parse_digits (Zpos acc) (NilEmpty.string_of_uint d)
  = Zpos (Pos.of_uint_acc d acc).
Proof.
  induction d as [|d IH|d IH|d IH|d IH|d IH|d IH|d IH|d IH|d IH|d IH];
    intros acc; simpl; [reflexivity | ..];
    rewrite <- IH; f_equal; unfold Js.digit_val;
    match goal with
    | |- context [Z.of_nat (nat_of_ascii ?c)] =>
        let v := eval vm_compute in (Z.of_nat (nat_of_ascii c)) in
        change (Z.of_nat (nat_of_ascii c)) with v
    end; lia.
Qed.

Lemma parse_uint d :
  Js.parse_digits 0 (NilEmpty.string_of_uint d) = Z.of_N (Pos.of_uint d).
Proof.
  induction d as [|d IH|d IH|d IH|d IH|d IH|d IH|d IH|d IH|d IH|d IH];
    simpl; [reflexivity | exact IH | ..];
    rewrite <- parse_uint_acc; reflexivity.
Qed.

Lemma uint_all_digits d : all_digits (NilEmpty.string_of_uint d) = true.
Proof.
  induction d as [|d IH|d IH|d IH|d IH|d IH|d IH|d IH|d IH|d IH|d IH];
    simpl; auto.
Qed.

Lemma String_of_Z_pos p :
  Js.String_of_Z (Zpos p) = NilEmpty.string_of_uint (Pos.to_uint p).
Proof.
  unfold Js.String_of_Z. simpl. unfold NilZero.string_of_uint.
  pose proof (DecimalPos.Unsigned.to_uint_nonnil p) as Hn.
  destruct (Pos.to_uint p); [now elim Hn | ..]; reflexivity.
Qed.

(** [parseInt(String(n)) = n] for every id that is not negative and
    below 2^53, where the source prints every digit, and what [String]
    prints is a non-empty run of digits. *)
Lemma parseInt_String_of_Z n :
  safe_id n ->
  Js.parseInt (Js.String_of_Z n) = n /\ token_id (Js.String_of_Z n).
Proof.
  intros [Hn _]. destruct n as [|p|p]; [| | lia].
  - split; [reflexivity | split; [discriminate | reflexivity]].
  - rewrite String_of_Z_pos. unfold Js.parseInt. rewrite parse_uint.
    rewrite DecimalPos.Unsigned.of_to. split; [reflexivity |].
    split; [| apply uint_all_digits].
    pose proof (DecimalPos.Unsigned.to_uint_nonnil p) as Hnil.
    destruct (Pos.to_uint p); [now elim Hnil | ..]; discriminate.
Qed.

Lemma dependencies_mentions formula i :
  In i (findStatDependencies formula) <-> mentions formula i.
Proof.
  rewrite findStatDependencies_eq, first_occurrences_In, in_map_iff.
  unfold mentions. split.
  - intros (d & <- & Hd). apply exec_stat_value_tokens in Hd
      as (pre & post & -> & Hne & Hdig).
    exists pre, d, post. auto.
  - intros (pre & d & post & -> & Hne & Hdig & <-).
    exists d. split; [reflexivity |]. apply exec_stat_value_tokens.
    exists pre, post. auto.
Qed.

(** A token printed for an id that is not negative and below 2^53
    mentions that id, whatever text stands around it. *)
Lemma printed_token_mentioned (n : Z) (pre post : string) :
  safe_id n ->
  mentions (pre ++ "<stat:" ++ Js.String_of_Z n ++ ":value>" ++ post) n.
Proof.
  intros Hn. destruct (parseInt_String_of_Z n Hn) as [Hp [Hne Hd]].
  exists pre, (Js.String_of_Z n), post. repeat split; auto.
  unfold stat_value_token. now rewrite !app_assoc_str.
Qed.

(* ================================================================== *)
(** * The structure of the report *)
(* ================================================================== *)

Lemma push_if_app c e (a b : list ValidationError) :
  push_if c e (a ++ b) = (a ++ push_if c e b)%list.
Proof. unfold push_if. destruct c; [now rewrite app_assoc | reflexivity]. Qed.

Lemma push_if_from_nil c e (a : list ValidationError) :
  push_if c e a = (a ++ push_if c e [])%list.
Proof. rewrite <- push_if_app. now rewrite app_nil_r. Qed.

Lemma push_if_nil c e : push_if c e [] = [] <-> c = false.
Proof. unfold push_if. destruct c; simpl; split; congruence. Qed.

Lemma app_nil_iff {A} (a b : list A) : (a ++ b)%list = [] <-> a = [] /\ b = [].
Proof.
  split; [apply app_eq_nil | intros [-> ->]; reflexivity].
Qed.

Lemma forEach_options idx l : forall j seen a,
  snd (forEach (check_option idx) j l (seen, a))
  = (a ++ seen_entries opt_value
            (fun j o => OptionDuplicateValue idx j (opt_value o))
            (option_own_entries idx) seen j l)%list.
Proof.
  induction l as [|o l IH]; intros j seen a; simpl.
  - now rewrite app_nil_r.
  - rewrite IH. unfold option_own_entries.
    rewrite (push_if_from_nil _ (OptionNameRequired idx j)).
    rewrite (push_if_from_nil _ (OptionDuplicateValue idx j (opt_value o))).
    unfold push_if at 2. rewrite <- !app_assoc.
    destruct (bool_decide (opt_value o ∈ seen)); reflexivity.
Qed.

Lemma forEach_dependencies allStats idx l : forall j a,
  forEach (check_dependency allStats idx) j l a
  = (a ++ forEach (check_dependency allStats idx) j l [])%list.
Proof.
  induction l as [|d l IH]; intros j a; simpl.
  - now rewrite app_nil_r.
  - rewrite IH. rewrite (IH _ (check_dependency allStats idx [] j d)).
    rewrite app_assoc. f_equal. unfold check_dependency.
    destruct (find_stat allStats d) as [dep|]; [| reflexivity].
    destruct (is_string dep); simpl; now rewrite ?app_nil_r.
Qed.

Lemma check_variant_from_nil allStats idx s a :
  check_variant allStats idx s a = (a ++ check_variant allStats idx s [])%list.
Proof.
  unfold check_variant.
  destruct (stat_type s) as [[lo|] [hi|] | [l | r] | | | f];
    try now rewrite app_nil_r.
  - apply push_if_from_nil.
  - rewrite !forEach_options. rewrite (push_if_from_nil _ _ a).
    now rewrite <- app_assoc.
  - rewrite forEach_dependencies.
    rewrite (forEach_dependencies _ _ _ _ (push_if _ _ (push_if _ _ []))).
    rewrite app_assoc. f_equal.
    rewrite (push_if_from_nil _ (FormulaCircular idx)).
    rewrite (push_if_from_nil _ (FormulaRequired idx) a).
    rewrite (push_if_from_nil _ (FormulaCircular idx) (push_if _ _ [])).
    now rewrite <- !app_assoc.
Qed.

Lemma forEach_stats allStats l : forall idx ids a,
  snd (forEach (check_stat allStats) idx l (ids, a))
  = (a ++ seen_entries stat_id (fun idx s => StatDuplicateId idx (stat_id s))
            (stat_own_entries allStats) ids idx l)%list.
Proof.
  induction l as [|s l IH]; intros idx ids a; simpl.
  - now rewrite app_nil_r.
  - rewrite IH. unfold stat_own_entries.
    rewrite check_variant_from_nil.
    rewrite (check_variant_from_nil _ _ _ (push_if _ _ [])).
    rewrite (push_if_from_nil _ (StatNameRequired idx)).
    rewrite (push_if_from_nil _ (StatDuplicateId idx (stat_id s))).
    unfold push_if at 2. rewrite <- !app_assoc.
    destruct (bool_decide (stat_id s ∈ ids)); reflexivity.
Qed.

Lemma forEach_sections l : forall i ids a,
  snd (forEach check_section i l (ids, a))
  = (a ++ seen_entries sec_id (fun i sec => SectionDuplicateId i (sec_id sec))
            section_own_entries ids i l)%list.
Proof.
  induction l as [|sec l IH]; intros i ids a; simpl.
  - now rewrite app_nil_r.
  - rewrite IH. unfold section_own_entries.
    rewrite (push_if_from_nil _ (SectionPreviewTypeRequired i)).
    rewrite (push_if_from_nil _ (SectionPreviewTypeRequired i) (push_if _ _ [])).
    rewrite (push_if_from_nil _ (SectionNameRequired i)).
    rewrite (push_if_from_nil _ (SectionDuplicateId i (sec_id sec))).
    unfold push_if at 3. rewrite <- !app_assoc.
    destruct (bool_decide (sec_id sec ∈ ids)); reflexivity.
Qed.

(** No check is skipped and none depends on what was reported before:
    the report is the top-level entries, then for each stat in order its
    duplicate-id entry and its own entries, then the same for each
    section. *)
Lemma validate_errors_report cfg allStats secs :
  let system := {| config := cfg; stats := IsArray allStats;
                   sections := IsArray secs |} in
  validate_errors system = Returns (report system allStats secs)
  /\ validate system = Returns (map message (report system allStats secs)).
Proof.
  intros system.
  assert (E : validate_errors system = Returns (report system allStats secs)).
  { unfold validate_errors, report. simpl.
    rewrite forEach_sections, forEach_stats. now rewrite <- app_assoc. }
  split; [exact E |]. unfold validate. now rewrite E.
Qed.

(* ================================================================== *)
(** * An empty report *)
(* ================================================================== *)

Section SeenLoop.
Context {A : Type}.
Variable key : A -> Z.
Variable dup : nat -> A -> ValidationError.
Variable own : nat -> A -> list ValidationError.

Lemma seen_entries_nil l : forall seen idx,
  seen_entries key dup own seen idx l = [] <->
  (forall x, In x l -> key x ∉ seen)
  /\ List.NoDup (map key l)
  /\ (forall i x, l !! i = Some x -> own (idx + i)%nat x = []).
Proof.
  induction l as [|x l IH]; intros seen idx; simpl.
  - split; [intros _ | reflexivity].
    split; [intros ? [] |]. split; [constructor | intros i y Hi; discriminate Hi].
  - rewrite !app_nil_iff, IH. split.
    + intros (Hdup & Hown & Hseen & Hnd & Hrest).
      assert (Hx : key x ∉ seen).
      { destruct (bool_decide (key x ∈ seen)) eqn:E; [discriminate Hdup |].
        now apply bool_decide_eq_false in E. }
      split; [| split].
      * intros y [<- | Hy]; [exact Hx |].
        intros Hin. apply (Hseen y Hy). now apply elem_of_union_l.
      * constructor; [| exact Hnd].
        intros Hin. apply in_map_iff in Hin as (y & Hk & Hy).
        apply (Hseen y Hy). apply elem_of_union_r. now apply elem_of_singleton.
      * intros [|i] y Hi; simpl in Hi.
        -- injection Hi as <-. now rewrite Nat.add_0_r.
        -- replace (idx + S i)%nat with (S idx + i)%nat by lia. now apply Hrest.
    + intros (Hseen & Hnd & Hown). inversion Hnd as [|? ? Hx Hnd']; subst.
      split; [| split; [| split; [| split]]].
      * rewrite bool_decide_eq_false_2; [reflexivity |].
        apply Hseen. now left.
      * specialize (Hown 0%nat x eq_refl). now rewrite Nat.add_0_r in Hown.
      * intros y Hy [Hin | Hin%elem_of_singleton]%elem_of_union.
        -- apply (Hseen y); [now right | exact Hin].
        -- apply Hx. rewrite <- Hin. now apply in_map.
      * exact Hnd'.
      * intros i y Hi. replace (S idx + i)%nat with (idx + S i)%nat by lia.
        now apply Hown.
Qed.

(** Membership in the entries of such a loop. *)
Lemma seen_entries_In e l : forall seen idx,
  In e (seen_entries key dup own seen idx l) <->
  exists i x, l !! i = Some x
    /\ ((e = dup (idx + i)%nat x
         /\ (key x ∈ seen \/ In (key x) (map key (take i l))))
        \/ In e (own (idx + i)%nat x)).
Proof.
  induction l as [|x l IH]; intros seen idx; simpl.
  - split; [intros [] | intros (i & y & Hi & _); discriminate Hi].
  - rewrite !in_app_iff, IH. split.
    + intros [Hd | [Ho | (i & y & Hi & Hcase)]].
      * exists 0%nat, x. split; [reflexivity |]. left.
        destruct (bool_decide (key x ∈ seen)) eqn:E; [| contradiction Hd].
        apply bool_decide_eq_true in E. destruct Hd as [<- | []].
        rewrite Nat.add_0_r. auto.
      * exists 0%nat, x. split; [reflexivity |]. right. now rewrite Nat.add_0_r.
      * exists (S i), y. split; [exact Hi |].
        replace (idx + S i)%nat with (S idx + i)%nat by lia.
        destruct Hcase as [[-> Hk] | Ho]; [left | now right].
        split; [reflexivity |]. simpl.
        destruct Hk as [[Hk | Hk%elem_of_singleton]%elem_of_union | Hk]; auto.
    + intros ([|i] & y & Hi & Hcase); simpl in Hi.
      * injection Hi as <-. rewrite Nat.add_0_r in Hcase.
        destruct Hcase as [[-> [Hk | []]] | Ho]; [left | right; now left].
        rewrite bool_decide_eq_true_2 by exact Hk. now left.
      * right. right. exists i, y. split; [exact Hi |].
        replace (S idx + i)%nat with (idx + S i)%nat by lia.
        destruct Hcase as [[-> Hk] | Ho]; [left | now right].
        split; [reflexivity |]. simpl in Hk.
        destruct Hk as [Hk | [Hk | Hk]]; auto.
        -- left. now apply elem_of_union_l.
        -- left. apply elem_of_union_r. now apply elem_of_singleton.
Qed.
End SeenLoop.

Lemma In_lookup {A} (x : A) (l : list A) : In x l <-> exists i, l !! i = Some x.
Proof. rewrite <- list_elem_of_In. apply list_elem_of_lookup. Qed.

Lemma detector_spec id formula allStats :
  hasCircularDependency id formula allStats = true
  <-> reaches_cycle id formula allStats.
Proof.
  rewrite <- closes_iff_reaches_cycle.
  destruct (root_result id formula allStats 0) as (b & P' & Hr & Hb).
  unfold hasCircularDependency, hasCircularDependency_fuel.
  rewrite Nat.add_0_r in Hr. rewrite Hr. exact Hb.
Qed.

Lemma is_string_false s : is_string s = false <-> stat_type s <> string_t.
Proof.
  unfold is_string. destruct (stat_type s); split; congruence.
Qed.

Lemma dependency_entries_nil allStats idx l : forall j,
  forEach (check_dependency allStats idx) j l [] = [] <->
  forall d, In d l ->
    exists dep, find_stat allStats d = Some dep /\ stat_type dep <> string_t.
Proof.
  induction l as [|d l IH]; intros j; simpl.
  - split; [intros _ ? [] | reflexivity].
  - rewrite forEach_dependencies, app_nil_iff, IH. unfold check_dependency.
    split.
    + intros [Hd Hl] d' [<- | Hin]; [| now apply Hl].
      destruct (find_stat allStats d) as [dep|]; [| discriminate Hd].
      exists dep. split; [reflexivity |]. apply is_string_false.
      destruct (is_string dep); [discriminate Hd | reflexivity].
    + intros H. split; [| intros d' Hd'; apply H; now right].
      destruct (H d (or_introl eq_refl)) as (dep & -> & Hs).
      apply is_string_false in Hs. now rewrite Hs.
Qed.

Lemma option_own_entries_nil idx j o :
  option_own_entries idx j o = [] <-> option_ok o.
Proof.
  unfold option_own_entries, option_ok, has_default_name.
  rewrite push_if_nil, negb_false_iff. reflexivity.
Qed.

Lemma variant_entries_nil allStats idx s :
  check_variant allStats idx s [] = [] <-> variant_ok allStats s.
Proof.
  unfold check_variant, variant_ok.
  destruct (stat_type s) as [[lo|] [hi|] | [l | r] | | | f]; try tauto.
  - rewrite push_if_nil, Z.ltb_ge. reflexivity.
  - rewrite forEach_options, app_nil_iff, push_if_nil, Nat.ltb_ge.
    rewrite seen_entries_nil. split.
    + intros (Hlen & _ & Hnd & Hown). split; [exact Hlen |]. split; [exact Hnd |].
      apply List.Forall_forall. intros o Ho.
      apply In_lookup in Ho as [i Hi].
      apply (option_own_entries_nil idx (0 + i) o), (Hown i o Hi).
    + intros (Hlen & Hnd & Hok). split; [exact Hlen |].
      split; [intros o _; apply not_elem_of_empty |]. split; [exact Hnd |].
      intros i o Hi. apply option_own_entries_nil.
      rewrite List.Forall_forall in Hok. apply Hok.
      apply In_lookup. eauto.
  - rewrite forEach_dependencies, app_nil_iff, dependency_entries_nil.
    rewrite (push_if_from_nil _ (FormulaCircular idx)), app_nil_iff.
    rewrite !push_if_nil. rewrite String.eqb_neq.
    split.
    + intros [[Hf Hc] Hd]. split; [exact Hf |].
      apply String.eqb_neq in Hf. rewrite Hf in Hc. simpl in Hc.
      split.
      * intros Hcyc. apply detector_spec in Hcyc. congruence.
      * intros d Hm. apply Hd. now apply dependencies_mentions.
    + intros (Hf & Hc & Hd). split; [split; [exact Hf |] |].
      * apply String.eqb_neq in Hf. rewrite Hf. simpl.
        destruct (hasCircularDependency (stat_id s) f allStats) eqn:E;
          [| reflexivity].
        apply detector_spec in E. contradiction.
      * intros d Hin. apply Hd. now apply dependencies_mentions.
Qed.

Lemma stat_own_entries_nil allStats idx s :
  stat_own_entries allStats idx s = [] <-> stat_ok allStats s.
Proof.
  unfold stat_own_entries, stat_ok, has_default_name.
  rewrite check_variant_from_nil, app_nil_iff, push_if_nil, negb_false_iff.
  now rewrite variant_entries_nil.
Qed.

Lemma section_own_entries_nil i sec :
  section_own_entries i sec = [] <-> section_ok sec.
Proof.
  unfold section_own_entries, section_ok, has_default_name.
  rewrite push_if_from_nil, app_nil_iff, !push_if_nil, !negb_false_iff.
  reflexivity.
Qed.

Lemma toplevel_entries_nil cfg allStats secs :
  check_toplevel {| config := cfg; stats := IsArray allStats;
                    sections := IsArray secs |} = []
  <-> config_ok cfg.
Proof.
  unfold check_toplevel, config_ok, has_default_name. simpl.
  destruct cfg as [c|]; simpl.
  - destruct (cfg_id c) as [i|] eqn:Ei; simpl.
    + destruct (truthy (loc_get (cfg_name c) "default")) eqn:E; simpl.
      * split; [intros _; exists c, i; auto | reflexivity].
      * split; [discriminate | intros (c' & i' & [= <-] & _ & H); congruence].
    + split.
      * destruct (truthy (loc_get (cfg_name c) "default")); discriminate.
      * intros (c' & i' & [= <-] & H & _). congruence.
  - split; [discriminate | intros (c' & i' & H & _); discriminate H].
Qed.

Lemma map_nil_iff {A B} (f : A -> B) (l : list A) : map f l = [] <-> l = [].
Proof. destruct l; simpl; split; congruence. Qed.

Lemma own_entries_Forall {A} (own : nat -> A -> list ValidationError)
    (ok : A -> Prop) (l : list A) :
  (forall i x, own i x = [] <-> ok x) ->
  (forall i x, l !! i = Some x -> own (0 + i)%nat x = []) <-> Forall ok l.
Proof.
  intros Hown. rewrite List.Forall_forall. split.
  - intros H x Hx. apply In_lookup in Hx as [i Hi].
    apply (Hown (0 + i)%nat), (H i x Hi).
  - intros H i x Hi. apply Hown, H, In_lookup. eauto.
Qed.

Lemma validate_empty_iff (system : RPGSystem) :
  validate system = Returns [] <-> well_formed system.
Proof.
  destruct system as [cfg [|allStats] [|secs]];
    try (split; [discriminate | intros (l & s & H1 & H2 & _); discriminate]).
  destruct (validate_errors_report cfg allStats secs) as [_ ->].
  unfold well_formed, report. simpl. split.
  - intros [= H]. apply map_nil_iff in H.
    apply app_nil_iff in H as [Hc H]. apply app_nil_iff in H as [Hs Hx].
    apply seen_entries_nil in Hs as (_ & Hnd & Hown).
    apply seen_entries_nil in Hx as (_ & Hnd' & Hown').
    exists allStats, secs. split; [reflexivity |]. split; [reflexivity |].
    split; [now apply toplevel_entries_nil in Hc |].
    split; [exact Hnd |].
    split; [now apply (own_entries_Forall _ _ _ (stat_own_entries_nil allStats)) |].
    split; [exact Hnd' |].
    now apply (own_entries_Forall _ _ _ section_own_entries_nil).
  - intros (l & s & [= <-] & [= <-] & Hc & Hnd & Hok & Hnd' & Hok').
    f_equal. apply map_nil_iff.
    apply app_nil_iff. split; [now apply toplevel_entries_nil |].
    apply app_nil_iff. split; apply seen_entries_nil.
    + split; [intros x _; apply not_elem_of_empty |]. split; [exact Hnd |].
      now apply (own_entries_Forall _ _ _ (stat_own_entries_nil allStats)).
    + split; [intros x _; apply not_elem_of_empty |]. split; [exact Hnd' |].
      now apply (own_entries_Forall _ _ _ section_own_entries_nil).
Qed.

(** X1: the report is empty exactly for a well-formed schema: both fields
    are arrays, the configuration has an id and a default name, the ids of
    the stats are pairwise distinct and so are those of the sections, and
    every stat and section passes its own checks (for a calculated stat: a
    non-empty formula from which no cycle can be reached and whose
    [<stat:ID:value>] tokens all name existing stats that are not of type
    string). *)
Theorem validate_empty_iff_well_formed (system : RPGSystem) :
  validate system = Returns [] <-> well_formed system.
Proof. apply validate_empty_iff. Qed.

(* ================================================================== *)
(** * Exactly which entries are reported *)
(* ================================================================== *)

Lemma push_if_In c e' e (a : list ValidationError) :
  In e (push_if c e' a) <-> In e a \/ (c = true /\ e = e').
Proof.
  unfold push_if. destruct c.
  - rewrite in_app_iff. simpl. split.
    + intros [H | [<- | []]]; auto.
    + intros [H | [_ ->]]; auto.
  - split; [auto | intros [H | [H _]]; [exact H | discriminate H]].
Qed.

Lemma not_truthy_iff name :
  negb (truthy (loc_get name "default")) = true <-> ~ has_default_name name.
Proof.
  unfold has_default_name. destruct (truthy _); simpl; split; congruence.
Qed.

Lemma dependency_entries_In allStats idx e l : forall j,
  In e (forEach (check_dependency allStats idx) j l []) <->
  exists d, In d l /\
    ((find_stat allStats d = None /\ e = FormulaMissingStat idx d)
     \/ exists dep, find_stat allStats d = Some dep /\ stat_type dep = string_t
                    /\ e = FormulaStringStat idx d).
Proof.
  induction l as [|d l IH]; intros j; simpl.
  - split; [intros [] | intros (d & [] & _)].
  - rewrite forEach_dependencies, in_app_iff, IH. unfold check_dependency. split.
    + intros [Hd | (d' & Hin & Hcase)].
      * exists d. split; [now left |].
        destruct (find_stat allStats d) as [dep|] eqn:E.
        -- right. exists dep. unfold is_string in Hd.
           destruct (stat_type dep) eqn:Et; try contradiction Hd.
           destruct Hd as [<- | []]. auto.
        -- left. destruct Hd as [<- | []]. auto.
      * exists d'. split; [now right | exact Hcase].
    + intros (d' & [<- | Hin] & Hcase); [left | right; eauto].
      destruct Hcase as [[-> ->] | (dep & -> & Ht & ->)]; [now left |].
      unfold is_string. rewrite Ht. now left.
Qed.

Lemma option_entries_In idx e (l : list StatsEnumOption) :
  In e (seen_entries opt_value
          (fun j o => OptionDuplicateValue idx j (opt_value o))
          (option_own_entries idx) ∅ 0 l) <->
  exists j o, l !! j = Some o /\
    ((e = OptionDuplicateValue idx j (opt_value o)
      /\ In (opt_value o) (map opt_value (take j l)))
     \/ (e = OptionNameRequired idx j /\ ~ option_ok o)).
Proof.
  rewrite seen_entries_In. simpl. split.
  - intros (j & o & Hj & [[-> [Hk | Hk]] | Ho]).
    + now apply not_elem_of_empty in Hk.
    + exists j, o. auto.
    + exists j, o. split; [exact Hj |]. right.
      unfold option_own_entries in Ho. apply push_if_In in Ho as [[] | [Hc ->]].
      split; [reflexivity |]. now apply not_truthy_iff.
  - intros (j & o & Hj & [[-> Hk] | [-> Ho]]); exists j, o; (split; [exact Hj |]).
    + left. auto.
    + right. unfold option_own_entries. apply push_if_In. right.
      split; [now apply not_truthy_iff | reflexivity].
Qed.

Lemma variant_entries_In allStats i s e :
  In e (check_variant allStats i s []) <->
  stat_entry allStats i s e /\ e <> StatNameRequired i.
Proof.
  unfold check_variant. split.
  - destruct (stat_type s) as [[lo|] [hi|] | [l | r] | | | f] eqn:Et;
      try (intros []).
    + intros [[] | [Hc ->]]%push_if_In. apply Z.ltb_lt in Hc.
      split; [now apply entry_range with lo hi | discriminate].
    + rewrite forEach_options, in_app_iff, push_if_In, option_entries_In.
      intros [[[] | [Hc ->]] | (j & o & Hj & [[-> Hk] | [-> Ho]])].
      * apply Nat.ltb_lt in Hc. split; [now apply entry_limit | discriminate].
      * split; [now apply entry_option_value with l | discriminate].
      * split; [now apply entry_option_name with l o | discriminate].
    + rewrite forEach_dependencies, in_app_iff, !push_if_In, dependency_entries_In.
      intros [[[[] | [Hc ->]] | [Hc ->]] | (d & Hd & Hcase)].
      * apply String.eqb_eq in Hc. subst f.
        split; [now apply entry_formula_required | discriminate].
      * apply andb_true_iff in Hc as [Hf Hc]. apply negb_true_iff in Hf.
        apply String.eqb_neq in Hf. apply detector_spec in Hc.
        split; [now apply entry_circular with f | discriminate].
      * apply dependencies_mentions in Hd.
        destruct Hcase as [[Hf ->] | (dep & Hf & Hs & ->)].
        -- split; [now apply entry_missing with f | discriminate].
        -- split; [now apply entry_string with f dep | discriminate].
  - intros [H Hne]. destruct H as [Hn | lo hi Et Hlt | l Et Hlen | l j o Et Hj Hk
      | l j o Et Hj Ho | Et | f Et Hf Hc | f d Et Hm Hd | f d dep Et Hm Hd Hs].
    + now elim Hne.
    + rewrite Et. apply push_if_In. right. split; [now apply Z.ltb_lt | reflexivity].
    + rewrite Et, forEach_options, in_app_iff, push_if_In. left. right.
      split; [now apply Nat.ltb_lt | reflexivity].
    + rewrite Et, forEach_options, in_app_iff, option_entries_In. right.
      exists j, o. auto.
    + rewrite Et, forEach_options, in_app_iff, option_entries_In. right.
      exists j, o. auto.
    + rewrite Et, forEach_dependencies, in_app_iff, !push_if_In. left. left. right.
      split; reflexivity.
    + rewrite Et, forEach_dependencies, in_app_iff, !push_if_In. left. right.
      split; [| reflexivity]. apply andb_true_iff. split.
      * apply negb_true_iff. now apply String.eqb_neq.
      * now apply detector_spec.
    + rewrite Et, forEach_dependencies, in_app_iff, dependency_entries_In. right.
      exists d. split; [now apply dependencies_mentions | auto].
    + rewrite Et, forEach_dependencies, in_app_iff, dependency_entries_In. right.
      exists d. split; [now apply dependencies_mentions |]. right. eauto.
Qed.

Lemma entry_name_dec i e : e = StatNameRequired i \/ e <> StatNameRequired i.
Proof.
  destruct e; try (right; discriminate).
  destruct (Nat.eq_dec idx i) as [-> | Hne]; [now left | right; congruence].
Qed.

Lemma stat_own_entries_In allStats i s e :
  In e (stat_own_entries allStats i s) <-> stat_entry allStats i s e.
Proof.
  unfold stat_own_entries. rewrite check_variant_from_nil, in_app_iff.
  rewrite push_if_In, variant_entries_In, not_truthy_iff. split.
  - intros [[[] | [Hn ->]] | [H _]]; [now apply entry_name | exact H].
  - intros H. destruct (entry_name_dec i e) as [-> | Hne]; [| right; auto].
    left. right. split; [| reflexivity]. now inversion H.
Qed.

Lemma section_own_entries_In i sec e :
  In e (section_own_entries i sec) <->
  (e = SectionNameRequired i /\ ~ has_default_name (sec_name sec))
  \/ (e = SectionPreviewTypeRequired i /\ truthy (sec_preview_type sec) = false).
Proof.
  unfold section_own_entries. rewrite !push_if_In, not_truthy_iff, negb_true_iff.
  simpl. tauto.
Qed.

Lemma toplevel_entries_In cfg allStats secs e :
  In e (check_toplevel {| config := cfg; stats := IsArray allStats;
                          sections := IsArray secs |}) <->
  (e = ConfigIdRequired /\ forall c, cfg = Some c -> cfg_id c = None)
  \/ (e = ConfigNameRequired
      /\ forall c, cfg = Some c -> ~ has_default_name (cfg_name c)).
Proof.
  unfold check_toplevel. simpl. rewrite !push_if_In.
  unfold has_default_name. simpl. split.
  - intros [[[] | [Hc ->]] | [Hc ->]].
    + left. split; [reflexivity |]. intros c ->. now destruct (cfg_id c).
    + right. split; [reflexivity |]. intros c ->.
      apply negb_true_iff in Hc. congruence.
  - intros [[-> H] | [-> H]].
    + left. right. split; [| reflexivity]. destruct cfg as [c|]; [| reflexivity].
      now rewrite (H c eq_refl).
    + right. split; [| reflexivity]. destruct cfg as [c|]; [| reflexivity].
      apply negb_true_iff. specialize (H c eq_refl).
      now destruct (truthy (loc_get (cfg_name c) "default")).
Qed.

Lemma report_In cfg allStats secs e :
  exists errs,
    validate_errors {| config := cfg; stats := IsArray allStats;
                       sections := IsArray secs |} = Returns errs
    /\ (In e errs <-> reported cfg allStats secs e).
Proof.
  destruct (validate_errors_report cfg allStats secs) as [E _].
  eexists. split; [exact E |]. unfold report.
  rewrite !in_app_iff, toplevel_entries_In, !seen_entries_In. split.
  - intros [[[-> H] | [-> H]] | [(i & s & Hi & Hcase) | (i & sec & Hi & Hcase)]].
    + now apply reported_config_id.
    + now apply reported_config_name.
    + simpl in Hcase. destruct Hcase as [[-> [Hk | Hk]] | Ho].
      * now apply not_elem_of_empty in Hk.
      * now apply reported_stat_id.
      * apply reported_stat with i s; [exact Hi |]. now apply stat_own_entries_In.
    + simpl in Hcase. destruct Hcase as [[-> [Hk | Hk]] | Ho].
      * now apply not_elem_of_empty in Hk.
      * now apply reported_section_id.
      * apply section_own_entries_In in Ho as [[-> H] | [-> H]].
        -- now apply reported_section_name with sec.
        -- now apply reported_section_preview with sec.
  - intros [H | H | i s Hi Hk | i s e' Hi He | i sec Hi Hk | i sec Hi Hn
            | i sec Hi Hp].
    + left. left. auto.
    + left. right. auto.
    + right. left. exists i, s. split; [exact Hi |]. left. auto.
    + right. left. exists i, s. split; [exact Hi |]. right.
      now apply stat_own_entries_In.
    + right. right. exists i, sec. split; [exact Hi |]. left. auto.
    + right. right. exists i, sec. split; [exact Hi |]. right.
      apply section_own_entries_In. auto.
    + right. right. exists i, sec. split; [exact Hi |]. right.
      apply section_own_entries_In. auto.
Qed.

(** X2: the validator reports an entry exactly when its condition holds:
    the report of a schema with array fields holds an entry if and only
    if the entry is one of those listed by [reported]. *)
Theorem validate_reports_exactly cfg allStats secs e :
  exists errs,
    validate_errors {| config := cfg; stats := IsArray allStats;
                       sections := IsArray secs |} = Returns errs
    /\ (In e errs <-> reported cfg allStats secs e).
Proof. apply report_In. Qed.

(* ================================================================== *)
(** * More on the cycle detector *)
(* ================================================================== *)

(** X3: a formula that mentions its own stat is always found circular,
    whatever the other stats are. *)
Theorem self_reference_always_circular id formula allStats :
  mentions formula id -> hasCircularDependency id formula allStats = true.
Proof.
  intros Hm. apply detector_spec. exists id. split; [apply rtc_refl |].
  apply tc_once. exists formula. split; [apply fat_target |].
  now apply dependencies_mentions.
Qed.

Lemma self_reference_always_circular_witness :
  hasCircularDependency 5 ("1 + " ++ stat_value_token "5" ++ " * 2") [] = true.
Proof.
  apply self_reference_always_circular.
  exists "1 + ", "5", " * 2". repeat split; [discriminate].
Defined.

Lemma tc_first_step {A} (R : relation A) a b :
  tc R a b -> exists c, R a c /\ rtc R c b.
Proof.
  intros H. destruct H as [a b H | a c b H Hcb].
  - exists b. split; [exact H | apply rtc_refl].
  - exists c. split; [exact H | now apply tc_rtc].
Qed.

(** X4: a formula that mentions neither its own stat nor any calculated
    stat is never found circular; in particular a formula without tokens
    never is. *)
Theorem formula_over_plain_stats_never_circular id formula allStats :
  (forall d, mentions formula d -> d <> id /\ stored_formula allStats d = None) ->
  hasCircularDependency id formula allStats = false.
Proof.
  intros Hplain.
  destruct (hasCircularDependency id formula allStats) eqn:E; [| reflexivity].
  exfalso. apply detector_spec in E as (v & Hv & Hcyc).
  assert (Hroot : forall b, refers id formula allStats id b -> mentions formula b).
  { intros b (f & Hf & Hb). rewrite fat_target in Hf. injection Hf as <-.
    now apply dependencies_mentions. }
  assert (Hleaf : forall d b, mentions formula d -> ~ refers id formula allStats d b).
  { intros d b Hd (f & Hf & _). destruct (Hplain d Hd) as [Hne Hs].
    unfold formula_at in Hf. destruct (Z.eqb_spec d id); congruence. }
  assert (Hstay : forall d w, mentions formula d ->
                               rtc (refers id formula allStats) d w -> w = d).
  { intros d w Hd Hw. apply rtc_inv in Hw as [-> | (y & Hy & _)]; [reflexivity |].
    now elim (Hleaf d y Hd). }
  apply tc_first_step in Hcyc as (c & Hvc & Hcv).
  apply rtc_inv in Hv as [<- | (d & Hd & Hdv)].
  - apply Hroot in Hvc. apply (Hstay c id Hvc) in Hcv. subst c.
    now destruct (Hplain id Hvc).
  - apply Hroot in Hd. apply (Hstay d v Hd) in Hdv. subst v.
    now elim (Hleaf d c Hd).
Qed.

Lemma formula_over_plain_stats_never_circular_witness :
  hasCircularDependency 5 "<stat:1:value> + 2"
    [numeric_stat 1 (Some 0) (Some 10); calc 5 "1"] = false.
Proof.
  apply formula_over_plain_stats_never_circular.
  intros d Hd. apply dependencies_mentions in Hd. vm_compute in Hd.
  destruct Hd as [<- | []]. split; [lia | reflexivity].
Defined.

Lemma find_stat_insert_same_id l : forall idx v v' n,
  l !! idx = Some v -> stat_id v' = stat_id v -> stat_id v <> n ->
  find_stat (<[idx := v']> l) n = find_stat l n.
Proof.
  unfold find_stat.
  induction l as [|x l IH]; intros idx v v' n Hi Hid Hn; [discriminate |].
  destruct idx as [|idx]; simpl in *.
  - injection Hi as ->. 
    destruct (Z.eqb_spec (stat_id v') n) as [E | _]; [congruence |].
    destruct (Z.eqb_spec (stat_id v) n) as [E | _]; [congruence | reflexivity].
  - destruct (stat_id x =? n); [reflexivity |]. now apply IH with v.
Qed.

Lemma tc_sub {A} (R1 R2 : relation A) :
  (forall x y, R1 x y -> R2 x y) -> forall a b, tc R1 a b -> tc R2 a b.
Proof.
  intros Hsub a b H. induction H as [a b H | a c b H _ IH].
  - apply tc_once. now apply Hsub.
  - eapply tc_l; [apply Hsub; exact H | exact IH].
Qed.

Lemma reaches_cycle_ext id formula l l' :
  (forall a b, refers id formula l a b <-> refers id formula l' a b) ->
  reaches_cycle id formula l -> reaches_cycle id formula l'.
Proof.
  intros Hext (v & Hv & Hc). exists v. split.
  - eapply rtc_subrel; [| exact Hv]. intros a b. apply Hext.
  - eapply tc_sub; [| exact Hc]. intros a b. apply Hext.
Qed.

Lemma prospective_check_eq
    (allStats : list Stats) (idx : nat) (value : Stats) (formula : string) :
  allStats !! idx = Some value ->
  hasCircularDependency (stat_id value) formula
    (updateStat allStats idx (with_formula value formula))
  = hasCircularDependency (stat_id value) formula allStats.
Proof.
  intros Hi.
  assert (Hext : forall a b,
    refers (stat_id value) formula
      (updateStat allStats idx (with_formula value formula)) a b
    <-> refers (stat_id value) formula allStats a b).
  { intros a b. unfold refers, formula_at, stored_formula, updateStat.
    destruct (Z.eqb_spec a (stat_id value)) as [-> | Hne]; [reflexivity |].
    rewrite (find_stat_insert_same_id allStats idx value); auto. }
  destruct (hasCircularDependency (stat_id value) formula allStats) eqn:E.
  - apply detector_spec. apply detector_spec in E.
    eapply reaches_cycle_ext; [| exact E]. intros a b. symmetry. apply Hext.
  - destruct (hasCircularDependency _ _ (updateStat _ _ _)) eqn:E'; [| reflexivity].
    apply detector_spec in E'. apply (reaches_cycle_ext _ _ _ _ Hext) in E'.
    apply detector_spec in E'. congruence.
Qed.

(** X5: the check made before an edit agrees with the check made after it:
    testing a proposed formula against the schema gives the same answer
    as testing it once it is stored in the stat. *)
Theorem prospective_check_agrees_with_committed
    (allStats : list Stats) (idx : nat) (value : Stats) (formula : string) :
  allStats !! idx = Some value ->
  hasCircularDependency (stat_id value) formula
    (updateStat allStats idx (with_formula value formula))
  = hasCircularDependency (stat_id value) formula allStats.
Proof. apply prospective_check_eq. Qed.

Lemma prospective_check_agrees_with_committed_witness :
  hasCircularDependency (stat_id (calc 2 "1")) "<stat:1:value>"
    (updateStat [calc 1 "<stat:2:value>"; calc 2 "1"] 1
       (with_formula (calc 2 "1") "<stat:1:value>"))
  = hasCircularDependency (stat_id (calc 2 "1")) "<stat:1:value>"
      [calc 1 "<stat:2:value>"; calc 2 "1"].
Proof.
  apply prospective_check_agrees_with_committed. reflexivity.
Defined.

(** X6: a formula the modal editor accepts is not reported circular by
    the validator once it is stored. *)
Theorem accepted_formula_is_not_reported
    (cfg : option Config) (allStats : list Stats) (secs : list Section_)
    (idx : nat) (value : Stats) (formula : string) :
  allStats !! idx = Some value ->
  toasted (confirmFormula value allStats formula)
    = Some (toast_success "Fórmula atualizada!") ->
  exists errs,
    validate_errors
      {| config := cfg;
         stats := IsArray (commit allStats idx (confirmFormula value allStats formula));
         sections := IsArray secs |} = Returns errs
    /\ ~ In (FormulaCircular idx) errs.
Proof.
  intros Hi Hok. unfold confirmFormula in *.
  destruct (hasCircularDependency (stat_id value) formula allStats) eqn:E;
    [discriminate Hok |].
  unfold commit. simpl.
  destruct (report_In cfg
              (updateStat allStats idx (with_formula value formula)) secs
              (FormulaCircular idx)) as (errs & Hv & Hin).
  exists errs. split; [exact Hv |]. rewrite Hin. intros H.
  inversion H as [| | | i s e Hs He | | |]; subst.
  inversion He as [| | | | | | f Et Hf Hc | |]; subst.
  unfold updateStat in Hs.
  rewrite list_lookup_insert_eq in Hs by (eapply lookup_lt_Some; eauto).
  injection Hs as <-. simpl in *. injection Et as <-.
  apply detector_spec in Hc.
  rewrite (prospective_check_eq allStats idx value formula Hi) in Hc.
  congruence.
Qed.

Lemma accepted_formula_is_not_reported_witness :
  exists errs,
    validate_errors
      {| config := sound_config;
         stats := IsArray (commit [calc 1 "<stat:2:value>"; calc 2 "1"] 1
                             (confirmFormula (calc 2 "1")
                                [calc 1 "<stat:2:value>"; calc 2 "1"] "7"));
         sections := IsArray [] |} = Returns errs
    /\ ~ In (FormulaCircular 1) errs.
Proof.
  apply accepted_formula_is_not_reported; reflexivity.
Defined.

(* ================================================================== *)
(** * Fresh ids *)
(* ================================================================== *)

Lemma round_double_exact n : Z.abs n <= 2 ^ 53 -> round_double n = n.
Proof.
  intros H.
  destruct (Z.eq_dec (Z.abs n) (2 ^ 53)) as [E | Hne].
  - destruct (Z.abs_eq_or_opp n) as [E' | E']; rewrite E' in E.
    + subst n. vm_compute. reflexivity.
    + assert (n = - 2 ^ 53) as -> by lia. vm_compute. reflexivity.
  - assert (Hlog : Z.log2 (Z.abs n) - 52 <= 0).
    { destruct (Z.eq_dec (Z.abs n) 0) as [-> | Hz]; [vm_compute; discriminate |].
      assert (Z.log2 (Z.abs n) < 53); [| lia].
      apply Z.log2_lt_pow2; lia. }
    unfold round_double, double_ulp.
    rewrite Z.max_l by exact Hlog. change (2 ^ 0) with 1. cbv zeta.
    rewrite Z.div_1_r, Z.mod_1_r. simpl. lia.
Qed.

Lemma fold_max_id {A} (id_of : A -> option Z) (bound : Z) (l : list A) :
  (forall x, In x l -> exists i, id_of x = Some i /\ i < bound) ->
  forall m, m < bound ->
  exists top,
    fold_left (fun m x => max_id m (id_of x)) l (Some m) = Some top
    /\ m <= top < bound
    /\ forall x i, In x l -> id_of x = Some i -> i <= top.
Proof.
  induction l as [|y l IH]; intros Hall m Hm; simpl.
  - exists m. split; [reflexivity |]. split; [lia | intros x i []].
  - destruct (Hall y (or_introl eq_refl)) as (j & Ej & Hj). rewrite Ej. simpl.
    destruct (IH (fun x Hx => Hall x (or_intror Hx)) (Z.max m j) ltac:(lia))
      as (top & Et & Hb & Hl).
    exists top. split; [exact Et |]. split; [lia |].
    intros x i [<- | Hx] Ei.
    + rewrite Ej in Ei. injection Ei as <-. lia.
    + now apply Hl with x.
Qed.

(** Below 2^53 the result of [nextId] is one more than the largest id,
    or 1 when no id is positive. *)
Lemma nextId_fresh {A} (id_of : A -> option Z) (l : list A) :
  (forall x, In x l -> exists i, id_of x = Some i /\ i < 2 ^ 53) ->
  1 <= nextId id_of l
  /\ (forall x i, In x l -> id_of x = Some i -> i < nextId id_of l)
  /\ ~ In (Some (nextId id_of l)) (map id_of l).
Proof.
  intros Hall.
  destruct (fold_max_id id_of (2 ^ 53) l Hall 0 ltac:(reflexivity))
    as (top & Et & Hb & Hl).
  unfold nextId. rewrite Et.
  rewrite round_double_exact by (rewrite Z.abs_eq; lia).
  split; [lia |]. split.
  - intros x i Hx Ei. specialize (Hl x i Hx Ei). lia.
  - intros Hin. apply in_map_iff in Hin as (x & Ei & Hx).
    specialize (Hl x _ Hx Ei). lia.
Qed.

(** X7: when every entry has an id below 2^53, [nextId] is at least 1 and
    larger than every id of the list, so it is the id of no element. *)
Theorem nextId_is_fresh {A} (id_of : A -> option Z) (l : list A) :
  (forall x, In x l -> exists i, id_of x = Some i /\ i < 2 ^ 53) ->
  1 <= nextId id_of l
  /\ (forall x i, In x l -> id_of x = Some i -> i < nextId id_of l)
  /\ ~ In (Some (nextId id_of l)) (map id_of l).
Proof. apply nextId_fresh. Qed.

Lemma nextId_is_fresh_witness :
  1 <= nextId id_of_stat [plain 4 "a"; plain 9 "b"]
  /\ (forall x i, In x [plain 4 "a"; plain 9 "b"] -> id_of_stat x = Some i ->
      i < nextId id_of_stat [plain 4 "a"; plain 9 "b"])
  /\ ~ In (Some (nextId id_of_stat [plain 4 "a"; plain 9 "b"]))
          (map id_of_stat [plain 4 "a"; plain 9 "b"]).
Proof.
  apply nextId_is_fresh.
  intros x [<- | [<- | []]]; eexists; (split; [reflexivity | reflexivity]).
Defined.

(** At 2^53 the sum is rounded back: the id [nextId] gives is already in
    the list. *)
Example nextId_repeats_beyond_safe_ids :
  nextId id_of_stat [plain (2 ^ 53) "a"] = 2 ^ 53.
Proof. vm_compute. reflexivity. Qed.

(** An entry without an id makes the reduction [NaN], and the result 1. *)
Lemma nextId_without_id {A} (id_of : A -> option Z) (l : list A) :
  (exists x, In x l /\ id_of x = None) -> nextId id_of l = 1.
Proof.
  intros (x & Hx & Ex). unfold nextId.
  assert (Hnone : forall l', fold_left (fun m x => max_id m (id_of x)) l' None = None).
  { induction l' as [|y l' IH]; [reflexivity | exact IH]. }
  assert (Hf : forall m, fold_left (fun m x => max_id m (id_of x)) l m = None).
  { revert Hx. induction l as [|y l IH]; intros [] m.
    - subst y. simpl. rewrite Ex.
      replace (max_id m None) with (@None Z) by (now destruct m). apply Hnone.
    - simpl. now apply IH. }
  rewrite Hf. vm_compute. reflexivity.
Qed.

Lemma nextId_stat_not_in (stats_ : list Stats) :
  (forall s, In s stats_ -> stat_id s < 2 ^ 53) ->
  ~ In (nextId id_of_stat stats_) (map stat_id stats_).
Proof.
  intros Hb Hin.
  destruct (nextId_fresh id_of_stat stats_) as (_ & _ & Hnot).
  - intros x Hx. exists (stat_id x). split; [reflexivity | now apply Hb].
  - apply Hnot. apply in_map_iff in Hin as (x & Ex & Hx).
    apply in_map_iff. exists x. split; [| exact Hx].
    unfold id_of_stat. now rewrite Ex.
Qed.

Lemma nextId_section_not_in (secs : list Section_) :
  (forall s, In s secs -> sec_id s < 2 ^ 53) ->
  ~ In (nextId id_of_section secs) (map sec_id secs).
Proof.
  intros Hb Hin.
  destruct (nextId_fresh id_of_section secs) as (_ & _ & Hnot).
  - intros x Hx. exists (sec_id x). split; [reflexivity | now apply Hb].
  - apply Hnot. apply in_map_iff in Hin as (x & Ex & Hx).
    apply in_map_iff. exists x. split; [| exact Hx].
    unfold id_of_section. now rewrite Ex.
Qed.

Lemma NoDup_insert_middle {A} (l1 l2 : list A) (x : A) :
  List.NoDup (l1 ++ l2) -> ~ In x (l1 ++ l2) -> List.NoDup (l1 ++ x :: l2).
Proof.
  intros Hl Hx. apply (Permutation_NoDup (Permutation_middle l1 l2 x)).
  now constructor.
Qed.

Lemma no_duplicate_entry_iff {A} (key : A -> Z) (l : list A) :
  List.NoDup (map key l) <->
  forall i x, l !! i = Some x -> ~ In (key x) (map key (take i l)).
Proof.
  induction l as [|y l IH]; simpl.
  - split; [intros _ i x Hi; discriminate Hi | constructor].
  - rewrite NoDup_cons_iff, IH. split.
    + intros [Hy Hl] [|i] x Hi; simpl in *; [tauto |].
      intros [E | Hin]; [| now apply (Hl i x Hi)].
      apply Hy. rewrite E. apply in_map. apply In_lookup. eauto.
    + intros H. split.
      * intros Hin. apply in_map_iff in Hin as (x & Hk & Hx).
        apply In_lookup in Hx as [i Hi].
        apply (H (S i) x Hi). simpl. left. now symmetry.
      * intros i x Hi Hin. apply (H (S i) x Hi). simpl. now right.
Qed.

(** The validator reports no duplicate stat id exactly when the ids are
    pairwise distinct. *)
Lemma no_duplicate_id_reported cfg allStats secs :
  List.NoDup (map stat_id allStats) <->
  forall i k, ~ reported cfg allStats secs (StatDuplicateId i k).
Proof.
  rewrite no_duplicate_entry_iff. split.
  - intros H i k Hr.
    inversion Hr as [| | i' s Hi Hk | i' s e Hi He | | |]; subst.
    + now apply (H i s Hi).
    + inversion He.
  - intros H i s Hi Hin. apply (H i (stat_id s)). now apply reported_stat_id.
Qed.

(** X8: [addStat] keeps the ids of the stats pairwise distinct when they
    are below 2^53: on a schema for which the validator reports no
    duplicate stat id it yields a schema for which it reports none either;
    the stats already there are untouched and the new one, with the id
    [nextId] gave, is last. *)
Theorem addStat_keeps_ids_distinct
    (cfg : option Config) (stats_ : list Stats) (secs : list Section_)
    (kind : StatKind) :
  List.NoDup (map stat_id stats_) ->
  (forall s, In s stats_ -> stat_id s < 2 ^ 53) ->
  List.NoDup (map stat_id (addStat stats_ kind))
  /\ take (length stats_) (addStat stats_ kind) = stats_
  /\ last (addStat stats_ kind)
     = Some (new_stat kind (nextId id_of_stat stats_))
  /\ exists errs,
       validate_errors {| config := cfg; stats := IsArray (addStat stats_ kind);
                          sections := IsArray secs |} = Returns errs
       /\ forall i k, ~ In (StatDuplicateId i k) errs.
Proof.
  intros Hnd Hb.
  assert (Hnd' : List.NoDup (map stat_id (addStat stats_ kind))).
  { unfold addStat. rewrite map_app. simpl.
    apply NoDup_insert_middle; rewrite app_nil_r; [exact Hnd |].
    now apply nextId_stat_not_in. }
  split; [exact Hnd' |]. split; [apply take_app_length |].
  split; [apply last_snoc |].
  destruct (validate_errors_report cfg (addStat stats_ kind) secs) as [E _].
  eexists. split; [exact E |]. intros i k Hin.
  destruct (report_In cfg (addStat stats_ kind) secs
              (StatDuplicateId i k)) as (errs & E' & Hiff).
  rewrite E in E'. injection E' as <-. apply Hiff in Hin.
  now apply (no_duplicate_id_reported cfg (addStat stats_ kind) secs) in Hin.
Qed.

Lemma addStat_keeps_ids_distinct_witness :
  List.NoDup (map stat_id (addStat [plain 1 "a"; plain 7 "b"] kind_calculated)).
Proof.
  apply (addStat_keeps_ids_distinct sound_config [plain 1 "a"; plain 7 "b"] []
           kind_calculated).
  - repeat constructor; simpl; intuition lia.
  - intros s [<- | [<- | []]]; reflexivity.
Defined.

(** With an id of 2^53 in the list [addStat] repeats it, and the
    validator reports the duplicate. *)
Example addStat_repeats_beyond_safe_ids :
  validate {| config := sound_config;
              stats := IsArray (addStat [plain (2 ^ 53) "a"] kind_boolean);
              sections := IsArray [] |}
  = Returns ["stats[1] id duplicado: 9007199254740992"].
Proof. vm_compute. reflexivity. Qed.

(** X9: [duplicateStat] on a stat that is there puts the copy right after
    it, with the same type and emoji, and leaves every other stat in its
    relative place; when the ids are below 2^53 the id of the copy is
    fresh and pairwise distinct ids stay pairwise distinct.  On a position
    outside the list it throws. *)
Theorem duplicateStat_inserts_fresh_copy (stats_ : list Stats) (index : nat) :
  (stats_ !! index = None -> duplicateStat stats_ index = Throws_TypeError)
  /\ forall original, stats_ !! index = Some original ->
       exists copy result,
         duplicateStat stats_ index = Returns result
         /\ result = (take (S index) stats_ ++ copy :: drop (S index) stats_)%list
         /\ result !! index = Some original
         /\ result !! S index = Some copy
         /\ stat_type copy = stat_type original
         /\ stat_emoji copy = stat_emoji original
         /\ ((forall s, In s stats_ -> stat_id s < 2 ^ 53) ->
             ~ In (stat_id copy) (map stat_id stats_)
             /\ (List.NoDup (map stat_id stats_) ->
                 List.NoDup (map stat_id result))).
Proof.
  split; [intros H; unfold duplicateStat; now rewrite H |].
  intros original Hi. unfold duplicateStat. rewrite Hi.
  pose proof (lookup_lt_Some _ _ _ Hi) as Hlt.
  eexists _, _. split; [reflexivity |]. split; [reflexivity |].
  split; [| split; [| split; [| split]]].
  - rewrite lookup_app_l by (rewrite length_take; lia).
    now rewrite lookup_take_lt by lia.
  - rewrite lookup_app_r by (rewrite length_take; lia).
    rewrite length_take. replace (S index - S index `min` length stats_)%nat
      with 0%nat by lia. reflexivity.
  - reflexivity.
  - reflexivity.
  - intros Hb. split.
    + simpl. now apply nextId_stat_not_in.
    + intros Hnd. rewrite map_app. simpl. apply NoDup_insert_middle.
      * rewrite <- map_app. now rewrite take_drop.
      * rewrite <- map_app, take_drop. now apply nextId_stat_not_in.
Qed.

Lemma duplicateStat_inserts_fresh_copy_witness :
  duplicateStat [plain 1 "a"] 3 = Throws_TypeError
  /\ exists copy result,
       duplicateStat [plain 1 "a"; plain 2 "b"] 0 = Returns result
       /\ result !! 1%nat = Some copy
       /\ stat_type copy = boolean
       /\ ~ In (stat_id copy) (map stat_id [plain 1 "a"; plain 2 "b"]).
Proof.
  split.
  - apply (duplicateStat_inserts_fresh_copy [plain 1 "a"] 3). reflexivity.
  - destruct (proj2 (duplicateStat_inserts_fresh_copy [plain 1 "a"; plain 2 "b"] 0)
                (plain 1 "a") eq_refl)
      as (copy & result & Hr & _ & _ & Hc & Ht & _ & Hfresh).
    exists copy, result. split; [exact Hr |]. split; [exact Hc |].
    split; [exact Ht |]. apply Hfresh.
    intros s [<- | [<- | []]]; reflexivity.
Defined.

(* ================================================================== *)
(** * Moving an entry *)
(* ================================================================== *)

Lemma exchange_down {A} (l : list A) : forall i a b,
  l !! i = Some a -> l !! S i = Some b ->
  <[S i := a]> (<[i := b]> l) = (take i l ++ b :: a :: drop (S (S i)) l)%list
  /\ l = (take i l ++ a :: b :: drop (S (S i)) l)%list.
Proof.
  induction l as [|x l IH]; intros i a b Hi Hj; [discriminate |].
  destruct i as [|i]; simpl in *.
  - injection Hi as ->. destruct l as [|y l]; [discriminate |].
    simpl in Hj. injection Hj as ->. simpl. now rewrite drop_0.
  - destruct (IH i a b Hi Hj) as [E1 E2]. split; f_equal; assumption.
Qed.

Lemma exchange_up {A} (l : list A) : forall i a b,
  l !! i = Some a -> l !! S i = Some b ->
  <[i := b]> (<[S i := a]> l) = (take i l ++ b :: a :: drop (S (S i)) l)%list.
Proof.
  induction l as [|x l IH]; intros i a b Hi Hj; [discriminate |].
  destruct i as [|i]; simpl in *.
  - injection Hi as ->. destruct l as [|y l]; [discriminate |].
    simpl in Hj. injection Hj as ->. simpl. now rewrite drop_0.
  - f_equal. now apply IH.
Qed.

(** X10: [moveStat] never loses or repeats an entry: for a position inside
    the list the result is a permutation of the list, of the same length,
    and at the two ends (first entry up, last entry down) the list is
    returned as it is. *)
Theorem moveStat_permutes {A} (l : list A) (index : nat) (dir : Direction) :
  (index < length l)%nat ->
  exists l', moveStat l index dir = Some l'
    /\ Permutation l l' /\ length l' = length l
    /\ (index = 0%nat -> dir = up -> l' = l)
    /\ (S index = length l -> dir = down -> l' = l).
Proof.
  intros Hlt. unfold moveStat.
  destruct dir, index as [|i].
  - exists l. repeat split; auto.
  - simpl Nat.pred. destruct (Nat.leb_spec (length l) i) as [Hle | _]; [lia |].
    destruct (lookup_lt_is_Some_2 l (S i) Hlt) as [a Ha].
    destruct (lookup_lt_is_Some_2 l i ltac:(lia)) as [b Hb].
    rewrite Ha, Hb. eexists. split; [reflexivity |].
    rewrite (exchange_up l i b a Hb Ha).
    destruct (exchange_down l i b a Hb Ha) as [_ E].
    assert (P : Permutation l (take i l ++ a :: b :: drop (S (S i)) l))
      by (rewrite E at 1; apply Permutation_app_head, perm_swap).
    split; [exact P |].
    split; [symmetry; apply Permutation_length, P |].
    split; discriminate.
  - destruct (Nat.leb_spec (length l) 1) as [Hle | Hgt].
    + exists l. repeat split; auto.
    + destruct (lookup_lt_is_Some_2 l 0 Hlt) as [a Ha].
      destruct (lookup_lt_is_Some_2 l 1 Hgt) as [b Hb].
      rewrite Ha, Hb. eexists. split; [reflexivity |].
      destruct (exchange_down l 0 a b Ha Hb) as [-> E].
      assert (P : Permutation l (take 0 l ++ b :: a :: drop 2 l))
        by (rewrite E at 1; apply Permutation_app_head, perm_swap).
      split; [exact P |].
      split; [symmetry; apply Permutation_length, P |].
      split; [discriminate | intros; lia].
  - destruct (Nat.leb_spec (length l) (S (S i))) as [Hle | Hgt].
    + exists l. repeat split; auto.
    + destruct (lookup_lt_is_Some_2 l (S i) Hlt) as [a Ha].
      destruct (lookup_lt_is_Some_2 l (S (S i)) Hgt) as [b Hb].
      rewrite Ha, Hb. eexists. split; [reflexivity |].
      destruct (exchange_down l (S i) a b Ha Hb) as [-> E].
      assert (P : Permutation l (take (S i) l ++ b :: a :: drop (S (S (S i))) l))
        by (rewrite E at 1; apply Permutation_app_head, perm_swap).
      split; [exact P |].
      split; [symmetry; apply Permutation_length, P |].
      split; [discriminate | intros; lia].
Qed.

Lemma moveStat_permutes_witness :
  exists l', moveStat [1; 2; 3] 1 up = Some l' /\ Permutation [1; 2; 3] l'.
Proof.
  destruct (moveStat_permutes [1; 2; 3] 1 up) as (l' & H & Hp & _);
    [simpl; lia |].
  exists l'. split; assumption.
Defined.

(** X11: moving an entry down and then moving it back up restores the list:
    the entry and its successor exchange places and exchange them back. *)
Theorem moveStat_down_then_up {A} (l : list A) (index : nat) :
  (S index < length l)%nat ->
  exists l', moveStat l index down = Some l'
    /\ l' !! index = l !! S index
    /\ l' !! S index = l !! index
    /\ (forall k, k <> index -> k <> S index -> l' !! k = l !! k)
    /\ moveStat l' (S index) up = Some l.
Proof.
  intros Hlt.
  destruct (lookup_lt_is_Some_2 l index ltac:(lia)) as [a Ha].
  destruct (lookup_lt_is_Some_2 l (S index) Hlt) as [b Hb].
  exists (<[S index := a]> (<[index := b]> l)).
  assert (Hmove : moveStat l index down
                  = Some (<[S index := a]> (<[index := b]> l))).
  { unfold moveStat.
    destruct index as [|i].
    - destruct (Nat.leb_spec (length l) 1) as [Hle | _]; [lia |].
      now rewrite Ha, Hb.
    - destruct (Nat.leb_spec (length l) (S (S i))) as [Hle | _]; [lia |].
      now rewrite Ha, Hb. }
  split; [exact Hmove |].
  split; [| split; [| split]].
  - rewrite list_lookup_insert_ne by lia.
    rewrite list_lookup_insert_eq by lia. now symmetry.
  - rewrite list_lookup_insert_eq by (rewrite length_insert; lia). now symmetry.
  - intros k Hk1 Hk2. now rewrite !list_lookup_insert_ne by lia.
  - unfold moveStat. simpl Nat.pred.
    destruct (Nat.leb_spec (length (<[S index := a]> (<[index := b]> l))) index)
      as [Hle | _]; [rewrite !length_insert in Hle; lia |].
    rewrite list_lookup_insert_eq by (rewrite length_insert; lia).
    rewrite list_lookup_insert_ne by lia.
    rewrite list_lookup_insert_eq by lia. f_equal.
    rewrite (list_insert_insert_eq _ (S index)).
    rewrite list_insert_insert_ne by lia.
    rewrite list_insert_insert_eq.
    rewrite (list_insert_id l index a Ha).
    now apply list_insert_id.
Qed.

Lemma moveStat_down_then_up_witness :
  exists l', moveStat [1; 2; 3] 0 down = Some l'
             /\ moveStat l' 1 up = Some [1; 2; 3].
Proof.
  destruct (moveStat_down_then_up [1; 2; 3] 0) as (l' & H & _ & _ & _ & Hback);
    [simpl; lia |].
  exists l'. split; assumption.
Defined.

(* ================================================================== *)
(** * The editors of a formula *)
(* ================================================================== *)

Lemma cut_at_app s : forall units pending before after,
  cut_at units pending s = Some (before, after) -> s = before ++ after.
Proof.
  induction s as [|c s IH]; intros units pending before after H.
  - destruct pending; [| discriminate H]. now injection H as <- <-.
  - simpl in H. destruct pending as [|k].
    + destruct units as [|u]; [now injection H as <- <- |].
      destruct (utf8_lead c) as [[bytes taken]|]; [| discriminate H].
      destruct (taken <=? S u)%nat; [| discriminate H].
      destruct (cut_at (S u - taken) (Nat.pred bytes) s) as [[b a]|] eqn:E;
        [| discriminate H].
      injection H as <- <-. simpl. f_equal. now apply IH in E.
    + destruct (cut_at units k s) as [[b a]|] eqn:E; [| discriminate H].
      injection H as <- <-. simpl. f_equal. now apply IH in E.
Qed.




Lemma rtc_avoiding {A} (R : relation A) (dec : forall x y : A, {x = y} + {x <> y})
    a b :
  rtc R a b -> rtc (fun x y => x <> b /\ R x y) a b.
Proof.
  intros H. induction H as [a | a c b Hac _ IH]; [apply rtc_refl |].
  destruct (dec a b) as [-> | Hne]; [apply rtc_refl |].
  eapply rtc_l; [split; [exact Hne | exact Hac] | exact IH].
Qed.

Lemma find_stat_NoDup l s :
  List.NoDup (map stat_id l) -> In s l -> find_stat l (stat_id s) = Some s.
Proof.
  unfold find_stat. induction l as [|x l IH]; intros Hnd Hin; [destruct Hin |].
  simpl in *. apply NoDup_cons_iff in Hnd as [Hx Hnd].
  destruct Hin as [-> | Hin]; [now rewrite Z.eqb_refl |].
  destruct (Z.eqb_spec (stat_id x) (stat_id s)) as [E | _]; [| now apply IH].
  exfalso. apply Hx. rewrite E. now apply in_map.
Qed.

(** X13: the formula editor never offers the stat being edited or a stat
    of type string; and in a schema with pairwise distinct ids it never
    offers a calculated stat (with an id that is not negative and below
    2^53) whose formula mentions the stat being edited or that depends on
    it through the stored formulas of other stats. *)
Theorem getAvailableStats_excludes_dependants
    (value : Stats) (allStats : list Stats) (stat : Stats) :
  In stat (getAvailableStats value allStats) ->
  In stat allStats
  /\ stat_id stat <> stat_id value
  /\ stat_type stat <> string_t
  /\ (forall f,
        stat_type stat = calculated f -> safe_id (stat_id stat) ->
        List.NoDup (map stat_id allStats) ->
        ~ mentions f (stat_id value)
        /\ ~ rtc (depends_on allStats) (stat_id stat) (stat_id value)).
Proof.
  unfold getAvailableStats. rewrite filter_In. intros [Hin Hf].
  destruct (Z.eqb_spec (stat_id stat) (stat_id value)) as [| Hne];
    [discriminate Hf |].
  destruct (is_string stat) eqn:Hs; [discriminate Hf |].
  apply is_string_false in Hs.
  split; [exact Hin |]. split; [exact Hne |]. split; [exact Hs |].
  intros f Et Hpos Hnd. rewrite Et in Hf. apply negb_true_iff in Hf.
  assert (Hpath : ~ rtc (depends_on allStats) (stat_id stat) (stat_id value)).
  { intros Hpath.
    assert (Hc : hasCircularDependency (stat_id value) (testFormula value stat)
                   allStats = true); [| congruence].
    apply detector_spec. exists (stat_id value). split; [apply rtc_refl |].
    apply tc_rtc_r with (stat_id stat).
    - apply tc_once. exists (testFormula value stat).
      split; [apply fat_target |].
      apply dependencies_mentions. unfold testFormula.
      pose proof (printed_token_mentioned (stat_id stat)
                    (formula_text value ++ " + ") EmptyString Hpos) as H.
      rewrite ?app_assoc_str, ?app_nil_r_str in H. now rewrite ?app_assoc_str.
    - apply (rtc_avoiding _ Z.eq_dec) in Hpath.
      eapply rtc_subrel; [| exact Hpath].
      intros a b [Ha (g & Hg & Hb)]. exists g. split.
      + unfold formula_at. now destruct (Z.eqb_spec a (stat_id value)).
      + now apply dependencies_mentions. }
  split; [| exact Hpath].
  intros Hm. apply Hpath. apply rtc_once. exists f. split; [| exact Hm].
  unfold stored_formula. rewrite (find_stat_NoDup allStats stat Hnd Hin).
  now rewrite Et.
Qed.

Lemma getAvailableStats_excludes_dependants_witness :
  ~ mentions "<stat:4:value>" (stat_id (calc 2 "<stat:3:value>"))
  /\ ~ rtc (depends_on
              [calc 1 "<stat:2:value>"; calc 2 "<stat:3:value>";
               calc 3 "<stat:4:value>"; calc 4 "1"])
         (stat_id (calc 3 "<stat:4:value>")) (stat_id (calc 2 "<stat:3:value>")).
Proof.
  destruct (getAvailableStats_excludes_dependants (calc 2 "<stat:3:value>")
              [calc 1 "<stat:2:value>"; calc 2 "<stat:3:value>";
               calc 3 "<stat:4:value>"; calc 4 "1"]
              (calc 3 "<stat:4:value>")) as (_ & _ & _ & H).
  - vm_compute. tauto.
  - apply (H "<stat:4:value>").
    + reflexivity.
    + split; [simpl; lia | reflexivity].
    + repeat constructor; simpl; intuition lia.
Defined.

(** With a repeated id the check reads the first stat that carries it: a
    calculated stat standing behind a numeric stat of the same id is
    offered although its own formula mentions the stat being edited. *)
Example getAvailableStats_reads_first_carrier :
  getAvailableStats (calc 3 "1")
    [numeric_stat 7 None None; calc 7 "<stat:3:value>"; calc 3 "1"]
  = [numeric_stat 7 None None; calc 7 "<stat:3:value>"].
Proof. vm_compute. reflexivity. Qed.

Example getAvailableStats_example :
  getAvailableStats (calc 2 "<stat:3:value>")
    [calc 1 "<stat:2:value>"; calc 2 "<stat:3:value>"; calc 3 "1";
     text_stat 4; numeric_stat 5 None None]
  = [calc 3 "1"; numeric_stat 5 None None].
Proof. vm_compute. reflexivity. Qed.

(* ================================================================== *)
(** * The replacement editor's handlers, proved *)
(* ================================================================== *)

Lemma replacement_set_options_insert rs i opts r :
  rs !! i = Some r ->
  replacement_set_options rs i opts
  = <[i := {| rep_key := rep_key r; rep_options := opts |}]> rs.
Proof.
  intros Hr. apply list_eq. intros j. unfold replacement_set_options.
  rewrite list_lookup_imap. destruct (decide (i = j)) as [<- | Hne].
  - rewrite list_lookup_insert_eq by (eapply lookup_lt_Some; eauto).
    rewrite Hr. simpl. now rewrite Nat.eqb_refl.
  - rewrite list_lookup_insert_ne by exact Hne.
    destruct (rs !! j) as [r'|]; simpl; [| reflexivity].
    destruct (Nat.eqb_spec j i); [congruence | reflexivity].
Qed.

(** X14: [toggleOption] on a replacement that exists returns the list with
    that one replacement changed: its key is kept, the toggled stat id is
    among its options afterwards exactly when it was not before, and every
    other id is among them exactly when it was before. On a position
    without a replacement it throws. *)
Theorem toggleOption_flips_membership
    (replacements : list Replacement) (i : nat) (statId : Z) :
  match replacements !! i with
  | None => toggleOption replacements i statId = Throws_TypeError
  | Some r =>
      exists r',
        toggleOption replacements i statId = Returns (<[i := r']> replacements)
        /\ rep_key r' = rep_key r
        /\ (In statId (rep_options r') <-> ~ In statId (rep_options r))
        /\ (forall x, x <> statId ->
            (In x (rep_options r') <-> In x (rep_options r)))
  end.
Proof.
  unfold toggleOption. destruct (replacements !! i) as [r|] eqn:Hr;
    [| reflexivity].
  cbv zeta. destruct (includes (rep_options r) statId) eqn:Hin.
  - apply includes_In in Hin.
    eexists. split; [now rewrite (replacement_set_options_insert _ _ _ r Hr) |].
    simpl. split; [reflexivity |]. split.
    + rewrite filter_In. split; [| tauto].
      intros [_ H]. apply negb_true_iff, Z.eqb_neq in H. congruence.
    + intros x Hx. rewrite filter_In. split; [tauto |].
      intros H. split; [exact H |]. now apply negb_true_iff, Z.eqb_neq.
  - assert (Hnot : ~ In statId (rep_options r)).
    { intros H. apply includes_In in H. congruence. }
    eexists. split; [now rewrite (replacement_set_options_insert _ _ _ r Hr) |].
    simpl. split; [reflexivity |]. split.
    + rewrite in_app_iff. simpl. tauto.
    + intros x Hx. rewrite in_app_iff. simpl. split; [| tauto].
      intros [H | [H | []]]; [exact H | congruence].
Qed.

(** X15: toggling twice a stat id that was not among the options of a
    replacement gives back the list of replacements as it was. *)
Theorem toggleOption_twice_restores
    (replacements : list Replacement) (i : nat) (statId : Z) (r : Replacement) :
  replacements !! i = Some r ->
  ~ In statId (rep_options r) ->
  exists once,
    toggleOption replacements i statId = Returns once
    /\ toggleOption once i statId = Returns replacements.
Proof.
  intros Hr Hnot.
  assert (Hlt : (i < length replacements)%nat) by (eapply lookup_lt_Some; eauto).
  assert (Hinc : includes (rep_options r) statId = false).
  { destruct (includes (rep_options r) statId) eqn:E; [| reflexivity].
    apply includes_In in E. contradiction. }
  eexists. split.
  - unfold toggleOption. rewrite Hr. cbv zeta. rewrite Hinc.
    rewrite (replacement_set_options_insert _ _ _ r Hr). reflexivity.
  - unfold toggleOption. rewrite list_lookup_insert_eq by exact Hlt.
    cbv zeta. simpl rep_options.
    assert (Hnow : includes (rep_options r ++ [statId]) statId = true).
    { apply includes_In, in_app_iff. right. now left. }
    rewrite Hnow.
    erewrite replacement_set_options_insert
      by (apply list_lookup_insert_eq; exact Hlt).
    rewrite list_insert_insert_eq. simpl rep_key.
    rewrite List.filter_app. simpl. rewrite Z.eqb_refl. simpl.
    rewrite app_nil_r.
    assert (Hf : List.filter (fun id => negb (id =? statId)) (rep_options r)
                 = rep_options r).
    { clear -Hnot. induction (rep_options r) as [|x l IH]; [reflexivity |].
      simpl. destruct (Z.eqb_spec x statId) as [-> | Hne].
      - exfalso. apply Hnot. now left.
      - simpl. f_equal. apply IH. intros H. apply Hnot. now right. }
    rewrite Hf. f_equal. destruct r as [k o]. simpl.
    now apply list_insert_id.
Qed.

Lemma toggleOption_twice_restores_witness :
  exists once,
    toggleOption [ {| rep_key := 1; rep_options := [1; 2] |} ] 0 3 = Returns once
    /\ toggleOption once 0 3
       = Returns [ {| rep_key := 1; rep_options := [1; 2] |} ].
Proof.
  apply (toggleOption_twice_restores _ 0%nat 3
           {| rep_key := 1; rep_options := [1; 2] |}).
  - reflexivity.
  - simpl. lia.
Defined.

(** X16: when [add] of the replacement editor changes the list, it appends
    one replacement whose key is the id of a stat of the schema that is
    used in some dice expression or condition and is not of type string,
    with that id as its only option; it leaves the list alone exactly when
    no stat qualifies as a key. *)
Theorem replacement_add_key_is_used_in_dices
    (replacements : list Replacement) (stats_ : list Stats) (dices : list Dice) :
  match replacement_add replacements stats_ dices with
  | Some rs' =>
      exists s,
        rs' = (replacements
               ++ [ {| rep_key := stat_id s; rep_options := [stat_id s] |} ])%list
        /\ In s stats_ /\ used_in_dices dices (stat_id s)
        /\ stat_type s <> string_t
  | None =>
      forall s, In s stats_ -> used_in_dices dices (stat_id s) ->
                stat_type s = string_t
  end.
Proof.
  unfold replacement_add.
  destruct (validKeyStats stats_ dices) as [|first rest] eqn:E.
  - intros s Hs Hu.
    destruct (replaceable_type s) eqn:Hr.
    + assert (Hin : In s (validKeyStats stats_ dices)).
      { unfold validKeyStats. apply filter_In. split; [exact Hs |].
        apply andb_true_iff. split; [| exact Hr].
        apply includes_In, getStatsUsedInDices_In, Hu. }
      rewrite E in Hin. destruct Hin.
    + unfold replaceable_type in Hr. now destruct (stat_type s).
  - assert (Hin : In first (validKeyStats stats_ dices)) by (rewrite E; now left).
    unfold validKeyStats in Hin. apply filter_In in Hin as [Hs Hb].
    apply andb_true_iff in Hb as [Hu Hr].
    exists first. split; [reflexivity |]. split; [exact Hs |]. split.
    + now apply getStatsUsedInDices_In, includes_In.
    + intros Et. unfold replaceable_type in Hr. rewrite Et in Hr. discriminate.
Qed.

(* ================================================================== *)
(** * Locales of a localized text, proved *)
(* ================================================================== *)

Lemma includes_str_In l x : includes_str l x = true <-> In x l.
Proof.
  unfold includes_str. rewrite existsb_exists. split.
  - intros [y [Hy E]]. apply String.eqb_eq in E. now subst.
  - intros H. exists x. split; [exact H | apply String.eqb_refl].
Qed.

Lemma set_from_fold items : forall acc,
  NoDup acc ->
  let out := fold_left
               (fun acc x => if includes_str acc x then acc else (acc ++ [x])%list)
               items acc in
  NoDup out
  /\ (forall x, In x out <-> In x acc \/ In x items)
  /\ exists more, out = (acc ++ more)%list.
Proof.
  induction items as [|y items IH]; intros acc Hnd; cbv zeta; simpl.
  - split; [exact Hnd |]. split; [intros x; tauto |].
    exists []. now rewrite app_nil_r.
  - destruct (includes_str acc y) eqn:E.
    + destruct (IH acc Hnd) as (H1 & H2 & H3). split; [exact H1 |].
      split; [| exact H3].
      intros x. rewrite H2. apply includes_str_In in E.
      split; [tauto |]. intros [H | [<- | H]]; tauto.
    + assert (Hy : ~ In y acc).
      { intros H. apply includes_str_In in H. congruence. }
      assert (Hnd' : NoDup (acc ++ [y])).
      { apply NoDup_app. split; [exact Hnd |].
        split; [| apply NoDup_singleton].
        intros x Hx Hx'. apply list_elem_of_In in Hx, Hx'.
        destruct Hx' as [<- | []]. contradiction. }
      destruct (IH (acc ++ [y])%list Hnd') as (H1 & H2 & [more H3]).
      split; [exact H1 |]. split.
      * intros x. rewrite H2, in_app_iff. simpl. tauto.
      * exists (y :: more). rewrite H3. now rewrite <- app_assoc.
Qed.

(** X17: [allLocalesFrom] lists "default" first, lists no locale twice, and
    lists a locale exactly when it is "default", one of the base locales
    or a key of the localized text. *)
Theorem allLocalesFrom_default_first_no_repeats
    (keys base : list string) :
  (exists others, allLocalesFrom keys base = "default" :: others)
  /\ List.NoDup (allLocalesFrom keys base)
  /\ (forall x, In x (allLocalesFrom keys base)
                <-> x = "default" \/ In x base \/ In x keys).
Proof.
  unfold allLocalesFrom, set_from. simpl fold_left.
  destruct (set_from_fold
              (base ++ List.filter (fun k => negb (String.eqb k "default")) keys)
              ["default"]) as (H1 & H2 & [more H3]).
  { apply NoDup_singleton. }
  cbv zeta in H1, H2, H3. split; [exists more; exact H3 |].
  split; [apply NoDup_ListNoDup; exact H1 |].
  intros x. rewrite H2, in_app_iff, filter_In. simpl. split.
  - intros [[<- | []] | [H | [H _]]]; tauto.
  - intros [-> | [H | H]]; [tauto | tauto |].
    destruct (String.eqb_spec x "default") as [-> | Hne]; [tauto |].
    right. right. split; [exact H |]. reflexivity.
Qed.

(* ================================================================== *)
(** * The enum editor, proved *)
(* ================================================================== *)

Lemma has_other_with_value_spec l i v :
  has_other_with_value l i v = true
  <-> exists j o, j <> i /\ l !! j = Some o /\ opt_value o = v.
Proof.
  unfold has_other_with_value. rewrite existsb_exists. split.
  - intros [[j o] [Hin Hb]]. apply list_elem_of_In in Hin.
    apply elem_of_lookup_imap in Hin as (k & o' & E & Hk).
    injection E as -> ->. apply andb_true_iff in Hb as [Hne Hv].
    apply negb_true_iff, Nat.eqb_neq in Hne. apply Z.eqb_eq in Hv.
    now exists k, o'.
  - intros (j & o & Hne & Hj & Hv). exists (j, o). split.
    + apply list_elem_of_In.
      apply (elem_of_lookup_imap_2 (fun i o => (i, o)) l o j Hj).
    + apply andb_true_iff. split.
      * now apply negb_true_iff, Nat.eqb_neq.
      * now apply Z.eqb_eq.
Qed.

Lemma duplicateValues_fold (opts : list StatsEnumOption)
    (xs : list (nat * StatsEnumOption)) : forall acc,
  let out := fold_left
               (fun acc '(index, option) =>
                  if has_other_with_value opts index (opt_value option)
                  then (if includes acc (opt_value option) then acc
                        else (acc ++ [opt_value option])%list)
                  else acc)
               xs acc in
  (NoDup acc -> NoDup out)
  /\ (forall v, In v out
      <-> In v acc
          \/ exists i o, In (i, o) xs /\ opt_value o = v
                         /\ has_other_with_value opts i v = true).
Proof.
  induction xs as [|[i o] xs IH]; intros acc; cbv zeta; simpl.
  - split; [auto |]. intros v. split; [tauto |].
    intros [H | (i & o & [] & _)]. exact H.
  - destruct (has_other_with_value opts i (opt_value o)) eqn:Ho.
    + destruct (includes acc (opt_value o)) eqn:Hinc.
      * destruct (IH acc) as [H1 H2]. split; [exact H1 |].
        intros v. rewrite H2. split.
        -- intros [H | (j & o' & Hin & Hv & Hb)]; [tauto |].
           right. exists j, o'. tauto.
        -- intros [H | (j & o' & [E | Hin] & Hv & Hb)]; [tauto | |].
           ++ injection E as <- <-. subst v. left. now apply includes_In.
           ++ right. now exists j, o'.
      * destruct (IH (acc ++ [opt_value o])%list) as [H1 H2]. split.
        -- intros Hnd. apply H1. apply NoDup_app. split; [exact Hnd |].
           split; [| apply NoDup_singleton].
           intros x Hx Hx'. apply list_elem_of_In in Hx, Hx'.
           destruct Hx' as [<- | []]. apply includes_In in Hx. congruence.
        -- intros v. rewrite H2, in_app_iff. simpl. split.
           ++ intros [[H | [<- | []]] | (j & o' & Hin & Hv & Hb)].
              ** tauto.
              ** right. exists i, o. tauto.
              ** right. exists j, o'. tauto.
           ++ intros [H | (j & o' & [E | Hin] & Hv & Hb)]; [tauto | |].
              ** injection E as <- <-. tauto.
              ** right. now exists j, o'.
    + destruct (IH acc) as [H1 H2]. split; [exact H1 |].
      intros v. rewrite H2. split.
      * intros [H | (j & o' & Hin & Hv & Hb)]; [tauto |].
        right. exists j, o'. tauto.
      * intros [H | (j & o' & [E | Hin] & Hv & Hb)]; [tauto | |].
        -- injection E as <- <-. subst v. congruence.
        -- right. now exists j, o'.
Qed.

Lemma In_values_before (l : list StatsEnumOption) j v :
  In v (map opt_value (take j l))
  <-> exists k o, (k < j)%nat /\ l !! k = Some o /\ opt_value o = v.
Proof.
  rewrite in_map_iff. split.
  - intros (o & Hv & Hin). apply list_elem_of_In, list_elem_of_lookup in Hin.
    destruct Hin as [k Hk]. apply lookup_take_Some in Hk as [Hk Hlt].
    now exists k, o.
  - intros (k & o & Hlt & Hk & Hv). exists o. split; [exact Hv |].
    apply list_elem_of_In, list_elem_of_lookup. exists k.
    now apply lookup_take_Some.
Qed.

(** A value is marked by the editor exactly when two options at different
    positions carry it, and exactly when some option carries a value an
    earlier option carries. *)
Lemma duplicateValues_In (l : list StatsEnumOption) v :
  In v (duplicateValues l)
  <-> exists j o, l !! j = Some o /\ opt_value o = v
                  /\ In v (map opt_value (take j l)).
Proof.
  unfold duplicateValues.
  destruct (duplicateValues_fold l (imap (fun i o => (i, o)) l) []) as [_ H].
  cbv zeta in H. rewrite H. clear H. split.
  - intros [[] | (i & o & Hin & Hv & Hb)].
    apply list_elem_of_In, elem_of_lookup_imap in Hin as (k & o' & E & Hk).
    injection E as -> ->.
    apply has_other_with_value_spec in Hb as (j & o2 & Hne & Hj & Hv2).
    destruct (Nat.lt_ge_cases j k) as [Hlt | Hge].
    + exists k, o'. split; [exact Hk |]. split; [exact Hv |].
      apply In_values_before. now exists j, o2.
    + exists j, o2. split; [exact Hj |]. split; [exact Hv2 |].
      apply In_values_before. exists k, o'. split; [lia | tauto].
  - intros (j & o & Hj & Hv & Hbefore). right.
    apply In_values_before in Hbefore as (k & o' & Hlt & Hk & Hv').
    exists j, o. split; [| split; [exact Hv |]].
    + apply list_elem_of_In.
      apply (elem_of_lookup_imap_2 (fun i o => (i, o)) l o j Hj).
    + apply has_other_with_value_spec. exists k, o'. split; [lia | tauto].
Qed.

(** X18: for an enum stat with inline options standing in the schema,
    the editor marks a value as duplicated exactly when the report of
    [validate] holds a duplicate-value entry for that value at some option
    of the stat; the editor lists no value twice. *)
Theorem duplicateValues_agree_with_validator
    (cfg : option Config) (allStats : list Stats) (secs : list Section_)
    (i : nat) (s : Stats) (l : list StatsEnumOption) :
  allStats !! i = Some s ->
  stat_type s = enum (OptionList l) ->
  NoDup (duplicateValues l)
  /\ exists errs,
       validate_errors {| config := cfg; stats := IsArray allStats;
                          sections := IsArray secs |} = Returns errs
       /\ forall v, In v (duplicateValues l)
                    <-> exists j, In (OptionDuplicateValue i j v) errs.
Proof.
  intros Hi Et. split.
  - destruct (duplicateValues_fold l (imap (fun i o => (i, o)) l) []) as [H _].
    apply H. constructor.
  - destruct (validate_errors_report cfg allStats secs) as [E _].
    eexists. split; [exact E |]. intros v.
    rewrite duplicateValues_In. split.
    + intros (j & o & Hj & <- & Hb). exists j.
      destruct (report_In cfg allStats secs (OptionDuplicateValue i j (opt_value o)))
        as (errs & E' & Hiff).
      rewrite E in E'. injection E' as <-. apply Hiff.
      apply reported_stat with (i := i) (s := s); [exact Hi |].
      now apply (entry_option_value allStats i s l j o).
    + intros [j Hin].
      destruct (report_In cfg allStats secs (OptionDuplicateValue i j v))
        as (errs & E' & Hiff).
      rewrite E in E'. injection E' as <-. apply Hiff in Hin.
      inversion Hin as [| | | i' s' e Hi' He | | |]; subst.
      inversion He as [| | | l' j' o Et' Hj Hb | | | | |]; subst.
      rewrite Hi in Hi'. injection Hi' as <-.
      rewrite Et in Et'. injection Et' as <-. now exists j, o.
Qed.

Lemma duplicateValues_agree_with_validator_witness :
  exists errs,
    validate_errors
      {| config := sound_config;
         stats := IsArray
           [ {| stat_id := 1; stat_name := Some {[ "default" := "Classe" ]};
                stat_emoji := None;
                stat_type :=
                  enum (OptionList
                    [ {| opt_value := 1; opt_name := None; opt_emoji := None |};
                      {| opt_value := 2; opt_name := None; opt_emoji := None |};
                      {| opt_value := 1; opt_name := None; opt_emoji := None |} ]) |} ];
         sections := IsArray [] |} = Returns errs
    /\ exists j, In (OptionDuplicateValue 0 j 1) errs.
Proof.
  destruct (duplicateValues_agree_with_validator sound_config
              [ {| stat_id := 1; stat_name := Some {[ "default" := "Classe" ]};
                   stat_emoji := None;
                   stat_type :=
                     enum (OptionList
                       [ {| opt_value := 1; opt_name := None; opt_emoji := None |};
                         {| opt_value := 2; opt_name := None; opt_emoji := None |};
                         {| opt_value := 1; opt_name := None; opt_emoji := None |} ]) |} ]
              [] 0%nat _ _ eq_refl eq_refl) as (_ & errs & E & Hiff).
  exists errs. split; [exact E |].
  apply Hiff. vm_compute. now left.
Defined.





(** After a last value of 2^53 the sum is rounded back and [addOption]
    repeats the value. *)
Example addOption_repeats_beyond_safe_values :
  addOption
    (OptionList [ {| opt_value := 2 ^ 53; opt_name := None; opt_emoji := None |} ])
  = Some (OptionList
            [ {| opt_value := 2 ^ 53; opt_name := None; opt_emoji := None |};
              {| opt_value := 2 ^ 53;
                 opt_name := Some {[ "default" := EmptyString ]};
                 opt_emoji := None |} ]).
Proof. vm_compute. reflexivity. Qed.

(* ================================================================== *)
(** * Math and dice tokens in the rendered text *)
(* ================================================================== *)

Lemma not_gt_run_app body rest :
  has_char Js.gt_char body = false ->
  Js.not_gt_run (body ++ String Js.gt_char rest) = (body, String Js.gt_char rest).
Proof.
  induction body as [|c body IH]; intros H.
  - reflexivity.
  - simpl in H. apply orb_false_iff in H as [Hc Hb].
    change (String c body ++ String Js.gt_char rest)
      with (String c (body ++ String Js.gt_char rest)).
    cbn [Js.not_gt_run]. rewrite Hc.
    now rewrite (IH Hb).
Qed.

Lemma re_payload_token opener body rest :
  body <> EmptyString -> has_char Js.gt_char body = false ->
  Js.re_payload opener (opener ++ body ++ String Js.gt_char rest)
  = Some (body, rest).
Proof.
  intros Hne Hgt. unfold Js.re_payload. rewrite lit_app.
  unfold Js.not_gt1. rewrite (not_gt_run_app _ _ Hgt).
  destruct body as [|c body]; [congruence |]. reflexivity.
Qed.

Section SkipOtherToken.
Context {A : Type}.
Variable p : Js.pattern A.
Hypothesis Hp : consumes_token p.
Variable f : A -> string.

(** A pass leaves alone a token that its pattern does not match at the
    opening [<], when nothing else inside the token opens one. *)
Lemma replace_skips_token name body post :
  (forall t, p (String Js.lt_char (name ++ t)) = None) ->
  has_char Js.lt_char name = false ->
  has_char Js.lt_char body = false ->
  Js.replace p f (String Js.lt_char (name ++ body ++ String Js.gt_char post))
  = String Js.lt_char (name ++ body ++ String Js.gt_char EmptyString)
    ++ Js.replace p f post.
Proof.
  intros Hnone Hname Hbody.
  rewrite (replace_skip p f _ _ (Hnone _)).
  change (String Js.gt_char post) with (String Js.gt_char EmptyString ++ post).
  rewrite <- (app_assoc_str body), <- (app_assoc_str name).
  rewrite (replace_plain_prefix p Hp).
  - reflexivity.
  - rewrite !has_char_app, Hname, Hbody. reflexivity.
Qed.
End SkipOtherToken.

Section PayloadInline.
Variable evaluate : string -> option string.
Variable DiceRoll : string -> RollOutcome.
Variable sections_ : list Section_.
Variable stats_ : list Stats.
Variable locale : string.

Local Abbreviation preview :=
  (processedValue evaluate DiceRoll sections_ stats_ locale).

Lemma plain_text_preview s :
  has_char Js.lt_char s = false -> preview s = markdown_breaks s.
Proof.
  intros H. unfold processedValue, resolve_variables, resolve_math, resolve_dice.
  rewrite <- (app_nil_r_str s).
  rewrite (replace_plain_prefix _ re_variable_consumes) by exact H.
  simpl (Js.replace Js.re_variable _ EmptyString).
  rewrite (replace_plain_prefix _ re_math_consumes) by exact H.
  simpl (Js.replace Js.re_math _ EmptyString).
  rewrite (replace_plain_prefix _ re_dice_consumes) by exact H.
  reflexivity.
Qed.

(** X20: a math token standing in plain text, with a payload free of [<],
    is handed to the evaluator as written and its result, or the error
    text naming the payload when the evaluator fails, is rendered where the
    token stood; the text before it and the rendering of the text after it
    are not affected. *)
Theorem math_token_evaluated_in_place pre body post :
  has_char Js.lt_char pre = false ->
  body <> EmptyString ->
  has_char Js.lt_char body = false ->
  has_char Js.gt_char body = false ->
  (forall r, evaluate body = Some r -> has_char Js.lt_char r = false) ->
  preview (pre ++ "<math:" ++ body ++ ">" ++ post)
  = markdown_breaks pre
    ++ markdown_breaks
         (match evaluate body with
          | Some result => result
          | None => "[Erro: " ++ body ++ "]"
          end)
    ++ preview post.
Proof.
  intros Hpre Hne Hlt Hgt Hout. unfold processedValue.
  set (rv := resolve_variables sections_ stats_ locale).
  assert (E1 : rv (pre ++ "<math:" ++ body ++ ">" ++ post)
               = pre ++ "<math:" ++ body ++ ">" ++ rv post).
  { unfold rv, resolve_variables.
    rewrite (replace_plain_prefix _ re_variable_consumes) by exact Hpre.
    f_equal.
    rewrite (replace_skips_token _ re_variable_consumes _ "math:" body post);
      [| intros t; reflexivity | reflexivity | exact Hlt].
    simpl. now rewrite !app_assoc_str. }
  set (rm := resolve_math evaluate stats_).
  set (rd := resolve_dice DiceRoll stats_).
  set (out := match evaluate body with
              | Some result => result
              | None => "[Erro: " ++ body ++ "]"
              end).
  assert (E2 : rm (pre ++ "<math:" ++ body ++ ">" ++ rv post)
               = pre ++ out ++ rm (rv post)).
  { unfold rm, resolve_math.
    rewrite (replace_plain_prefix _ re_math_consumes) by exact Hpre.
    rewrite (replace_match _ re_math_consumes _ _ _ _
               (re_payload_token "<math:" body (rv post) Hne Hgt)).
    unfold evaluateMathExpression at 1, math_processed.
    now rewrite (replace_stat_value_without_gt _ _ Hgt). }
  assert (Hres : has_char Js.lt_char out = false).
  { unfold out. destruct (evaluate body) as [r|] eqn:Er; [now apply Hout |].
    simpl. rewrite has_char_app, Hlt. reflexivity. }
  assert (E3 : rd (pre ++ out ++ rm (rv post)) = pre ++ out ++ rd (rm (rv post))).
  { unfold rd, resolve_dice. rewrite <- app_assoc_str.
    rewrite (replace_plain_prefix _ re_dice_consumes)
      by (now rewrite has_char_app, Hpre, Hres).
    now rewrite app_assoc_str. }
  rewrite E1, E2, E3. now rewrite !markdown_breaks_app.
Qed.

(** X21: a dice token standing in plain text, with a payload free of [<],
    is handed to the roller as written and the roll, or the error text, is
    rendered where the token stood, whatever the roller returns. *)
Theorem dice_token_rolled_in_place pre body post :
  has_char Js.lt_char pre = false ->
  body <> EmptyString ->
  has_char Js.lt_char body = false ->
  has_char Js.gt_char body = false ->
  preview (pre ++ "<dice:" ++ body ++ ">" ++ post)
  = markdown_breaks pre
    ++ markdown_breaks
         (match DiceRoll body with
          | Rolled output => "🎲 " ++ output
          | RollError msg => "[Erro dados: " ++ msg ++ "]"
          | RollThrown => "[Erro dados: " ++ body ++ "]"
          end)
    ++ preview post.
Proof.
  intros Hpre Hne Hlt Hgt. unfold processedValue.
  set (rv := resolve_variables sections_ stats_ locale).
  set (rm := resolve_math evaluate stats_).
  assert (E1 : rv (pre ++ "<dice:" ++ body ++ ">" ++ post)
               = pre ++ "<dice:" ++ body ++ ">" ++ rv post).
  { unfold rv, resolve_variables.
    rewrite (replace_plain_prefix _ re_variable_consumes) by exact Hpre.
    f_equal.
    rewrite (replace_skips_token _ re_variable_consumes _ "dice:" body post);
      [| intros t; reflexivity | reflexivity | exact Hlt].
    simpl. now rewrite !app_assoc_str. }
  assert (E2 : rm (pre ++ "<dice:" ++ body ++ ">" ++ rv post)
               = pre ++ "<dice:" ++ body ++ ">" ++ rm (rv post)).
  { unfold rm, resolve_math.
    rewrite (replace_plain_prefix _ re_math_consumes) by exact Hpre.
    f_equal.
    rewrite (replace_skips_token _ re_math_consumes _ "dice:" body (rv post));
      [| intros t; reflexivity | reflexivity | exact Hlt].
    simpl. now rewrite !app_assoc_str. }
  set (rd := resolve_dice DiceRoll stats_).
  set (out := match DiceRoll body with
              | Rolled output => "🎲 " ++ output
              | RollError msg => "[Erro dados: " ++ msg ++ "]"
              | RollThrown => "[Erro dados: " ++ body ++ "]"
              end).
  assert (E3 : rd (pre ++ "<dice:" ++ body ++ ">" ++ rm (rv post))
               = pre ++ out ++ rd (rm (rv post))).
  { unfold rd, resolve_dice.
    rewrite (replace_plain_prefix _ re_dice_consumes) by exact Hpre.
    rewrite (replace_match _ re_dice_consumes _ _ _ _
               (re_payload_token "<dice:" body (rm (rv post)) Hne Hgt)).
    unfold evaluateDiceExpression at 1, dice_processed.
    now rewrite (replace_stat_value_without_gt _ _ Hgt). }
  rewrite E1, E2, E3. now rewrite !markdown_breaks_app.
Qed.
End PayloadInline.

(** Rewriting the line breaks changes nothing to a text being blank. *)
Lemma blank_markdown_breaks s : forall st,
  blank_from st (markdown_breaks s) = blank_from st s.
Proof.
  induction s as [|c s IH]; intros st; [reflexivity |].
  rewrite markdown_breaks_cons.
  destruct (Ascii.eqb_spec c Js.newline) as [-> | Hne].
  - destruct st; simpl; try reflexivity. apply IH.
  - simpl. destruct (ws_step st c); [apply IH | reflexivity].
Qed.

(** X22: what [SmartPreview] renders for a text without [<]: the
    placeholder when the text holds nothing but white space, and
    otherwise the text itself with nothing but its line breaks rewritten,
    handed to the markdown renderer, whatever the stats, sections and
    collaborators are. *)
Theorem plain_text_only_gets_line_breaks
    (evaluate : string -> option string) (DiceRoll : string -> RollOutcome)
    (sections_ : list Section_) (stats_ : list Stats) (locale text : string) :
  has_char Js.lt_char text = false ->
  SmartPreview evaluate DiceRoll sections_ stats_ locale text
  = (if is_blank text then Placeholder else Markdown (markdown_breaks text))
  /\ (has_char Js.newline text = false -> is_blank text = false ->
      SmartPreview evaluate DiceRoll sections_ stats_ locale text
      = Markdown text).
Proof.
  intros H.
  assert (E : SmartPreview evaluate DiceRoll sections_ stats_ locale text
              = if is_blank text then Placeholder
                else Markdown (markdown_breaks text)).
  { unfold SmartPreview. cbv zeta. rewrite plain_text_preview by exact H.
    unfold is_blank. now rewrite blank_markdown_breaks. }
  split; [exact E |].
  intros Hnl Hb. rewrite E, Hb. now rewrite markdown_breaks_plain.
Qed.

Lemma plain_text_only_gets_line_breaks_witness :
  SmartPreview (fun _ => None) (fun _ => RollThrown) [] [] "default"
    "Dano: 2d6 + 3"
  = Markdown "Dano: 2d6 + 3"
  /\ SmartPreview (fun _ => None) (fun _ => RollThrown) [] [] "default" " "
     = Placeholder.
Proof.
  split.
  - apply (plain_text_only_gets_line_breaks (fun _ => None) (fun _ => RollThrown)
             [] [] "default" "Dano: 2d6 + 3"); reflexivity.
  - exact (proj1 (plain_text_only_gets_line_breaks (fun _ => None)
                    (fun _ => RollThrown) [] [] "default" " " eq_refl)).
Defined.

Lemma math_token_evaluated_in_place_witness :
  processedValue (fun e => if String.eqb e "2 + 2" then Some "4" else None)
    (fun _ => RollThrown) [] [] "default" "Total: <math:2 + 2> pontos"
  = "Total: 4 pontos".
Proof.
  apply (math_token_evaluated_in_place
           (fun e => if String.eqb e "2 + 2" then Some "4" else None)
           (fun _ => RollThrown) [] [] "default" "Total: " "2 + 2" " pontos");
    try reflexivity.
  - discriminate.
  - intros r. simpl. intros [= <-]. reflexivity.
Defined.

Lemma dice_token_rolled_in_place_witness :
  processedValue (fun _ => None) (fun _ => RollThrown) [] [] "default"
    "Ataque: <dice:1d20> !"
  = "Ataque: [Erro dados: 1d20] !".
Proof.
  apply (dice_token_rolled_in_place (fun _ => None) (fun _ => RollThrown)
           [] [] "default" "Ataque: " "1d20" " !"); try reflexivity.
  discriminate.
Defined.

(* ================================================================== *)
(** * The dice editor's moves, proved *)
(* ================================================================== *)

(** X23: the dice editor's [moveUp] and [moveDown] do what [moveStat] does
    with the directions up and down: for every position inside the list
    the three handlers yield the same list, so a dice moves exactly as a
    stat or a section does. *)
Theorem dice_moves_agree_with_moveStat {A} (dices : list A) (index : nat) :
  (index < length dices)%nat ->
  moveUp dices index = moveStat dices index up
  /\ moveDown dices index = moveStat dices index down.
Proof.
  intros Hlt. split.
  - unfold moveUp, moveStat. destruct index as [|i]; [reflexivity |].
    simpl Nat.pred. simpl (0 <? S i)%nat.
    destruct (Nat.leb_spec (length dices) i) as [Hle | _]; [lia |].
    destruct (dices !! S i) as [a|]; [| reflexivity].
    destruct (dices !! i) as [b|]; [| reflexivity].
    f_equal. apply list_insert_insert_ne. lia.
  - unfold moveDown, moveStat.
    destruct (Nat.ltb_spec (S index) (length dices)) as [H | H];
      destruct (Nat.leb_spec (length dices) (S index)) as [H' | H'];
      try lia; now destruct index.
Qed.

Lemma dice_moves_agree_with_moveStat_witness :
  moveUp [1; 2; 3] 2 = moveStat [1; 2; 3] 2 up
  /\ moveDown [1; 2; 3] 2 = moveStat [1; 2; 3] 2 down.
Proof. apply dice_moves_agree_with_moveStat. simpl. lia. Defined.

(* ================================================================== *)
(** * Deleting a pill *)
(* ================================================================== *)





(* ================================================================== *)
(** * Adding to and removing from a well-formed schema *)
(* ================================================================== *)

Lemma find_stat_app l1 l2 d :
  find_stat (l1 ++ l2) d
  = match find_stat l1 d with Some s => Some s | None => find_stat l2 d end.
Proof.
  unfold find_stat. induction l1 as [|x l1 IH]; simpl; [reflexivity |].
  now destruct (stat_id x =? d).
Qed.

Lemma find_stat_Some l d s :
  find_stat l d = Some s -> stat_id s = d /\ In s l.
Proof.
  unfold find_stat. intros H. apply find_some in H as [Hin E].
  apply Z.eqb_eq in E. auto.
Qed.

Lemma find_stat_None l d : find_stat l d = None <-> ~ In d (map stat_id l).
Proof.
  unfold find_stat. split.
  - intros H Hin. apply in_map_iff in Hin as (s & E & Hs).
    pose proof (find_none _ _ H s Hs) as Hn. simpl in Hn.
    apply Z.eqb_neq in Hn. congruence.
  - intros H. destruct (List.find _ l) as [s|] eqn:E; [| reflexivity].
    apply find_some in E as [Hin E]. apply Z.eqb_eq in E.
    exfalso. apply H. apply in_map_iff. exists s. auto.
Qed.

Lemma mentions_empty d : ~ mentions EmptyString d.
Proof. intros H. apply dependencies_mentions in H. exact H. Qed.

Lemma well_formed_nothing_reported cfg allStats secs :
  well_formed {| config := cfg; stats := IsArray allStats;
                 sections := IsArray secs |}
  <-> forall e, ~ reported cfg allStats secs e.
Proof.
  rewrite <- validate_empty_iff.
  destruct (validate_errors_report cfg allStats secs) as [E1 E2].
  rewrite E2. split.
  - intros [= H] e Hr. apply map_nil_iff in H.
    destruct (report_In cfg allStats secs e) as (errs & E & Hiff).
    rewrite E1 in E. injection E as <-. rewrite H in Hiff.
    apply Hiff in Hr. destruct Hr.
  - intros H. f_equal. apply map_nil_iff.
    assert (Hall : forall e,
      ~ In e (report {| config := cfg; stats := IsArray allStats;
                        sections := IsArray secs |} allStats secs)).
    { intros e Hin.
      destruct (report_In cfg allStats secs e) as (errs & E & Hiff).
      rewrite E1 in E. injection E as <-. apply (H e), Hiff, Hin. }
    destruct (report _ allStats secs) as [|e l]; [reflexivity |].
    exfalso. apply (Hall e). now left.
Qed.

Lemma refers_addStat id f stats_ kind a b :
  refers id f (addStat stats_ kind) a b <-> refers id f stats_ a b.
Proof.
  unfold refers, formula_at, stored_formula, addStat.
  destruct (a =? id); [reflexivity |].
  rewrite find_stat_app. destruct (find_stat stats_ a) as [s|]; [reflexivity |].
  unfold find_stat. simpl.
  destruct (nextId id_of_stat stats_ =? a); simpl.
  - destruct kind; simpl; split; intros (g & Hg & Hin);
      try discriminate Hg. injection Hg as <-. destruct Hin.
  - split; intros (g & Hg & _); discriminate Hg.
Qed.

Lemma lookup_snoc_cases {A} (l : list A) (x y : A) i :
  (l ++ [x])%list !! i = Some y ->
  ((i < length l)%nat /\ l !! i = Some y) \/ (i = length l /\ y = x).
Proof.
  intros H. apply lookup_app_Some in H as [H | [Hle H]].
  - left. split; [eapply lookup_lt_Some; eauto | exact H].
  - right. apply list_lookup_singleton_Some in H as [H ->]. split; [lia | auto].
Qed.

(** X25: adding a stat to a well-formed schema whose stat ids are below
    2^53 keeps the report empty for every kind of stat but one: a new
    calculated stat starts with an empty formula, and the only entry of the
    report is then the missing formula of the new stat, at the last
    position. *)
Theorem addStat_on_well_formed_schema
    (cfg : option Config) (stats_ : list Stats) (secs : list Section_)
    (kind : StatKind) :
  well_formed {| config := cfg; stats := IsArray stats_;
                 sections := IsArray secs |} ->
  (forall s, In s stats_ -> stat_id s < 2 ^ 53) ->
  exists errs,
    validate_errors {| config := cfg; stats := IsArray (addStat stats_ kind);
                       sections := IsArray secs |} = Returns errs
    /\ forall e, In e errs
                 <-> kind = kind_calculated /\ e = FormulaRequired (length stats_).
Proof.
  intros Hwf Hsafe.
  pose proof (proj1 (well_formed_nothing_reported _ _ _) Hwf) as Hnone.
  destruct (validate_errors_report cfg (addStat stats_ kind) secs) as [E _].
  eexists. split; [exact E |]. intros e.
  destruct (report_In cfg (addStat stats_ kind) secs e) as (errs & E' & Hiff).
  rewrite E in E'. injection E' as <-. rewrite Hiff. clear E Hiff. split.
  - intros Hr.
    inversion Hr as [Hc | Hc | i s Hi Hk | i s e' Hi He | i sec Hi Hk
                     | i sec Hi Hn | i sec Hi Hp]; subst.
    + exfalso. apply (Hnone ConfigIdRequired). now apply reported_config_id.
    + exfalso. apply (Hnone ConfigNameRequired). now apply reported_config_name.
    + exfalso. unfold addStat in Hi, Hk.
      apply lookup_snoc_cases in Hi as [[Hlt Hi] | [-> ->]].
      * rewrite take_app_le in Hk by lia.
        apply (Hnone (StatDuplicateId i (stat_id s))).
        now apply reported_stat_id with (i := i) (s := s).
      * rewrite take_app_length in Hk. simpl in Hk.
        now apply (nextId_stat_not_in stats_ Hsafe).
    + unfold addStat in Hi.
      apply lookup_snoc_cases in Hi as [[Hlt Hi] | [-> ->]].
      * exfalso.
        assert (Hold : forall e0, stat_entry stats_ i s e0 -> False).
        { intros e0 H0. apply (Hnone e0).
          now apply reported_stat with (i := i) (s := s). }
        inversion He as [Hn | lo hi Et Hr' | l Et Hl | l j o Et Hj Hb
                         | l j o Et Hj Ho | Et | f Et Hf Hcyc
                         | f d Et Hm Hfind | f d dep Et Hm Hfind Hs]; subst.
        -- apply (Hold _ (entry_name _ _ _ Hn)).
        -- apply (Hold _ (entry_range _ _ _ lo hi Et Hr')).
        -- apply (Hold _ (entry_limit _ _ _ l Et Hl)).
        -- apply (Hold _ (entry_option_value _ _ _ l j o Et Hj Hb)).
        -- apply (Hold _ (entry_option_name _ _ _ l j o Et Hj Ho)).
        -- apply (Hold _ (entry_formula_required _ _ _ Et)).
        -- apply (Hold (FormulaCircular i)).
           apply (entry_circular _ _ _ f Et Hf).
           eapply reaches_cycle_ext; [| exact Hcyc].
           intros a b. apply refers_addStat.
        -- apply (Hold (FormulaMissingStat i d)).
           apply (entry_missing _ _ _ f d Et Hm).
           unfold addStat in Hfind. rewrite find_stat_app in Hfind.
           now destruct (find_stat stats_ d).
        -- unfold addStat in Hfind. rewrite find_stat_app in Hfind.
           destruct (find_stat stats_ d) as [dep'|] eqn:Ed.
           ++ injection Hfind as ->.
              apply (Hold _ (entry_string _ _ _ f d dep Et Hm Ed Hs)).
           ++ apply (Hold _ (entry_missing _ _ _ f d Et Hm Ed)).
      * inversion He as [Hn | lo hi Et Hr' | l Et Hl | l j o Et Hj Hb
                         | l j o Et Hj Ho | Et | f Et Hf Hcyc
                         | f d Et Hm Hfind | f d dep Et Hm Hfind Hs]; subst;
          try (destruct kind; simpl in Et; try discriminate Et).
        -- exfalso. apply Hn. reflexivity.
        -- injection Et as <- <-. lia.
        -- injection Et as <-. simpl in Hl. lia.
        -- injection Et as <-. discriminate Hj.
        -- injection Et as <-. discriminate Hj.
        -- split; reflexivity.
        -- injection Et as <-. congruence.
        -- injection Et as <-. now apply mentions_empty in Hm.
        -- injection Et as <-. now apply mentions_empty in Hm.
    + exfalso. apply (Hnone (SectionDuplicateId i (sec_id sec))).
      now apply reported_section_id with (i := i) (sec := sec).
    + exfalso. apply (Hnone (SectionNameRequired i)).
      now apply reported_section_name with (sec := sec).
    + exfalso. apply (Hnone (SectionPreviewTypeRequired i)).
      now apply reported_section_preview with (sec := sec).
  - intros [-> ->].
    apply reported_stat
      with (i := length stats_)
           (s := new_stat kind_calculated (nextId id_of_stat stats_)).
    + unfold addStat. rewrite lookup_app_r by lia.
      now rewrite Nat.sub_diag.
    + now apply entry_formula_required.
Qed.

Lemma addStat_on_well_formed_schema_witness :
  exists errs,
    validate_errors {| config := sound_config;
                       stats := IsArray (addStat [plain 1 "a"] kind_calculated);
                       sections := IsArray [] |} = Returns errs
    /\ forall e, In e errs
                 <-> kind_calculated = kind_calculated
                     /\ e = FormulaRequired (length [plain 1 "a"]).
Proof.
  apply addStat_on_well_formed_schema.
  - apply validate_empty_iff. vm_compute. reflexivity.
  - intros s [<- | []]. reflexivity.
Defined.

(** X26: adding a section to a well-formed schema whose section ids are
    below 2^53 leaves it well-formed: the new section has a fresh id, a
    name and a preview type, so the report stays empty. *)
Theorem addSection_keeps_schema_well_formed
    (cfg : option Config) (stats_ : list Stats) (secs : list Section_) :
  well_formed {| config := cfg; stats := IsArray stats_;
                 sections := IsArray secs |} ->
  (forall s, In s secs -> sec_id s < 2 ^ 53) ->
  validate {| config := cfg; stats := IsArray stats_;
              sections := IsArray (addSection secs) |} = Returns [].
Proof.
  intros (l & s & [= <-] & [= <-] & Hc & Hnd & Hst & Hnd' & Hsec) Hb.
  apply validate_empty_iff. exists stats_, (addSection secs).
  simpl in *. repeat split; auto.
  - unfold addSection. rewrite map_app. simpl.
    apply NoDup_insert_middle; rewrite app_nil_r; [exact Hnd' |].
    now apply nextId_section_not_in.
  - unfold addSection. apply List.Forall_app. split; [exact Hsec |].
    constructor; [| constructor]. split; reflexivity.
Qed.

Lemma addSection_keeps_schema_well_formed_witness :
  validate {| config := sound_config; stats := IsArray [plain 1 "a"];
              sections := IsArray (addSection []) |} = Returns [].
Proof.
  apply addSection_keeps_schema_well_formed.
  - apply validate_empty_iff. vm_compute. reflexivity.
  - intros s [].
Defined.

Lemma removeStat_split l i (removed : Stats) :
  l !! i = Some removed ->
  l = (take i l ++ removed :: drop (S i) l)%list.
Proof. intros H. symmetry. now apply take_drop_middle. Qed.

Lemma removeStat_ids l i removed :
  List.NoDup (map stat_id l) -> l !! i = Some removed ->
  List.NoDup (map stat_id (removeStat l i))
  /\ ~ In (stat_id removed) (map stat_id (removeStat l i)).
Proof.
  intros Hnd Hi. unfold removeStat.
  rewrite (removeStat_split l i removed Hi) in Hnd at 1.
  rewrite map_app in Hnd. simpl in Hnd. rewrite map_app. split.
  - eapply NoDup_remove_1. exact Hnd.
  - eapply NoDup_remove_2. exact Hnd.
Qed.

Lemma find_stat_removeStat l i removed d :
  List.NoDup (map stat_id l) -> l !! i = Some removed ->
  find_stat (removeStat l i) d
  = if d =? stat_id removed then None else find_stat l d.
Proof.
  intros Hnd Hi. destruct (removeStat_ids l i removed Hnd Hi) as [_ Hnot].
  destruct (Z.eqb_spec d (stat_id removed)) as [-> | Hne].
  - now apply find_stat_None.
  - rewrite (removeStat_split l i removed Hi) at 2. unfold removeStat.
    rewrite !find_stat_app.
    destruct (find_stat (take i l) d); [reflexivity |].
    unfold find_stat at 2. simpl.
    destruct (Z.eqb_spec (stat_id removed) d); [congruence | reflexivity].
Qed.

Lemma In_removeStat l i (s : Stats) : In s (removeStat l i) -> In s l.
Proof.
  unfold removeStat. rewrite in_app_iff.
  intros [H | H]; apply list_elem_of_In in H; apply list_elem_of_In.
  - exact (subseteq_take i l s H).
  - exact (subseteq_drop (S i) l s H).
Qed.

Lemma reaches_cycle_sub id formula l l' :
  (forall a b, refers id formula l a b -> refers id formula l' a b) ->
  reaches_cycle id formula l -> reaches_cycle id formula l'.
Proof.
  intros Hsub (v & Hv & Hc). exists v. split.
  - eapply rtc_subrel; [| exact Hv]. exact Hsub.
  - eapply tc_sub; [| exact Hc]. exact Hsub.
Qed.

(** X27: removing a stat from a well-formed schema never cleans up the
    formulas that mention it: the report of the schema after [removeStat]
    holds an entry exactly when it is the missing-stat entry of a
    remaining calculated stat whose formula mentions the removed id; when
    no formula mentions it the report stays empty. *)
Theorem removeStat_reports_dangling_references
    (cfg : option Config) (stats_ : list Stats) (secs : list Section_)
    (index : nat) (removed : Stats) :
  well_formed {| config := cfg; stats := IsArray stats_;
                 sections := IsArray secs |} ->
  stats_ !! index = Some removed ->
  exists errs,
    validate_errors {| config := cfg; stats := IsArray (removeStat stats_ index);
                       sections := IsArray secs |} = Returns errs
    /\ forall e, In e errs
         <-> exists k c f,
               removeStat stats_ index !! k = Some c
               /\ stat_type c = calculated f
               /\ mentions f (stat_id removed)
               /\ e = FormulaMissingStat k (stat_id removed).
Proof.
  intros Hwf Hi.
  pose proof (proj1 (well_formed_nothing_reported _ _ _) Hwf) as Hnone.
  destruct Hwf as (l & s & [= <-] & [= <-] & _ & Hnd & _).
  destruct (removeStat_ids stats_ index removed Hnd Hi) as [Hnd' _].
  destruct (validate_errors_report cfg (removeStat stats_ index) secs) as [E _].
  eexists. split; [exact E |]. intros e.
  destruct (report_In cfg (removeStat stats_ index) secs e)
    as (errs & E' & Hiff).
  rewrite E in E'. injection E' as <-. rewrite Hiff. clear E Hiff. split.
  - intros Hr.
    inversion Hr as [Hc | Hc | k c Hk Hdup | k c e' Hk He | k sec Hk Hdup
                     | k sec Hk Hn | k sec Hk Hp]; subst.
    + exfalso. apply (Hnone ConfigIdRequired). now apply reported_config_id.
    + exfalso. apply (Hnone ConfigNameRequired). now apply reported_config_name.
    + exfalso. apply (proj1 (no_duplicate_entry_iff stat_id _) Hnd' k c Hk Hdup).
    + assert (Hin : In c stats_).
      { apply In_removeStat with index. apply In_lookup. eauto. }
      apply In_lookup in Hin as [k' Hk'].
      assert (Hold : forall e0, stat_entry stats_ k' c e0 -> False).
      { intros e0 H0. apply (Hnone e0).
        now apply reported_stat with (i := k') (s := c). }
      inversion He as [Hn | lo hi Et Hr' | l Et Hl | l j o Et Hj Hb
                       | l j o Et Hj Ho | Et | f Et Hf Hcyc
                       | f d Et Hm Hfind | f d dep Et Hm Hfind Hs]; subst.
      * exfalso. apply (Hold _ (entry_name _ _ _ Hn)).
      * exfalso. apply (Hold _ (entry_range _ _ _ lo hi Et Hr')).
      * exfalso. apply (Hold _ (entry_limit _ _ _ l Et Hl)).
      * exfalso. apply (Hold _ (entry_option_value _ _ _ l j o Et Hj Hb)).
      * exfalso. apply (Hold _ (entry_option_name _ _ _ l j o Et Hj Ho)).
      * exfalso. apply (Hold _ (entry_formula_required _ _ _ Et)).
      * exfalso. apply (Hold (FormulaCircular k')).
        apply (entry_circular _ _ _ f Et Hf).
        eapply reaches_cycle_sub; [| exact Hcyc].
        intros a b. unfold refers, formula_at, stored_formula.
        destruct (a =? stat_id c); [auto |].
        rewrite (find_stat_removeStat stats_ index removed a Hnd Hi).
        destruct (a =? stat_id removed); [| auto].
        intros (g & Hg & _). discriminate Hg.
      * rewrite (find_stat_removeStat stats_ index removed d Hnd Hi) in Hfind.
        destruct (Z.eqb_spec d (stat_id removed)) as [-> | Hne].
        -- exists k, c, f. auto.
        -- exfalso. apply (Hold _ (entry_missing _ _ _ f d Et Hm Hfind)).
      * exfalso.
        rewrite (find_stat_removeStat stats_ index removed d Hnd Hi) in Hfind.
        destruct (d =? stat_id removed); [discriminate Hfind |].
        apply (Hold _ (entry_string _ _ _ f d dep Et Hm Hfind Hs)).
    + exfalso. apply (Hnone (SectionDuplicateId k (sec_id sec))).
      now apply reported_section_id with (i := k) (sec := sec).
    + exfalso. apply (Hnone (SectionNameRequired k)).
      now apply reported_section_name with (sec := sec).
    + exfalso. apply (Hnone (SectionPreviewTypeRequired k)).
      now apply reported_section_preview with (sec := sec).
  - intros (k & c & f & Hk & Et & Hm & ->).
    apply reported_stat with (i := k) (s := c); [exact Hk |].
    apply (entry_missing _ _ _ f (stat_id removed) Et Hm).
    rewrite (find_stat_removeStat stats_ index removed _ Hnd Hi).
    now rewrite Z.eqb_refl.
Qed.

Lemma removeStat_reports_dangling_references_witness :
  exists errs,
    validate_errors
      {| config := sound_config;
         stats := IsArray
                    (removeStat
                       [plain 1 "a";
                        {| stat_id := 2; stat_name := Some {[ "default" := "b" ]};
                           stat_emoji := None;
                           stat_type := calculated "<stat:1:value> + 1" |}] 0);
         sections := IsArray [] |} = Returns errs
    /\ In (FormulaMissingStat 0 1) errs.
Proof.
  destruct (removeStat_reports_dangling_references sound_config
              [plain 1 "a";
               {| stat_id := 2; stat_name := Some {[ "default" := "b" ]};
                  stat_emoji := None;
                  stat_type := calculated "<stat:1:value> + 1" |}] []
              0%nat (plain 1 "a")) as (errs & E & Hiff).
  - apply validate_empty_iff. vm_compute. reflexivity.
  - reflexivity.
  - exists errs. split; [exact E |]. apply Hiff.
    exists 0%nat, {| stat_id := 2; stat_name := Some {[ "default" := "b" ]};
                     stat_emoji := None;
                     stat_type := calculated "<stat:1:value> + 1" |},
           "<stat:1:value> + 1".
    repeat split; try reflexivity.
    apply dependencies_mentions. vm_compute. now left.
Defined.
